(** * fluent-iter: a fluent wrapper around JavaScript iterables

    A shallow embedding of [src/util.ts], [src/FluentIterable.ts] and
    [src/FluentAsyncIterable.ts].

    The JavaScript values that the library inspects or traverses are an
    inductive type; function objects and generator objects live in a heap
    and are referred to by address, because the library's behaviour depends
    on their identity (a generator object is one-shot and shared by every
    holder of the reference).  Code that can throw or loop runs in a small
    state-and-error monad with fuel.

    Left out of the model: promises as values ([await e] is the value of
    [e]), numbers that are not integers, characters of more than one byte,
    array and string iterators as values of their own, and a generator that
    is resumed while it runs. *)

From Stdlib Require Import ZArith String Ascii DecimalString.
From stdpp Require Import base option list gmap fin_maps.

#[local] Set Warnings "-register-all,-clear-no-such-hyp".

Local Open Scope string_scope.
Local Open Scope list_scope.

(** ** Values *)

(** The built-in methods that the host installs under [Symbol.iterator] and
    [Symbol.asyncIterator]. *)
Inductive builtin : Type :=
  | BArrayValues        (* Array.prototype[Symbol.iterator] *)
  | BStringIterator     (* String.prototype[Symbol.iterator] *)
  | BReturnThis.        (* %IteratorPrototype%[Symbol.iterator] and
                           %AsyncIteratorPrototype%[Symbol.asyncIterator]:
                           both return their receiver *)

(** Numbers are restricted to integers; strings to one-byte characters (one
    character is one code point).  [VObj it ait] is an ordinary object whose
    [Symbol.iterator] and [Symbol.asyncIterator] properties hold [it] and
    [ait]; [VUndefined] there means that the property is absent. *)
Inductive value : Type :=
  | VUndefined
  | VNull
  | VBool (b : bool)
  | VNum (n : Z)
  | VStr (s : string)
  | VArr (xs : list value)
  | VObj (it ait : value)
  | VFun (f : nat)          (* a function object, by address *)
  | VBuiltin (b : builtin)
  | VGen (g : nat)          (* a generator object made by a function*   *)
  | VAsyncGen (g : nat).    (* a generator object made by an async function* *)

Inductive error : Type :=
  | TypeError (msg : string).

(** Results of code that touches no state. *)
Inductive res (A : Type) : Type :=
  | Val (a : A)
  | Err (e : error).
Arguments Val {A} a.
Arguments Err {A} e.

Definition res_bind {A B} (r : res A) (k : A → res B) : res B :=
  match r with
  | Val a => k a
  | Err e => Err e
  end.

Inductive jstype : Type :=
  | TUndefined | TObject | TBoolean | TNumber | TString | TFunction.

Definition jstype_eqb (a b : jstype) : bool :=
  match a, b with
  | TUndefined, TUndefined | TObject, TObject | TBoolean, TBoolean
  | TNumber, TNumber | TString, TString | TFunction, TFunction => true
  | _, _ => false
  end.

(** [typeof v] *)
Definition typeof (v : value) : jstype :=
  match v with
  | VUndefined => TUndefined
  | VNull => TObject
  | VBool _ => TBoolean
  | VNum _ => TNumber
  | VStr _ => TString
  | VArr _ | VObj _ _ | VGen _ | VAsyncGen _ => TObject
  | VFun _ | VBuiltin _ => TFunction
  end.

(** [Boolean(v)] *)
Definition to_boolean (v : value) : bool :=
  match v with
  | VUndefined | VNull => false
  | VBool b => b
  | VNum n => negb (n =? 0)%Z
  | VStr s => negb (String.eqb s "")
  | _ => true
  end.

Inductive symbol : Type := SymIterator | SymAsyncIterator.

(** [v[Symbol.iterator]] and [v[Symbol.asyncIterator]].  Reading a property
    of [undefined] or [null] throws. *)
Definition get (v : value) (k : symbol) : res value :=
  match v with
  | VUndefined | VNull =>
      Err (TypeError "Cannot read properties of undefined or null")
  | VStr _ =>
      Val (match k with SymIterator => VBuiltin BStringIterator | _ => VUndefined end)
  | VArr _ =>
      Val (match k with SymIterator => VBuiltin BArrayValues | _ => VUndefined end)
  | VGen _ =>
      Val (match k with SymIterator => VBuiltin BReturnThis | _ => VUndefined end)
  | VAsyncGen _ =>
      Val (match k with SymAsyncIterator => VBuiltin BReturnThis | _ => VUndefined end)
  | VObj it ait =>
      Val (match k with SymIterator => it | SymAsyncIterator => ait end)
  | VBool _ | VNum _ | VFun _ | VBuiltin _ => Val VUndefined
  end.

(** ** The classifier (util.ts) *)

(** [Boolean(x) && typeof x[k] === 'function']: the right operand is
    evaluated only when [Boolean(x)] holds. *)
Definition has_method (k : symbol) (x : value) : res bool :=
  if to_boolean x
  then res_bind (get x k) (λ m, Val (jstype_eqb (typeof m) TFunction))
  else Val false.

Definition isIterable (x : value) : res bool := has_method SymIterator x.

Definition isAsyncIterable (x : value) : res bool := has_method SymAsyncIterator x.

(** ** The heap: function objects and generator objects *)

Inductive mode : Type := Sync | Async.

(** Cursors (iterators).  Array and string iterators carry their own
    position: the library never shares one between two holders.  A generator
    object is its own iterator and is shared, so its cursor is its address. *)
Inductive cursor : Type :=
  | CArr (xs : list value) (i : nat)
  | CStr (s : string)
  | CGen (g : nat).

(** What the generator function of each transformation method closes
    over.  Callbacks may throw. *)
Inductive stage : Type :=
  | StMap (fn : value → res value) (a : value)
  | StFilter (predicate : value → res bool) (a : value)
  | StConcat (a other : value)
  | StFlat (a : value)
  | StEnumerate (a : value)
  | StZip (a other : value).

(** Function objects.  All take no argument. *)
Inductive closure : Type :=
  | FnConst (v : value)                 (* () => v *)
  | FnThrow (e : error)                 (* () => { throw e } *)
  | FnGenerator (xs : list value)       (* function* () { yield x1; ...; yield xn } *)
  | FnAsyncGenerator (xs : list value)  (* async function* () { yield x1; ... } *)
  | FnStage (m : mode) (st : stage).    (* the function* / async function* literal
                                           inside a transformation method *)

(** A generator object is suspended at its start, at a [yield], or is done.
    The frame records the live local variables at the suspension point. *)
Inductive frame : Type :=
  | GStart (m : mode) (st : stage)
  | GItems (xs : list value)                    (* user generator: what is left to yield *)
  | GMap (fn : value → res value) (c : cursor)
  | GFilter (predicate : value → res bool) (c : cursor)
  | GConcat1 (m : mode) (c : cursor) (other : value)
  | GConcat2 (c : cursor)
  | GFlat (m : mode) (stack : list cursor)      (* head of the list = stack[stack.length-1] *)
  | GEnumerate (i : nat) (c : cursor)           (* [i]: index of the next element *)
  | GZip (ai bi : cursor)
  | GDone.

Record heap : Type := Heap {
  funs : gmap nat closure;
  gens : gmap nat frame;
  calls : list nat    (* the function objects invoked so far, oldest first *)
}.

Definition empty_heap : heap := Heap ∅ ∅ [].

(** ** State, errors and fuel *)

(** A computation returns a value and the new heap, throws, or runs out of
    fuel.  What the heap is after a throw is not recorded: no property below
    continues after one. *)
Inductive outcome (A : Type) : Type :=
  | Ok (a : A) (h : heap)
  | Throw (e : error)
  | OutOfFuel.
Arguments Ok {A} a h.
Arguments Throw {A} e.
Arguments OutOfFuel {A}.

Definition M (A : Type) : Type := heap → outcome A.

Definition ret {A} (a : A) : M A := λ h, Ok a h.

Definition bind {A B} (c : M A) (k : A → M B) : M B :=
  λ h, match c h with
       | Ok a h' => k a h'
       | Throw e => Throw e
       | OutOfFuel => OutOfFuel
       end.

Definition throw {A} (e : error) : M A := λ _, Throw e.

Definition out_of_fuel {A} : M A := λ _, OutOfFuel.

Definition lift {A} (r : res A) : M A :=
  match r with
  | Val a => ret a
  | Err e => throw e
  end.

#[global] Instance M_ret : MRet M := @ret.
#[global] Instance M_bind : MBind M := λ A B k c, bind c k.

Definition alloc_fun (cl : closure) : M nat :=
  λ h, let f := fresh (dom (funs h)) in
       Ok f (Heap (<[f := cl]> (funs h)) (gens h) (calls h)).

Definition alloc_gen (fr : frame) : M nat :=
  λ h, let g := fresh (dom (gens h)) in
       Ok g (Heap (funs h) (<[g := fr]> (gens h)) (calls h)).

Definition read_gen (g : nat) : M frame :=
  λ h, match gens h !! g with
       | Some fr => Ok fr h
       | None => Throw (TypeError "not a generator object")
       end.

Definition write_gen (g : nat) (fr : frame) : M unit :=
  λ h, Ok tt (Heap (funs h) (<[g := fr]> (gens h)) (calls h)).

(** Calling the function object at address [f] with no argument. *)
Definition call (f : nat) : M value :=
  λ h, match funs h !! f with
       | None => Throw (TypeError "not a function")
       | Some cl =>
           let h1 := Heap (funs h) (gens h) (calls h ++ [f]) in
           match cl with
           | FnConst v => Ok v h1
           | FnThrow e => Throw e
           | FnGenerator xs => (g ← alloc_gen (GItems xs); ret (VGen g)) h1
           | FnAsyncGenerator xs => (g ← alloc_gen (GItems xs); ret (VAsyncGen g)) h1
           | FnStage Sync st => (g ← alloc_gen (GStart Sync st); ret (VGen g)) h1
           | FnStage Async st => (g ← alloc_gen (GStart Async st); ret (VAsyncGen g)) h1
           end
       end.

(** [f()] for an arbitrary value [f]. *)
Definition call_value (f : value) : M value :=
  match f with
  | VFun a => call a
  | VBuiltin BReturnThis => ret VUndefined    (* the receiver of a plain call *)
  | VBuiltin _ => throw (TypeError "receiver is undefined")
  | _ => throw (TypeError "not a function")
  end.

(** ** Obtaining a cursor *)

(** [m.call(this)] for a method [m] found under one of the two symbols; the
    result has to be an iterator. *)
Definition invoke (m this : value) : M cursor :=
  match m with
  | VBuiltin BArrayValues =>
      match this with
      | VArr xs => ret (CArr xs 0)
      | _ => throw (TypeError "receiver is not an array")
      end
  | VBuiltin BStringIterator =>
      match this with
      | VStr s => ret (CStr s)
      | _ => throw (TypeError "receiver is not a string")
      end
  | VBuiltin BReturnThis =>
      match this with
      | VGen g | VAsyncGen g => ret (CGen g)
      | _ => throw (TypeError "next is not a function")
      end
  | VFun f =>
      r ← call f;
      match r with
      | VGen g | VAsyncGen g => ret (CGen g)
      | _ => throw (TypeError "next is not a function")
      end
  | _ => throw (TypeError "not a function")
  end.

(** [a[Symbol.iterator]()] and [a[Symbol.asyncIterator]()] *)
Definition iterator_of (k : symbol) (a : value) : M cursor :=
  m ← lift (get a k); invoke m a.

(** The cursor that [for (const x of a)] and [for await (const x of a)]
    start from.  [for await] falls back to the synchronous method when the
    asynchronous one is [undefined] or [null]. *)
Definition loop_iterator (m : mode) (a : value) : M cursor :=
  match m with
  | Sync => iterator_of SymIterator a
  | Async =>
      am ← lift (get a SymAsyncIterator);
      match am with
      | VUndefined | VNull => iterator_of SymIterator a
      | _ => invoke am a
      end
  end.

Definition mode_symbol (m : mode) : symbol :=
  match m with Sync => SymIterator | Async => SymAsyncIterator end.

(** ** Running generators *)

(** [c.next()] for a cursor [c], given how to resume a generator object.
    [None] stands for [{done: true}].  The advanced cursor is returned with
    the element. *)
Definition next_with (resume : nat → M (option value)) (c : cursor)
    : M (option value * cursor) :=
  match c with
  | CArr xs i =>
      match xs !! i with
      | Some v => ret (Some v, CArr xs (S i))
      | None => ret (None, c)
      end
  | CStr s =>
      match s with
      | EmptyString => ret (None, c)
      | String ch s' => ret (Some (VStr (String ch EmptyString)), CStr s')
      end
  | CGen g => r ← resume g; ret (r, c)
  end.

(** The body of a stage generator up to its first loop: the local variables
    are initialised from the closed-over sources. *)
Definition start (m : mode) (st : stage) : M frame :=
  match st with
  | StMap fn a => c ← loop_iterator m a; ret (GMap fn c)
  | StFilter predicate a => c ← loop_iterator m a; ret (GFilter predicate c)
  | StConcat a other => c ← loop_iterator m a; ret (GConcat1 m c other)
  | StFlat a => c ← iterator_of (mode_symbol m) a; ret (GFlat m [c])
  | StEnumerate a => c ← loop_iterator m a; ret (GEnumerate 0 c)
  | StZip a other =>
      ai ← iterator_of (mode_symbol m) a;
      bi ← iterator_of (mode_symbol m) other;
      ret (GZip ai bi)
  end.

(** The branch of [flat]'s loop taken for an element [v] that the top cursor
    produced: [Some c] when [v] is descended into through the new cursor [c],
    [None] when [v] is yielded. *)
Definition flat_classify (m : mode) (v : value) : M (option cursor) :=
  match m with
  | Sync =>
      b ← lift (isIterable v);
      if b : bool then c ← iterator_of SymIterator v; ret (Some c)
      else ret None
  | Async =>
      ab ← lift (isAsyncIterable v);
      if ab : bool then c ← iterator_of SymAsyncIterator v; ret (Some c)
      else
        b ← lift (isIterable v);
        if b : bool then c ← iterator_of SymIterator v; ret (Some c)
        else ret None
  end.

Definition finish (g : nat) : M (option value) :=
  write_gen g GDone;; ret None.

Definition yield (g : nat) (fr : frame) (v : value) : M (option value) :=
  write_gen g fr;; ret (Some v).

(** [g.next()] for the generator object at address [g]: run its body from
    the suspension point to the next [yield] ([Some v]) or to its end
    ([None]).  One unit of fuel is spent per loop iteration. *)
Fixpoint resume (fuel : nat) (g : nat) : M (option value) :=
  match fuel with
  | 0 => out_of_fuel
  | S fuel =>
      let next := next_with (resume fuel) in
      fr ← read_gen g;
      match fr with
      | GDone => ret None
      | GItems [] => finish g
      | GItems (x :: xs) => yield g (GItems xs) x
      | GStart m st =>
          fr' ← start m st; write_gen g fr';; resume fuel g
      | GMap fn c =>
          (* map: for (const x of a) { yield fn(x); } *)
          '(r, c') ← next c;
          match r with
          | None => finish g
          | Some x => y ← lift (fn x); yield g (GMap fn c') y
          end
      | GFilter predicate c =>
          (* filter: for (const x of a) { if (predicate(x)) { yield x; } } *)
          '(r, c') ← next c;
          match r with
          | None => finish g
          | Some x =>
              b ← lift (predicate x);
              if b : bool then yield g (GFilter predicate c') x
              else write_gen g (GFilter predicate c');; resume fuel g
          end
      | GConcat1 m c other =>
          (* concat: for (const x of a) { yield x; } and then the same
             loop over [other] *)
          '(r, c') ← next c;
          match r with
          | None =>
              c2 ← loop_iterator m other;
              write_gen g (GConcat2 c2);; resume fuel g
          | Some x => yield g (GConcat1 m c' other) x
          end
      | GConcat2 c =>
          '(r, c') ← next c;
          match r with
          | None => finish g
          | Some x => yield g (GConcat2 c') x
          end
      | GFlat m stack =>
          (* flat: while (stack.length > 0) { next = stack[top].next();
             if (next.done) stack.pop(); else if enumerable: stack.push(its
             cursor); else yield next.value; } *)
          match stack with
          | [] => finish g
          | top :: rest =>
              '(r, top') ← next top;
              match r with
              | None => write_gen g (GFlat m rest);; resume fuel g
              | Some v =>
                  d ← flat_classify m v;
                  match d with
                  | Some c => write_gen g (GFlat m (c :: top' :: rest));; resume fuel g
                  | None => yield g (GFlat m (top' :: rest)) v
                  end
              end
          end
      | GEnumerate i c =>
          (* enumerate: for (const x of a) { yield [i, x]; i += 1; } *)
          '(r, c') ← next c;
          match r with
          | None => finish g
          | Some x => yield g (GEnumerate (S i) c') (VArr [VNum (Z.of_nat i); x])
          end
      | GZip ai bi =>
          (* zip: [ai.next()] then [bi.next()], [Promise.all] of the two in
             the asynchronous class: both calls are made before either
             result is looked at; the loop ends when either is done *)
          '(ra, ai') ← next ai;
          '(rb, bi') ← next bi;
          match ra, rb with
          | Some x, Some y => yield g (GZip ai' bi') (VArr [x; y])
          | _, _ => finish g
          end
      end
  end.

Abbreviation next fuel := (next_with (resume fuel)).

(** [c.return()], which a [for] loop calls when it is left early.  Array and
    string iterators have no such method.  A generator suspended inside one
    of its own [for] loops leaves that loop early in turn. *)
Fixpoint close (fuel : nat) (c : cursor) : M unit :=
  match c with
  | CArr _ _ | CStr _ => ret tt
  | CGen g =>
      match fuel with
      | 0 => out_of_fuel
      | S fuel =>
          fr ← read_gen g;
          write_gen g GDone;;
          match fr with
          | GMap _ c' | GFilter _ c' | GConcat1 _ c' _ | GConcat2 c'
          | GEnumerate _ c' => close fuel c'
          | _ => ret tt
          end
      end
  end.

(** [for (const x of c) arr.push(x)] over a cursor already obtained. *)
Fixpoint collect (fuel : nat) (c : cursor) (arr : list value) : M (list value) :=
  match fuel with
  | 0 => out_of_fuel
  | S fuel =>
      '(r, c') ← next fuel c;
      match r with
      | None => ret arr
      | Some x => collect fuel c' (arr ++ [x])
      end
  end.

(** [Array.from(items)]: through the iterator when [items] has one, else as
    an array-like.  The values of this model that have a positive [length]
    (strings, arrays) have an iterator, so the array-like branch gives the
    empty array. *)
Definition Array_from (fuel : nat) (items : value) : M (list value) :=
  m ← lift (get items SymIterator);
  match m with
  | VUndefined | VNull => ret []
  | _ => c ← invoke m items; collect fuel c []
  end.

(** The loops of [all] and [any] over a cursor already obtained. *)
Fixpoint all_loop (fuel : nat) (predicate : value → res bool) (c : cursor) : M bool :=
  match fuel with
  | 0 => out_of_fuel
  | S fuel =>
      '(r, c') ← next fuel c;
      match r with
      | None => ret true
      | Some x =>
          b ← lift (predicate x);
          if negb b then close fuel c';; ret false
          else all_loop fuel predicate c'
      end
  end.

Fixpoint any_loop (fuel : nat) (predicate : value → res bool) (c : cursor) : M bool :=
  match fuel with
  | 0 => out_of_fuel
  | S fuel =>
      '(r, c') ← next fuel c;
      match r with
      | None => ret false
      | Some x =>
          b ← lift (predicate x);
          if b : bool then close fuel c';; ret true
          else any_loop fuel predicate c'
      end
  end.

(** The loop of [reduce] over a cursor already obtained. *)
Fixpoint reduce_loop (fuel : nat) (reducer : value → value → res value)
    (c : cursor) (current : value) : M value :=
  match fuel with
  | 0 => out_of_fuel
  | S fuel =>
      '(r, c') ← next fuel c;
      match r with
      | None => ret current
      | Some x =>
          current' ← lift (reducer current x);
          reduce_loop fuel reducer c' current'
      end
  end.

(** [arr.join(sep)]: the elements converted by the host's [String], which
    is the parameter [to_str], except that [undefined] and [null] give the
    empty string. *)
Definition array_join (to_str : value → string) (sep : string) (arr : list value)
    : string :=
  String.concat sep
    (List.map (λ v, match v with VUndefined | VNull => "" | _ => to_str v end) arr).


(** ** FluentIterable.ts *)

Module FluentIterable.

(** The wrapper object: its only field is [#input]. *)
Record t : Type := Wrap { input : value }.

Definition constructor (input : value) : M t :=
  b ← lift (isIterable input);
  if b : bool then ret (Wrap input)
  else if jstype_eqb (typeof input) TFunction then
    r ← call_value input; ret (Wrap r)
  else throw (TypeError "input is not an iterable").

(** [this[Symbol.iterator]()] *)
Definition iterator (this : t) : M cursor :=
  iterator_of SymIterator (input this).

Definition unwrap (this : t) : value := input this.

Definition toArray (fuel : nat) (this : t) : M (list value) :=
  Array_from fuel (input this).

(** Each transformation method creates a generator function object and
    hands it to the constructor. *)
Definition stage_wrapper (st : stage) : M t :=
  f ← alloc_fun (FnStage Sync st); constructor (VFun f).

Definition map (this : t) (fn : value → res value) : M t :=
  let a := input this in stage_wrapper (StMap fn a).

Definition filter (this : t) (predicate : value → res bool) : M t :=
  let a := input this in stage_wrapper (StFilter predicate a).

Definition where_ (this : t) (predicate : value → res bool) : M t :=
  filter this predicate.

Definition concat (this : t) (other : value) : M t :=
  let a := input this in stage_wrapper (StConcat a other).

Definition flat (this : t) : M t :=
  let a := input this in stage_wrapper (StFlat a).

Definition enumerate (this : t) : M t :=
  let a := input this in stage_wrapper (StEnumerate a).

Definition zip (this : t) (other : value) : M t :=
  let a := input this in stage_wrapper (StZip a other).

Definition forEach (this : t) (fn : value → res value) : M t :=
  map this fn.

Definition all (fuel : nat) (this : t) (predicate : value → res bool) : M bool :=
  c ← loop_iterator Sync (input this); all_loop fuel predicate c.

Definition every (fuel : nat) (this : t) (predicate : value → res bool) : M bool :=
  all fuel this predicate.

Definition any (fuel : nat) (this : t) (predicate : value → res bool) : M bool :=
  c ← loop_iterator Sync (input this); any_loop fuel predicate c.

Definition some (fuel : nat) (this : t) (predicate : value → res bool) : M bool :=
  any fuel this predicate.

Definition join (to_str : value → string) (fuel : nat) (this : t)
    (sep : option string) : M string :=
  let sep := default "," sep in
  w ← map this (λ x, Val (VStr (to_str x)));
  arr ← toArray fuel w;
  ret (array_join to_str sep arr).

Definition reduce (fuel : nat) (this : t) (reducer : value → value → res value)
    (initial : value) : M value :=
  c ← loop_iterator Sync (input this); reduce_loop fuel reducer c initial.




End FluentIterable.

(** ** FluentAsyncIterable.ts

    An [await] is where the asynchronous code may be suspended; what it
    evaluates to is what the awaited call returns, so the embedding runs the
    awaited call in place. *)

Module FluentAsyncIterable.

Record t : Type := Wrap { input : value }.

Definition constructor (input : value) : M t :=
  b ← lift (isAsyncIterable input);
  if b : bool then ret (Wrap input)
  else if jstype_eqb (typeof input) TFunction then
    r ← call_value input; ret (Wrap r)
  else throw (TypeError "input is not an async iterable").

(** [this[Symbol.asyncIterator]()] *)
Definition asyncIterator (this : t) : M cursor :=
  iterator_of SymAsyncIterator (input this).

Definition unwrap (this : t) : value := input this.

Definition toArray (fuel : nat) (this : t) : M (list value) :=
  c ← loop_iterator Async (input this); collect fuel c [].

Definition stage_wrapper (st : stage) : M t :=
  f ← alloc_fun (FnStage Async st); constructor (VFun f).

Definition map (this : t) (fn : value → res value) : M t :=
  let a := input this in stage_wrapper (StMap fn a).

Definition filter (this : t) (predicate : value → res bool) : M t :=
  let a := input this in stage_wrapper (StFilter predicate a).

Definition where_ (this : t) (predicate : value → res bool) : M t :=
  filter this predicate.

Definition forEach (this : t) (fn : value → res value) : M t :=
  map this fn.

Definition concat (this : t) (other : value) : M t :=
  let a := input this in stage_wrapper (StConcat a other).

Definition flat (this : t) : M t :=
  let a := input this in stage_wrapper (StFlat a).

Definition enumerate (this : t) : M t :=
  let a := input this in stage_wrapper (StEnumerate a).

Definition zip (this : t) (other : value) : M t :=
  let a := input this in stage_wrapper (StZip a other).

Definition all (fuel : nat) (this : t) (predicate : value → res bool) : M bool :=
  c ← loop_iterator Async (input this); all_loop fuel predicate c.

Definition every (fuel : nat) (this : t) (predicate : value → res bool) : M bool :=
  all fuel this predicate.

Definition any (fuel : nat) (this : t) (predicate : value → res bool) : M bool :=
  c ← loop_iterator Async (input this); any_loop fuel predicate c.

Definition some (fuel : nat) (this : t) (predicate : value → res bool) : M bool :=
  any fuel this predicate.

Definition join (to_str : value → string) (fuel : nat) (this : t)
    (sep : option string) : M string :=
  let sep := default "," sep in
  w ← map this (λ x, Val (VStr (to_str x)));
  arr ← toArray fuel w;
  ret (array_join to_str sep arr).

Definition reduce (fuel : nat) (this : t) (reducer : value → value → res value)
    (initial : value) : M value :=
  c ← loop_iterator Async (input this); reduce_loop fuel reducer c initial.

End FluentAsyncIterable.


(** * Vocabulary of the properties *)

(** The one-character strings that the iterator of a string produces. *)
Definition chars (s : string) : list value :=
  (λ ch, VStr (String ch EmptyString)) <$> list_ascii_of_string s.

(** [feeds h c xs]: in heap [h] the cursor [c] will produce exactly [xs] and
    then end.  Arrays, strings and the generator objects of user generator
    functions are such sources. *)
Inductive feeds (h : heap) : cursor → list value → Prop :=
  | feeds_array xs i : feeds h (CArr xs i) (drop i xs)
  | feeds_string s : feeds h (CStr s) (chars s)
  | feeds_items g xs : gens h !! g = Some (GItems xs) → feeds h (CGen g) xs
  | feeds_done g : gens h !! g = Some GDone → feeds h (CGen g) [].

(** The generator object behind a cursor, if any. *)
Definition owner (c : cursor) : option nat :=
  match c with
  | CGen g => Some g
  | _ => None
  end.

(** [h'] differs from [h] at most in the generator object [o]. *)
Definition agree_off (o : option nat) (h h' : heap) : Prop :=
  funs h' = funs h ∧ calls h' = calls h ∧
  ∀ g, o ≠ Some g → gens h' !! g = gens h !! g.

(** The two conditions that the specification of the classifier speaks of. *)
Definition nullish (x : value) : bool :=
  match x with
  | VUndefined | VNull => true
  | _ => false
  end.

(** [x] exposes a callable member under the symbol [k]. *)
Definition callable_member (k : symbol) (x : value) : bool :=
  match get x k with
  | Val m => jstype_eqb (typeof m) TFunction
  | Err _ => false
  end.

(** Every transformation method. *)
Inductive transformation : Type :=
  | TMap (fn : value → res value)
  | TFilter (predicate : value → res bool)
  | TConcat (other : value)
  | TFlat
  | TEnumerate
  | TZip (other : value).

(** What the generator function of a transformation closes over, and the
    method of each class that the transformation names. *)
Definition stage_of (a : value) (tr : transformation) : stage :=
  match tr with
  | TMap fn => StMap fn a
  | TFilter predicate => StFilter predicate a
  | TConcat other => StConcat a other
  | TFlat => StFlat a
  | TEnumerate => StEnumerate a
  | TZip other => StZip a other
  end.

Definition sync_transform (this : FluentIterable.t) (tr : transformation)
    : M FluentIterable.t :=
  match tr with
  | TMap fn => FluentIterable.map this fn
  | TFilter predicate => FluentIterable.filter this predicate
  | TConcat other => FluentIterable.concat this other
  | TFlat => FluentIterable.flat this
  | TEnumerate => FluentIterable.enumerate this
  | TZip other => FluentIterable.zip this other
  end.

Definition async_transform (this : FluentAsyncIterable.t) (tr : transformation)
    : M FluentAsyncIterable.t :=
  match tr with
  | TMap fn => FluentAsyncIterable.map this fn
  | TFilter predicate => FluentAsyncIterable.filter this predicate
  | TConcat other => FluentAsyncIterable.concat this other
  | TFlat => FluentAsyncIterable.flat this
  | TEnumerate => FluentAsyncIterable.enumerate this
  | TZip other => FluentAsyncIterable.zip this other
  end.

(** The heap after a stage wrapper has been made: one new function object,
    called once, and the generator object that the call returned. *)
Definition staged (m : mode) (st : stage) (h : heap) : heap :=
  let f := fresh (dom (funs h)) in
  Heap (<[f := FnStage m st]> (funs h))
       (<[fresh (dom (gens h)) := GStart m st]> (gens h))
       (calls h ++ [f]).

(** Sample data. *)
Definition num (z : Z) : value := VNum z.

Definition double (v : value) : res value :=
  match v with
  | VNum z => Val (VNum (2 * z))
  | _ => Val v
  end.

(** [new FluentIterable([1, 2, 7]).map(double)], traversed twice. *)
Definition map_twice : M (list value * list value) :=
  w0 ← FluentIterable.constructor (VArr [num 1; num 2; num 7]);
  w ← sync_transform w0 (TMap double);
  r1 ← FluentIterable.toArray 8 w;
  r2 ← FluentIterable.toArray 8 w;
  ret (r1, r2).

(** A heap with one function object, at address 0. *)
Definition heap_with (cl : closure) : heap := Heap {[0 := cl]} ∅ [].

(** A predicate that throws on what is not a number. *)
Definition below_five (v : value) : res bool :=
  match v with
  | VNum z => Val (z <? 5)%Z
  | _ => Err (TypeError "not a number")
  end.

Definition above_five (v : value) : res bool :=
  match v with
  | VNum z => Val (5 <? z)%Z
  | _ => Err (TypeError "not a number")
  end.

(** [gen_yields g n h out h']: from heap [h], successive calls of [g.next()]
    yield the elements of [out] and then end, leaving heap [h']; [n] units
    of fuel are enough for each call. *)
Inductive gen_yields (g n : nat) : heap → list value → heap → Prop :=
  | gen_yields_end h h' :
      (∀ fuel, n ≤ fuel → resume fuel g h = Ok None h') →
      gen_yields g n h [] h'
  | gen_yields_step h x h1 out h' :
      (∀ fuel, n ≤ fuel → resume fuel g h = Ok (Some x) h1) →
      gen_yields g n h1 out h' →
      gen_yields g n h (x :: out) h'.

(** The pairs [[a, b]] that [zip] is specified to yield. *)
Definition pairs (xs ys : list value) : list value :=
  (λ p, VArr [p.1; p.2]) <$> zip xs ys.

(** The answer of a classifier. *)
Definition holds (r : res bool) : bool :=
  match r with
  | Val b => b
  | Err _ => false
  end.

(** What [flat] yields rather than descends into: a value that the
    classifier of the variant rejects. *)
Definition flat_leaf (m : mode) (v : value) : bool :=
  match m with
  | Sync => negb (holds (isIterable v))
  | Async => negb (holds (isAsyncIterable v)) && negb (holds (isIterable v))
  end.

(** Arrays nested to any finite depth, over leaves. *)
Fixpoint nested (m : mode) (v : value) : bool :=
  match v with
  | VArr ys => forallb (nested m) ys
  | _ => flat_leaf m v
  end.

(** The leaves of a nest of arrays, depth first, left to right. *)
Fixpoint leaves (v : value) : list value :=
  match v with
  | VArr ys => concat (List.map leaves ys)
  | _ => [v]
  end.

(** The number of loop iterations that [flat] spends on a value. *)
Fixpoint size (v : value) : nat :=
  match v with
  | VArr ys => 2 + list_sum (List.map size ys)
  | _ => 1
  end.

(** For a stack of cursors, top first, with what each has left to produce:
    the output still to come and the number of loop iterations still to
    run. *)
Definition pending (itemss : list (list value)) : list value :=
  concat (List.map (λ items, concat (List.map leaves items)) itemss).

Definition weight (itemss : list (list value)) : nat :=
  list_sum (List.map (λ items, 1 + list_sum (List.map size items)) itemss).

(** The stack of [flat] while it runs over nested arrays: cursors over
    arrays, on top of the cursor of the source. *)
Inductive flat_inv (h : heap) (g : nat) : list cursor → list (list value) → Prop :=
  | flat_inv_nil : flat_inv h g [] []
  | flat_inv_root c xs :
      feeds h c xs → owner c ≠ Some g → flat_inv h g [c] [xs]
  | flat_inv_push c xs rest itemss :
      feeds h c xs → owner c = None → flat_inv h g rest itemss →
      flat_inv h g (c :: rest) (xs :: itemss).

(** Every value that the cursors of a stack have left is a finite nest. *)
Abbreviation all_nested m itemss :=
  (Forall (Forall (λ v, nested m v = true)) itemss).

(** [[1, [2, [3, 4]], 7]] *)
Definition mixed_depths : list value :=
  [num 1; VArr [num 2; VArr [num 3; num 4]]; num 7].

(** A heap with one generator object, at address 0. *)
Definition heap_with_gen (fr : frame) : heap := Heap ∅ {[0 := fr]} [].

(** ** Pipelines *)

(** [h'] agrees with [h] on the generator objects of [F]; [h'] differs from
    [h] at most in the generator objects of [F]. *)
Definition same_on (F : gset nat) (h h' : heap) : Prop :=
  ∀ a, a ∈ F → gens h' !! a = gens h !! a.

Definition same_off (F : gset nat) (h h' : heap) : Prop :=
  funs h' = funs h ∧ calls h' = calls h ∧
  ∀ a, a ∉ F → gens h' !! a = gens h !! a.

(** [stream F xs h c]: from heap [h], and from any heap that agrees with it
    on [F], successive calls of [c.next()] produce the elements of [xs] and
    then signal the end, each with enough fuel, and touch no generator object
    outside [F]. *)
Fixpoint stream (F : gset nat) (xs : list value) (h : heap) (c : cursor) : Prop :=
  ∀ h0, same_on F h h0 →
    ∃ n c' h',
      (∀ fuel, n ≤ fuel → next fuel c h0 = Ok (head xs, c') h') ∧
      same_off F h0 h' ∧
      match xs with
      | [] => True
      | _ :: xs' => stream F xs' h' c'
      end.

(** The list functions that the transformations are compared with.  A
    callback that throws makes the whole result an error. *)
Fixpoint res_map (fn : value → res value) (xs : list value) : res (list value) :=
  match xs with
  | [] => Val []
  | x :: xs' =>
      res_bind (fn x) (λ y, res_bind (res_map fn xs') (λ ys, Val (y :: ys)))
  end.

Fixpoint res_filter (predicate : value → res bool) (xs : list value)
    : res (list value) :=
  match xs with
  | [] => Val []
  | x :: xs' =>
      res_bind (predicate x) (λ b,
        res_bind (res_filter predicate xs') (λ ys,
          Val (if b : bool then x :: ys else ys)))
  end.

Fixpoint res_fold (reducer : value → value → res value) (xs : list value)
    (current : value) : res value :=
  match xs with
  | [] => Val current
  | x :: xs' => res_bind (reducer current x) (res_fold reducer xs')
  end.

(** The pairs [[i, x]], [[i + 1, y]], ... *)
Fixpoint indexed (i : nat) (xs : list value) : list value :=
  match xs with
  | [] => []
  | x :: xs' => VArr [VNum (Z.of_nat i); x] :: indexed (S i) xs'
  end.

(** What one transformation makes of the elements [xs] of its source, for
    the transformations whose second sequence, if any, is an array and whose
    callbacks do not throw.  The asynchronous [zip] asks its second sequence
    for an asynchronous cursor, which an array does not have. *)
Definition eager (m : mode) (tr : transformation) (xs : list value)
    : option (list value) :=
  match tr with
  | TMap fn => match res_map fn xs with Val ys => Some ys | Err _ => None end
  | TFilter predicate =>
      match res_filter predicate xs with Val ys => Some ys | Err _ => None end
  | TConcat (VArr os) => Some (xs ++ os)
  | TEnumerate => Some (indexed 0 xs)
  | TZip (VArr os) => match m with Sync => Some (pairs xs os) | Async => None end
  | _ => None
  end.

Fixpoint eager_chain (m : mode) (trs : list transformation) (xs : list value)
    : option (list value) :=
  match trs with
  | [] => Some xs
  | tr :: trs' =>
      match eager m tr xs with
      | Some ys => eager_chain m trs' ys
      | None => None
      end
  end.

(** A chain of method calls [w.tr1(...).tr2(...)...]. *)
Fixpoint sync_chain (w : FluentIterable.t) (trs : list transformation)
    : M FluentIterable.t :=
  match trs with
  | [] => ret w
  | tr :: trs' => w' ← sync_transform w tr; sync_chain w' trs'
  end.

Fixpoint async_chain (w : FluentAsyncIterable.t) (trs : list transformation)
    : M FluentAsyncIterable.t :=
  match trs with
  | [] => ret w
  | tr :: trs' => w' ← async_transform w tr; async_chain w' trs'
  end.

(** The generator object that the generator function of each class makes. *)
Definition gen_value (m : mode) (g : nat) : value :=
  match m with
  | Sync => VGen g
  | Async => VAsyncGen g
  end.

(** The source of a wrapper in a chain: an array, at the root of a
    synchronous chain, or a generator object whose contents are known. *)
Inductive chain_source (m : mode) (h : heap) : value → list value → Prop :=
  | chain_source_array xs : m = Sync → chain_source m h (VArr xs) xs
  | chain_source_gen g F xs :
      stream F xs h (CGen g) → F ⊆ dom (gens h) →
      chain_source m h (gen_value m g) xs.

(** ** Sample callbacks and the relations of the later properties *)

Definition is_below_five (v : value) : bool :=
  match v with
  | VNum z => (z <? 5)%Z
  | _ => false
  end.

(** [(a, x) => a + x] on numbers. *)
Definition add (a x : value) : res value :=
  match a, x with
  | VNum m, VNum n => Val (VNum (m + n))
  | _, _ => Err (TypeError "not a number")
  end.

(** The host's [String] on strings, integers, booleans, [undefined] and
    [null]; the last case stands for the values that the sample does not
    use. *)
Definition show (v : value) : string :=
  match v with
  | VStr s => s
  | VNum z => NilZero.string_of_int (Z.to_int z)
  | VBool true => "true"
  | VBool false => "false"
  | VUndefined => "undefined"
  | VNull => "null"
  | _ => "[object Object]"
  end.

(** What [zip] leaves of a generator object of [n] elements when the other
    sequence has [k]. *)
Definition zip_rest (xs : list value) (k : nat) : frame :=
  if (length xs <=? k)%nat then GDone else GItems (drop (S k) xs).

(** [gen_throws g n h out e]: from heap [h], successive calls of [g.next()]
    yield the elements of [out] and then throw [e]; [n] units of fuel are
    enough for each call. *)
Inductive gen_throws (g n : nat) : heap → list value → error → Prop :=
  | gen_throws_now h e :
      (∀ fuel, n ≤ fuel → resume fuel g h = Throw e) →
      gen_throws g n h [] e
  | gen_throws_step h x h1 out e :
      (∀ fuel, n ≤ fuel → resume fuel g h = Ok (Some x) h1) →
      gen_throws g n h1 out e →
      gen_throws g n h (x :: out) e.

(** A callback that throws on what is not a number. *)
Definition double_number (v : value) : res value :=
  match v with
  | VNum z => Val (VNum (2 * z))
  | _ => Err (TypeError "not a number")
  end.

(** * Properties *)

(** ** Running monadic code *)

Lemma bind_ok {A B} (c : M A) (k : A → M B) h a h1 :
  c h = Ok a h1 → (c ≫= k) h = k a h1.
Proof. intros E. unfold mbind, M_bind, bind. by rewrite E. Qed.

Lemma bind_throw {A B} (c : M A) (k : A → M B) h e :
  c h = Throw e → (c ≫= k) h = Throw e.
Proof. intros E. unfold mbind, M_bind, bind. by rewrite E. Qed.

Lemma bind_inv {A B} (c : M A) (k : A → M B) h b h2 :
  (c ≫= k) h = Ok b h2 → ∃ a h1, c h = Ok a h1 ∧ k a h1 = Ok b h2.
Proof.
  unfold mbind, M_bind, bind. destruct (c h) as [a h1| |]; [eauto | done | done].
Qed.

Lemma lift_val {A B} (a : A) (k : A → M B) h : (lift (Val a) ≫= k) h = k a h.
Proof. done. Qed.

(** Unfold one layer of sequencing. *)
Ltac munfold :=
  unfold mbind, M_bind, bind, ret, throw, lift, out_of_fuel,
    finish, yield, read_gen, write_gen in *.

(** ** Sources whose contents are known *)

Lemma agree_off_refl o h : agree_off o h h.
Proof. by repeat split. Qed.

Lemma agree_off_trans o h1 h2 h3 :
  agree_off o h1 h2 → agree_off o h2 h3 → agree_off o h1 h3.
Proof.
  intros (F1 & C1 & G1) (F2 & C2 & G2). repeat split; [congruence.. |].
  intros g Hg. rewrite G2, G1; done.
Qed.

Lemma agree_off_write g fr h :
  agree_off (Some g) h (Heap (funs h) (<[g := fr]> (gens h)) (calls h)).
Proof.
  repeat split; simpl. intros g' Hg. rewrite lookup_insert_ne; [done | congruence].
Qed.

Lemma agree_off_none o h h' : agree_off None h h' → agree_off o h h'.
Proof. intros (F & C & G). repeat split; [done.. |]. intros g _. by apply G. Qed.

Lemma feeds_frame h h' c xs :
  feeds h c xs →
  (∀ g, owner c = Some g → gens h' !! g = gens h !! g) →
  feeds h' c xs.
Proof.
  intros Hf Hg. destruct Hf as [xs i|s|g xs E|g E].
  - constructor.
  - constructor.
  - apply feeds_items. by rewrite Hg.
  - apply feeds_done. by rewrite Hg.
Qed.

Lemma feeds_agree o h h' c xs :
  feeds h c xs → agree_off o h h' →
  (∀ g, owner c = Some g → o ≠ Some g) → feeds h' c xs.
Proof.
  intros Hf (_ & _ & G) Ho. eapply feeds_frame; [done |].
  intros g Hg. apply G. by apply Ho.
Qed.

Lemma drop_head_tail {A} (xs : list A) i :
  head (drop i xs) = xs !! i ∧ tail (drop i xs) = drop (S i) xs.
Proof.
  revert i. induction xs as [|x xs IH]; intros [|i]; simpl; done.
Qed.

(** One [next()] on a known source. *)
Lemma next_feeds h c xs :
  feeds h c xs →
  ∃ c' h', (∀ fuel, next (S fuel) c h = Ok (head xs, c') h') ∧
           feeds h' c' (tail xs) ∧ owner c' = owner c ∧
           agree_off (owner c) h h'.
Proof.
  intros Hf. destruct Hf as [xs i|s|g xs Hg|g Hg].
  - destruct (drop_head_tail xs i) as [Hh Ht]. rewrite Hh, Ht.
    destruct (xs !! i) as [v|] eqn:E.
    + exists (CArr xs (S i)), h. split_and!; [| constructor | done | apply agree_off_refl].
      intros fuel. simpl. by rewrite E.
    + exists (CArr xs i), h. split_and!; [| | done | apply agree_off_refl].
      * intros fuel. simpl. by rewrite E.
      * apply lookup_ge_None in E. rewrite drop_ge by lia.
        replace [] with (drop i xs) by (apply drop_ge; lia). constructor.
  - destruct s as [|ch s]; simpl.
    + exists (CStr ""), h.
      split_and!; [done | apply (feeds_string h "") | done | apply agree_off_refl].
    + exists (CStr s), h. split_and!; [done | apply feeds_string | done | apply agree_off_refl].
  - destruct xs as [|x xs]; simpl.
    + exists (CGen g), (Heap (funs h) (<[g := GDone]> (gens h)) (calls h)).
      split_and!; [| | done | apply agree_off_write].
      * intros fuel. simpl. munfold. by rewrite Hg.
      * apply feeds_done. simpl. apply lookup_insert_eq.
    + exists (CGen g), (Heap (funs h) (<[g := GItems xs]> (gens h)) (calls h)).
      split_and!; [| | done | apply agree_off_write].
      * intros fuel. simpl. munfold. by rewrite Hg.
      * apply feeds_items. simpl. apply lookup_insert_eq.
  - exists (CGen g), h. split_and!; [| by apply feeds_done | done | apply agree_off_refl].
    intros fuel. simpl. munfold. by rewrite Hg.
Qed.

(** ** The classifier *)

Lemma to_boolean_not_nullish x : to_boolean x = true → nullish x = false.
Proof. by destruct x. Qed.

Lemma has_method_spec k x :
  has_method k x = Val (to_boolean x && callable_member k x).
Proof.
  unfold has_method, callable_member.
  destruct (to_boolean x) eqn:E; [|done].
  destruct (get x k) eqn:G; [done |]. by destruct x.
Qed.

(** Only a string can be falsy and still expose an iterator method, and
    nothing falsy exposes an asynchronous one. *)
Lemma falsy_callable_sync x :
  nullish x = false → to_boolean x = false →
  callable_member SymIterator x = true → x = VStr "".
Proof.
  destruct x as [| |b|z|s|xs|it ait|f|b|g|g]; try done.
  intros _ E _. simpl in E. apply negb_false_iff in E.
  by apply String.eqb_eq in E as ->.
Qed.

Lemma falsy_callable_async x :
  to_boolean x = false → callable_member SymAsyncIterator x = false.
Proof. by destruct x. Qed.

(** C2, as the specification states it, fails for the empty string: it is
    neither null nor undefined and exposes a callable [Symbol.iterator], yet
    [isIterable] rejects it. *)
Lemma isIterable_empty_string_rejected :
  ¬ (isIterable (VStr "") = Val true ↔
     nullish (VStr "") = false ∧ callable_member SymIterator (VStr "") = true).
Proof. intros [_ H]. by specialize (H (conj eq_refl eq_refl)). Qed.

(** C2 (amended): neither classifier ever throws; [isIterable x] holds
    exactly when [Boolean(x)] holds and [x] exposes a callable
    [Symbol.iterator], that is, exactly when [x] is neither null nor
    undefined, exposes a callable [Symbol.iterator] and is not the empty
    string; [isAsyncIterable x] holds exactly when [x] is neither null nor
    undefined and exposes a callable [Symbol.asyncIterator], which is the
    same as [Boolean(x)] holding and [x] exposing this member. *)
Theorem classifier_contract (x : value) :
  (∃ b, isIterable x = Val b) ∧
  (∃ b, isAsyncIterable x = Val b) ∧
  (isIterable x = Val true ↔
     to_boolean x = true ∧ callable_member SymIterator x = true) ∧
  (isIterable x = Val true ↔
     nullish x = false ∧ callable_member SymIterator x = true ∧ x ≠ VStr "") ∧
  (isAsyncIterable x = Val true ↔
     nullish x = false ∧ callable_member SymAsyncIterator x = true) ∧
  (isAsyncIterable x = Val true ↔
     to_boolean x = true ∧ callable_member SymAsyncIterator x = true).
Proof.
  unfold isIterable, isAsyncIterable. rewrite !has_method_spec.
  split_and!; [eauto | eauto | | | |].
  - split; [intros [= H]; by apply andb_true_iff in H | intros [-> ->]; done].
  - split.
    + intros [= H]. apply andb_true_iff in H as [H1 H2].
      split_and!; [by apply to_boolean_not_nullish | done | by intros ->].
    + intros (H1 & H2 & H3). destruct (to_boolean x) eqn:E; [by rewrite H2 |].
      by destruct H3; apply falsy_callable_sync.
  - split.
    + intros [= H]. apply andb_true_iff in H as [H1 H2].
      split; [by apply to_boolean_not_nullish | done].
    + intros [H1 H2]. destruct (to_boolean x) eqn:E; [by rewrite H2 |].
      rewrite falsy_callable_async in H2; done.
  - split; [intros [= H]; by apply andb_true_iff in H | intros [-> ->]; done].
Qed.

(** ** The classifier on strings *)

Lemma isIterable_string s : isIterable (VStr s) = Val (negb (String.eqb s "")).
Proof.
  unfold isIterable. rewrite has_method_spec. simpl. by rewrite andb_true_r.
Qed.

Lemma flat_classify_string m s h :
  flat_classify m (VStr s) h =
  Ok (if String.eqb s "" then None else Some (CStr s)) h.
Proof.
  destruct m; unfold flat_classify.
  - rewrite isIterable_string. destruct (String.eqb s ""); done.
  - replace (isAsyncIterable (VStr s)) with (Val (A:=bool) false)
      by (unfold isAsyncIterable; rewrite has_method_spec; simpl;
          by rewrite andb_false_r).
    rewrite lift_val, isIterable_string. destruct (String.eqb s ""); done.
Qed.

(** ** A generator object that has ended stays ended *)

(** Invert a successful run, one step of sequencing or one case
    distinction at a time. *)
Lemma finish_done g h r h' :
  finish g h = Ok r h' → r = None ∧ gens h' !! g = Some GDone.
Proof.
  unfold finish. munfold. intros [= <- <-]. split; [done |]. apply lookup_insert_eq.
Qed.

Lemma yield_inv g fr v h r h' :
  yield g fr v h = Ok r h' →
  r = Some v ∧ h' = Heap (funs h) (<[g := fr]> (gens h)) (calls h).
Proof. unfold yield. munfold. by intros [= <- <-]. Qed.

Lemma read_gen_inv g h fr h' :
  read_gen g h = Ok fr h' → h' = h ∧ gens h !! g = Some fr.
Proof.
  unfold read_gen. destruct (gens h !! g); [|done]. by intros [= <- <-].
Qed.

Ltac minv H :=
  repeat first
    [ match type of H with
      | finish _ _ = Ok _ _ => apply finish_done in H as [? ?]
      | yield _ _ _ _ = Ok _ _ => apply yield_inv in H as [? ?]
      | ret _ _ = Ok _ _ => cbv beta delta [ret] in H; injection H; clear H; intros
      | write_gen _ _ _ = Ok _ _ => cbv beta delta [write_gen] in H; injection H; clear H; intros
      | throw _ _ = Ok _ _ => discriminate H
      | out_of_fuel _ = Ok _ _ => discriminate H
      end
    | apply bind_inv in H as (? & ? & ? & H)
    | match type of H with
      | context [match ?x with _ => _ end] => destruct x eqn:?
      end ].

Lemma resume_none_done fuel g h h' :
  resume fuel g h = Ok None h' → gens h' !! g = Some GDone.
Proof.
  revert h h'. induction fuel as [|fuel IH]; intros h h' H; [done |].
  simpl in H. apply bind_inv in H as (fr & h1 & Hr & H).
  apply read_gen_inv in Hr as [-> Hfr].
  destruct fr.
  all: minv H; simplify_eq; try done; try (by eapply IH).
Qed.

Lemma collect_done fuel g arr h out h' :
  collect fuel (CGen g) arr h = Ok out h' → gens h' !! g = Some GDone.
Proof.
  revert arr h. induction fuel as [|fuel IH]; intros arr h H; [done |].
  simpl in H. apply bind_inv in H as ([r c'] & h1 & Hn & H).
  apply bind_inv in Hn as (r' & h1' & Hr & Hn).
  cbv beta delta [ret] in Hn. injection Hn as -> <- ->.
  destruct r as [x|].
  - by eapply IH.
  - cbv beta delta [ret] in H. injection H as _ <-. by eapply resume_none_done.
Qed.

(** Traversing a generator object that has ended. *)
Lemma collect_ended fuel g h :
  gens h !! g = Some GDone → 2 ≤ fuel → collect fuel (CGen g) [] h = Ok [] h.
Proof.
  intros Hg Hf. destruct fuel as [|[|fuel]]; [lia | lia |].
  simpl. munfold. by rewrite Hg.
Qed.

Lemma sync_stage_wrapper st h :
  FluentIterable.stage_wrapper st h =
  Ok (FluentIterable.Wrap (VGen (fresh (dom (gens h))))) (staged Sync st h).
Proof.
  unfold FluentIterable.stage_wrapper, FluentIterable.constructor, alloc_fun.
  munfold. simpl. unfold call. simpl. by rewrite lookup_insert_eq.
Qed.

Lemma async_stage_wrapper st h :
  FluentAsyncIterable.stage_wrapper st h =
  Ok (FluentAsyncIterable.Wrap (VAsyncGen (fresh (dom (gens h))))) (staged Async st h).
Proof.
  unfold FluentAsyncIterable.stage_wrapper, FluentAsyncIterable.constructor, alloc_fun.
  munfold. simpl. unfold call. simpl. by rewrite lookup_insert_eq.
Qed.

Lemma sync_transform_spec this tr h :
  sync_transform this tr h =
  Ok (FluentIterable.Wrap (VGen (fresh (dom (gens h)))))
     (staged Sync (stage_of (FluentIterable.input this) tr) h).
Proof. destruct tr; apply sync_stage_wrapper. Qed.

Lemma async_transform_spec this tr h :
  async_transform this tr h =
  Ok (FluentAsyncIterable.Wrap (VAsyncGen (fresh (dom (gens h)))))
     (staged Async (stage_of (FluentAsyncIterable.input this) tr) h).
Proof. destruct tr; apply async_stage_wrapper. Qed.

Lemma sync_toArray_gen fuel g h :
  FluentIterable.toArray fuel (FluentIterable.Wrap (VGen g)) h = collect fuel (CGen g) [] h.
Proof. done. Qed.

Lemma async_toArray_gen fuel g h :
  FluentAsyncIterable.toArray fuel (FluentAsyncIterable.Wrap (VAsyncGen g)) h
  = collect fuel (CGen g) [] h.
Proof. done. Qed.

(** C9: the wrapper that a transformation method returns holds a generator
    object, obtained by calling the stage's generator function once in the
    constructor; once a traversal of the wrapper has run to its end, any
    further traversal yields the empty sequence (both variants). *)
Theorem stage_wrapper_single_pass (tr : transformation) (h : heap) :
  (∀ this w h1,
     sync_transform this tr h = Ok w h1 →
     (∃ g, w = FluentIterable.Wrap (VGen g) ∧
           gens h1 !! g = Some (GStart Sync (stage_of (FluentIterable.input this) tr)) ∧
           ∃ f, calls h1 = calls h ++ [f] ∧
                funs h1 !! f
                = Some (FnStage Sync (stage_of (FluentIterable.input this) tr))) ∧
     ∀ fuel1 h' out h2 fuel2,
       FluentIterable.toArray fuel1 w h' = Ok out h2 → 2 ≤ fuel2 →
       FluentIterable.toArray fuel2 w h2 = Ok [] h2) ∧
  (∀ this w h1,
     async_transform this tr h = Ok w h1 →
     (∃ g, w = FluentAsyncIterable.Wrap (VAsyncGen g) ∧
           gens h1 !! g = Some (GStart Async (stage_of (FluentAsyncIterable.input this) tr)) ∧
           ∃ f, calls h1 = calls h ++ [f] ∧
                funs h1 !! f
                = Some (FnStage Async (stage_of (FluentAsyncIterable.input this) tr))) ∧
     ∀ fuel1 h' out h2 fuel2,
       FluentAsyncIterable.toArray fuel1 w h' = Ok out h2 → 2 ≤ fuel2 →
       FluentAsyncIterable.toArray fuel2 w h2 = Ok [] h2).
Proof.
  split; intros this w h1 H.
  - rewrite sync_transform_spec in H. injection H as <- <-. split.
    + eexists. split_and!; [done | apply lookup_insert_eq |].
      eexists. split; [done | apply lookup_insert_eq].
    + intros fuel1 h' out h2 fuel2 H1 Hf. rewrite sync_toArray_gen in *.
      apply collect_ended; [by eapply collect_done | done].
  - rewrite async_transform_spec in H. injection H as <- <-. split.
    + eexists. split_and!; [done | apply lookup_insert_eq |].
      eexists. split; [done | apply lookup_insert_eq].
    + intros fuel1 h' out h2 fuel2 H1 Hf. rewrite async_toArray_gen in *.
      apply collect_ended; [by eapply collect_done | done].
Qed.

Lemma stage_wrapper_single_pass_witness :
  ∃ h2, map_twice empty_heap = Ok ([num 2; num 4; num 14], []) h2.
Proof.
  pose (this := FluentIterable.Wrap (VArr [num 1; num 2; num 7])).
  destruct (sync_transform this (TMap double) empty_heap) as [w h1| |] eqn:E;
    [| by vm_compute in E..].
  destruct (proj1 (stage_wrapper_single_pass (TMap double) empty_heap) this w h1 E)
    as [_ Hsecond].
  destruct (FluentIterable.toArray 8 w h1) as [out h2| |] eqn:E1.
  - exists h2. unfold map_twice.
    erewrite bind_ok by (vm_compute; reflexivity).
    fold this. erewrite bind_ok by exact E.
    erewrite bind_ok by exact E1.
    erewrite bind_ok by (by eapply (Hsecond 8 h1 out h2 8); [exact E1 | lia]).
    vm_compute in E. injection E as <- <-. vm_compute in E1. by injection E1 as <- <-.
  - vm_compute in E. injection E as <- <-. by vm_compute in E1.
  - vm_compute in E. injection E as <- <-. by vm_compute in E1.
Defined.

(** ** Traversing a known source *)

Lemma collect_feeds h c xs :
  feeds h c xs →
  ∃ h', (∀ fuel arr, length xs + 1 < fuel → collect fuel c arr h = Ok (arr ++ xs) h') ∧
        agree_off (owner c) h h'.
Proof.
  revert c h. induction xs as [|x xs IH]; intros c h Hf.
  - destruct (next_feeds h c [] Hf) as (c' & h' & Hn & _ & _ & Ha).
    exists h'. split; [|done]. intros fuel arr Hlt.
    destruct fuel as [|fuel]; [simpl in Hlt; lia |]. cbn [collect].
    destruct fuel as [|fuel]; [simpl in Hlt; lia |].
    erewrite bind_ok by apply Hn. cbn [head]. cbv beta iota.
    by rewrite app_nil_r.
  - destruct (next_feeds h c (x :: xs) Hf) as (c' & h1 & Hn & Hf' & Ho & Ha).
    destruct (IH c' h1 Hf') as (h' & Hc & Ha'). rewrite Ho in Ha'.
    exists h'. split; [|by eapply agree_off_trans].
    intros fuel arr Hlt.
    destruct fuel as [|fuel]; [simpl in Hlt; lia |]. cbn [collect].
    destruct fuel as [|fuel]; [simpl in Hlt; lia |].
    erewrite bind_ok by apply Hn. cbn [head]. cbv beta iota.
    rewrite Hc by (simpl in Hlt; lia). by rewrite <- app_assoc.
Qed.

(** ** The constructors *)

Lemma function_not_iterable input :
  typeof input = TFunction →
  isIterable input = Val false ∧ isAsyncIterable input = Val false.
Proof. by destruct input. Qed.

Lemma call_logged f h r h' : call f h = Ok r h' → calls h' = calls h ++ [f].
Proof.
  unfold call. destruct (funs h !! f) as [[v|e|xs|xs|[] st]|]; try done.
  all: munfold; unfold alloc_gen; by intros [= <- <-].
Qed.

Lemma call_const f v h :
  funs h !! f = Some (FnConst v) →
  call f h = Ok v (Heap (funs h) (gens h) (calls h ++ [f])).
Proof. intros E. unfold call. by rewrite E. Qed.

Lemma call_generator f xs h :
  funs h !! f = Some (FnGenerator xs) →
  call f h = Ok (VGen (fresh (dom (gens h))))
               (Heap (funs h) (<[fresh (dom (gens h)) := GItems xs]> (gens h))
                     (calls h ++ [f])).
Proof. intros E. unfold call. by rewrite E. Qed.

Lemma call_async_generator f xs h :
  funs h !! f = Some (FnAsyncGenerator xs) →
  call f h = Ok (VAsyncGen (fresh (dom (gens h))))
               (Heap (funs h) (<[fresh (dom (gens h)) := GItems xs]> (gens h))
                     (calls h ++ [f])).
Proof. intros E. unfold call. by rewrite E. Qed.

Lemma sync_constructor_callable input h :
  typeof input = TFunction →
  FluentIterable.constructor input h = (r ← call_value input; ret (FluentIterable.Wrap r)) h.
Proof.
  intros Ht. unfold FluentIterable.constructor.
  destruct (function_not_iterable input Ht) as [-> _]. by rewrite lift_val, Ht.
Qed.

Lemma async_constructor_callable input h :
  typeof input = TFunction →
  FluentAsyncIterable.constructor input h =
  (r ← call_value input; ret (FluentAsyncIterable.Wrap r)) h.
Proof.
  intros Ht. unfold FluentAsyncIterable.constructor.
  destruct (function_not_iterable input Ht) as [_ ->]. by rewrite lift_val, Ht.
Qed.

Lemma jstype_eqb_false a : a ≠ TFunction → jstype_eqb a TFunction = false.
Proof. by destruct a. Qed.

(** A user generator function handed to the constructor, then two
    traversals. *)
Lemma sync_generator_function_twice f xs fuel h :
  funs h !! f = Some (FnGenerator xs) → length xs + 1 < fuel →
  ∃ h2,
    (w ← FluentIterable.constructor (VFun f);
     r1 ← FluentIterable.toArray fuel w;
     r2 ← FluentIterable.toArray fuel w;
     ret (r1, r2)) h = Ok (xs, []) h2 ∧
    calls h2 = calls h ++ [f].
Proof.
  intros Hf Hlt. set (g := fresh (dom (gens h))).
  set (h1 := Heap (funs h) (<[g := GItems xs]> (gens h)) (calls h ++ [f])).
  assert (feeds h1 (CGen g) xs) as Hfeeds by (apply feeds_items, lookup_insert_eq).
  destruct (collect_feeds _ _ _ Hfeeds) as (h2 & Hc & (_ & Hcalls & _)).
  exists h2. split; [|done].
  erewrite bind_ok; last first.
  { rewrite sync_constructor_callable by done.
    erewrite bind_ok by by apply call_generator. done. }
  fold g h1. erewrite bind_ok by (rewrite sync_toArray_gen; by apply Hc).
  erewrite bind_ok; [done |]. rewrite sync_toArray_gen. apply collect_ended; [|lia].
  eapply collect_done. by apply (Hc fuel []).
Qed.

Lemma async_generator_function_twice f xs fuel h :
  funs h !! f = Some (FnAsyncGenerator xs) → length xs + 1 < fuel →
  ∃ h2,
    (w ← FluentAsyncIterable.constructor (VFun f);
     r1 ← FluentAsyncIterable.toArray fuel w;
     r2 ← FluentAsyncIterable.toArray fuel w;
     ret (r1, r2)) h = Ok (xs, []) h2 ∧
    calls h2 = calls h ++ [f].
Proof.
  intros Hf Hlt. set (g := fresh (dom (gens h))).
  set (h1 := Heap (funs h) (<[g := GItems xs]> (gens h)) (calls h ++ [f])).
  assert (feeds h1 (CGen g) xs) as Hfeeds by (apply feeds_items, lookup_insert_eq).
  destruct (collect_feeds _ _ _ Hfeeds) as (h2 & Hc & (_ & Hcalls & _)).
  exists h2. split; [|done].
  erewrite bind_ok; last first.
  { rewrite async_constructor_callable by done.
    erewrite bind_ok by by apply call_async_generator. done. }
  fold g h1. erewrite bind_ok by (rewrite async_toArray_gen; by apply Hc).
  erewrite bind_ok; [done |]. rewrite async_toArray_gen. apply collect_ended; [|lia].
  eapply collect_done. by apply (Hc fuel []).
Qed.

(** C3, as the specification states it, fails in the message of the error:
    the two constructors raise their own messages. *)
Lemma constructor_error_message :
  FluentIterable.constructor (VNum 5) empty_heap
    ≠ Throw (TypeError "input is not an enumerable of the expected capability") ∧
  FluentAsyncIterable.constructor (VNum 5) empty_heap
    ≠ Throw (TypeError "input is not an enumerable of the expected capability").
Proof. by split. Qed.

(** C3 (amended): an input that the class's classifier accepts is stored as
    it is and nothing is called; otherwise a callable input is called, once,
    and what it returns is stored; otherwise the constructor throws a
    TypeError, with the message "input is not an iterable" for the
    synchronous class and "input is not an async iterable" for the
    asynchronous one.  Traversals work on what was stored: they do not call
    the supplier again. *)
Theorem constructor_classification (input : value) (h : heap) :
  (isIterable input = Val true →
     FluentIterable.constructor input h = Ok (FluentIterable.Wrap input) h) ∧
  (isIterable input = Val false → typeof input = TFunction →
     ∀ r h', call_value input h = Ok r h' →
       FluentIterable.constructor input h = Ok (FluentIterable.Wrap r) h' ∧
       ∀ f, input = VFun f → calls h' = calls h ++ [f]) ∧
  (isIterable input = Val false → typeof input ≠ TFunction →
     FluentIterable.constructor input h = Throw (TypeError "input is not an iterable")) ∧
  (isAsyncIterable input = Val true →
     FluentAsyncIterable.constructor input h = Ok (FluentAsyncIterable.Wrap input) h) ∧
  (isAsyncIterable input = Val false → typeof input = TFunction →
     ∀ r h', call_value input h = Ok r h' →
       FluentAsyncIterable.constructor input h = Ok (FluentAsyncIterable.Wrap r) h' ∧
       ∀ f, input = VFun f → calls h' = calls h ++ [f]) ∧
  (isAsyncIterable input = Val false → typeof input ≠ TFunction →
     FluentAsyncIterable.constructor input h
     = Throw (TypeError "input is not an async iterable")) ∧
  (∀ f xs fuel,
     input = VFun f → funs h !! f = Some (FnGenerator xs) → length xs + 1 < fuel →
     ∃ h2,
       (w ← FluentIterable.constructor input;
        r1 ← FluentIterable.toArray fuel w;
        r2 ← FluentIterable.toArray fuel w;
        ret (r1, r2)) h = Ok (xs, []) h2 ∧
       calls h2 = calls h ++ [f]) ∧
  (∀ f xs fuel,
     input = VFun f → funs h !! f = Some (FnAsyncGenerator xs) → length xs + 1 < fuel →
     ∃ h2,
       (w ← FluentAsyncIterable.constructor input;
        r1 ← FluentAsyncIterable.toArray fuel w;
        r2 ← FluentAsyncIterable.toArray fuel w;
        ret (r1, r2)) h = Ok (xs, []) h2 ∧
       calls h2 = calls h ++ [f]).
Proof.
  split_and!.
  - intros E. unfold FluentIterable.constructor. by rewrite E.
  - intros _ Ht r h' Hc. rewrite sync_constructor_callable by done.
    erewrite bind_ok by exact Hc. split; [done |].
    intros f ->. by apply call_logged in Hc.
  - intros E Ht. unfold FluentIterable.constructor. rewrite E, lift_val.
    by rewrite jstype_eqb_false.
  - intros E. unfold FluentAsyncIterable.constructor. by rewrite E.
  - intros _ Ht r h' Hc. rewrite async_constructor_callable by done.
    erewrite bind_ok by exact Hc. split; [done |].
    intros f ->. by apply call_logged in Hc.
  - intros E Ht. unfold FluentAsyncIterable.constructor. rewrite E, lift_val.
    by rewrite jstype_eqb_false.
  - intros f xs fuel -> Hf Hlt. by apply sync_generator_function_twice.
  - intros f xs fuel -> Hf Hlt. by apply async_generator_function_twice.
Qed.

Lemma constructor_classification_witness :
  FluentIterable.constructor (VArr [num 1]) empty_heap
    = Ok (FluentIterable.Wrap (VArr [num 1])) empty_heap ∧
  FluentIterable.constructor (VNum 5) empty_heap = Throw (TypeError "input is not an iterable") ∧
  FluentAsyncIterable.constructor (VArr [num 1]) empty_heap
    = Throw (TypeError "input is not an async iterable") ∧
  ∃ h2,
    (w ← FluentIterable.constructor (VFun 0);
     r1 ← FluentIterable.toArray 5 w;
     r2 ← FluentIterable.toArray 5 w;
     ret (r1, r2)) (heap_with (FnGenerator [num 1; num 2; num 7]))
      = Ok ([num 1; num 2; num 7], []) h2 ∧
    calls h2 = [0].
Proof.
  split_and!.
  - by apply (proj1 (constructor_classification (VArr [num 1]) empty_heap)).
  - by apply (proj1 (proj2 (proj2 (constructor_classification (VNum 5) empty_heap)))).
  - by apply (constructor_classification (VArr [num 1]) empty_heap).
  - destruct (constructor_classification (VFun 0)
                (heap_with (FnGenerator [num 1; num 2; num 7])))
      as (_ & _ & _ & _ & _ & _ & H & _).
    apply (H 0 [num 1; num 2; num 7] 5);
      [reflexivity | vm_compute; reflexivity | simpl; lia].
Defined.

(** ** Traversing what is not iterable *)

Lemma invoke_not_callable m this h :
  jstype_eqb (typeof m) TFunction = false →
  ∃ msg, invoke m this h = Throw (TypeError msg).
Proof. destruct m; try done; simpl; eauto. Qed.

Lemma iterator_of_not_callable k r h :
  callable_member k r = false → ∃ msg, iterator_of k r h = Throw (TypeError msg).
Proof.
  unfold callable_member, iterator_of. destruct (get r k) as [m|[msg]] eqn:G.
  - intros Hm. rewrite lift_val. by apply invoke_not_callable.
  - intros _. exists msg. done.
Qed.

Lemma loop_iterator_not_callable m r h :
  callable_member SymIterator r = false →
  callable_member (mode_symbol m) r = false →
  ∃ msg, loop_iterator m r h = Throw (TypeError msg).
Proof.
  intros Hs Hm. destruct m; simpl; [by apply iterator_of_not_callable |].
  unfold callable_member in Hm. simpl in Hm.
  destruct (get r SymAsyncIterator) as [am|[msg]] eqn:G; [|by exists msg].
  rewrite lift_val.
  destruct am; try done; try (by apply iterator_of_not_callable); simpl; eauto.
Qed.

(** C10: when the input of a constructor is callable, whatever value the
    call returns is stored and construction succeeds; nothing is checked.  If
    that value has no iterator method, the TypeError is raised when a
    traversal asks for a cursor. *)
Theorem supplier_result_unchecked (input r : value) (h h' : heap) :
  typeof input = TFunction →
  call_value input h = Ok r h' →
  FluentIterable.constructor input h = Ok (FluentIterable.Wrap r) h' ∧
  FluentAsyncIterable.constructor input h = Ok (FluentAsyncIterable.Wrap r) h' ∧
  (callable_member SymIterator r = false →
     (∃ msg, FluentIterable.iterator (FluentIterable.Wrap r) h' = Throw (TypeError msg)) ∧
     (∀ fuel p, ∃ msg,
        FluentIterable.all fuel (FluentIterable.Wrap r) p h' = Throw (TypeError msg)) ∧
     (∀ fuel p, ∃ msg,
        FluentIterable.any fuel (FluentIterable.Wrap r) p h' = Throw (TypeError msg))) ∧
  (callable_member SymIterator r = false →
   callable_member SymAsyncIterator r = false →
     (∀ fuel, ∃ msg,
        FluentAsyncIterable.toArray fuel (FluentAsyncIterable.Wrap r) h'
        = Throw (TypeError msg)) ∧
     (∀ fuel p, ∃ msg,
        FluentAsyncIterable.all fuel (FluentAsyncIterable.Wrap r) p h'
        = Throw (TypeError msg)) ∧
     (∀ fuel p, ∃ msg,
        FluentAsyncIterable.any fuel (FluentAsyncIterable.Wrap r) p h'
        = Throw (TypeError msg))).
Proof.
  intros Ht Hc. split_and!.
  - rewrite sync_constructor_callable by done. by erewrite bind_ok.
  - rewrite async_constructor_callable by done. by erewrite bind_ok.
  - intros Hs. destruct (iterator_of_not_callable _ _ h' Hs) as [msg E].
    split_and!; [by exists msg | |]; intros fuel p; exists msg.
    + unfold FluentIterable.all. simpl. by apply bind_throw.
    + unfold FluentIterable.any. simpl. by apply bind_throw.
  - intros Hs Ha.
    destruct (loop_iterator_not_callable Async _ h' Hs Ha) as [msg E].
    split_and!; [intros fuel | intros fuel p..]; exists msg; by apply bind_throw.
Qed.

Lemma supplier_result_unchecked_witness :
  FluentIterable.constructor (VFun 0) (heap_with (FnConst (VNum 5)))
    = Ok (FluentIterable.Wrap (VNum 5)) (Heap {[0 := FnConst (VNum 5)]} ∅ [0]) ∧
  ∃ msg, FluentIterable.all 9 (FluentIterable.Wrap (VNum 5)) (λ _, Val true)
           (Heap {[0 := FnConst (VNum 5)]} ∅ [0]) = Throw (TypeError msg).
Proof.
  destruct (supplier_result_unchecked (VFun 0) (VNum 5) (heap_with (FnConst (VNum 5)))
              (Heap {[0 := FnConst (VNum 5)]} ∅ [0]))
    as (H1 & _ & H2 & _); [reflexivity | vm_compute; reflexivity |].
  split; [exact H1 |]. by apply H2.
Defined.

(** The synchronous [toArray] goes through [Array.from], which takes a value
    without iterator method for an array-like: no error for such a value
    unless it is null or undefined. *)
Lemma sync_toArray_not_iterable fuel h :
  FluentIterable.toArray fuel (FluentIterable.Wrap (VNum 5)) h = Ok [] h.
Proof. done. Qed.

(** ** [toArray] of a fresh wrapper *)

Lemma agree_off_none_eq h h' : agree_off None h h' → h' = h.
Proof.
  intros (F & C & G). destruct h as [f g c], h' as [f' g' c']. simpl in *.
  f_equal; [done | | done]. apply map_eq. intros i. by apply G.
Qed.

Lemma collect_array xs fuel h :
  length xs + 1 < fuel → collect fuel (CArr xs 0) [] h = Ok xs h.
Proof.
  intros Hlt. destruct (collect_feeds h (CArr xs 0) _ (feeds_array h xs 0)) as (h' & Hc & Ha).
  rewrite drop_0 in Hc. rewrite (Hc fuel []) by done.
  by rewrite (agree_off_none_eq _ _ Ha).
Qed.

Lemma collect_items g xs fuel h :
  gens h !! g = Some (GItems xs) → length xs + 1 < fuel →
  ∃ h', collect fuel (CGen g) [] h = Ok xs h' ∧ agree_off (Some g) h h'.
Proof.
  intros Hg Hlt.
  destruct (collect_feeds h (CGen g) xs (feeds_items h g xs Hg)) as (h' & Hc & Ha).
  exists h'. split; [by apply (Hc fuel []) | done].
Qed.

(** C7: wrapping a finite sequence and materialising the wrapper gives back
    the elements of the sequence, in order.  The sequence is an array, a
    generator object or a generator function for the synchronous class; an
    asynchronous generator object or generator function, or a function that
    returns an array, for the asynchronous class. *)
Theorem wrap_toArray_identity (xs : list value) (h : heap) (fuel : nat) :
  length xs + 1 < fuel →
  (w ← FluentIterable.constructor (VArr xs); FluentIterable.toArray fuel w) h = Ok xs h ∧
  (∀ g, gens h !! g = Some (GItems xs) →
     ∃ h', (w ← FluentIterable.constructor (VGen g);
            FluentIterable.toArray fuel w) h = Ok xs h') ∧
  (∀ f, funs h !! f = Some (FnGenerator xs) →
     ∃ h', (w ← FluentIterable.constructor (VFun f);
            FluentIterable.toArray fuel w) h = Ok xs h') ∧
  (∀ g, gens h !! g = Some (GItems xs) →
     ∃ h', (w ← FluentAsyncIterable.constructor (VAsyncGen g);
            FluentAsyncIterable.toArray fuel w) h = Ok xs h') ∧
  (∀ f, funs h !! f = Some (FnAsyncGenerator xs) →
     ∃ h', (w ← FluentAsyncIterable.constructor (VFun f);
            FluentAsyncIterable.toArray fuel w) h = Ok xs h') ∧
  (∀ f, funs h !! f = Some (FnConst (VArr xs)) →
     ∃ h', (w ← FluentAsyncIterable.constructor (VFun f);
            FluentAsyncIterable.toArray fuel w) h = Ok xs h').
Proof.
  intros Hlt. split_and!.
  - erewrite bind_ok by reflexivity. by apply collect_array.
  - intros g Hg. destruct (collect_items g xs fuel h Hg Hlt) as (h' & Hc & _).
    exists h'. by erewrite bind_ok by reflexivity.
  - intros f Hf. set (g := fresh (dom (gens h))).
    set (h1 := Heap (funs h) (<[g := GItems xs]> (gens h)) (calls h ++ [f])).
    destruct (collect_items g xs fuel h1) as (h' & Hc & _);
      [apply lookup_insert_eq | done |].
    exists h'. erewrite bind_ok; last first.
    { rewrite sync_constructor_callable by done.
      erewrite bind_ok by by apply call_generator. done. }
    exact Hc.
  - intros g Hg. destruct (collect_items g xs fuel h Hg Hlt) as (h' & Hc & _).
    exists h'. by erewrite bind_ok by reflexivity.
  - intros f Hf. set (g := fresh (dom (gens h))).
    set (h1 := Heap (funs h) (<[g := GItems xs]> (gens h)) (calls h ++ [f])).
    destruct (collect_items g xs fuel h1) as (h' & Hc & _);
      [apply lookup_insert_eq | done |].
    exists h'. erewrite bind_ok; last first.
    { rewrite async_constructor_callable by done.
      erewrite bind_ok by by apply call_async_generator. done. }
    exact Hc.
  - intros f Hf. eexists. erewrite bind_ok; last first.
    { rewrite async_constructor_callable by done.
      erewrite bind_ok by by apply call_const. done. }
    unfold FluentAsyncIterable.toArray. simpl.
    erewrite bind_ok by reflexivity. by apply collect_array.
Qed.

(** The two tests of the repository: a generator function and an
    asynchronous generator function that yield 1, 2 and 7. *)
Lemma wrap_toArray_identity_witness :
  (∃ h', (w ← FluentIterable.constructor (VFun 0); FluentIterable.toArray 5 w)
           (heap_with (FnGenerator [num 1; num 2; num 7]))
         = Ok [num 1; num 2; num 7] h') ∧
  (∃ h', (w ← FluentAsyncIterable.constructor (VFun 0); FluentAsyncIterable.toArray 5 w)
           (heap_with (FnAsyncGenerator [num 1; num 2; num 7]))
         = Ok [num 1; num 2; num 7] h').
Proof.
  split.
  - destruct (wrap_toArray_identity [num 1; num 2; num 7]
                (heap_with (FnGenerator [num 1; num 2; num 7])) 5)
      as (_ & _ & H & _); [simpl; lia |].
    apply (H 0). vm_compute; reflexivity.
  - destruct (wrap_toArray_identity [num 1; num 2; num 7]
                (heap_with (FnAsyncGenerator [num 1; num 2; num 7])) 5)
      as (_ & _ & _ & _ & H & _); [simpl; lia |].
    apply (H 0). vm_compute; reflexivity.
Defined.

(** The empty string has an iterator method, yet the synchronous
    constructor rejects it: [isIterable] tests [Boolean(x)]. *)
Lemma sync_constructor_empty_string h :
  FluentIterable.constructor (VStr "") h = Throw (TypeError "input is not an iterable").
Proof. done. Qed.

(** ** [all] and [any] *)

Lemma close_feeds h c xs :
  feeds h c xs →
  ∃ h', (∀ fuel, close (S fuel) c h = Ok tt h') ∧ agree_off (owner c) h h'.
Proof.
  intros Hf. destruct Hf as [ys i|s|g ys Hg|g Hg]; simpl.
  - exists h. split; [done | apply agree_off_refl].
  - exists h. split; [done | apply agree_off_refl].
  - eexists. split; [|apply (agree_off_write g GDone)].
    intros fuel. munfold. by rewrite Hg.
  - eexists. split; [|apply (agree_off_write g GDone)].
    intros fuel. munfold. by rewrite Hg.
Qed.

Lemma close_array xs i fuel h : close fuel (CArr xs i) h = Ok tt h.
Proof. by destruct fuel. Qed.

Section loops.
Context (predicate : value → res bool).

Lemma all_loop_true h c xs :
  feeds h c xs → (∀ x, x ∈ xs → predicate x = Val true) →
  ∃ h', (∀ fuel, length xs + 1 < fuel → all_loop fuel predicate c h = Ok true h') ∧
        agree_off (owner c) h h'.
Proof.
  revert c h. induction xs as [|x xs IH]; intros c h Hf Hp.
  - destruct (next_feeds h c [] Hf) as (c' & h' & Hn & _ & _ & Ha).
    exists h'. split; [|done]. intros fuel Hlt.
    destruct fuel as [|fuel]; [simpl in Hlt; lia |]. cbn [all_loop].
    destruct fuel as [|fuel]; [simpl in Hlt; lia |].
    by erewrite bind_ok by apply Hn.
  - destruct (next_feeds h c (x :: xs) Hf) as (c' & h1 & Hn & Hf' & Ho & Ha).
    destruct (IH c' h1 Hf') as (h' & Hc & Ha').
    { intros y Hy. apply Hp. by right. }
    rewrite Ho in Ha'. exists h'. split; [|by eapply agree_off_trans].
    intros fuel Hlt.
    destruct fuel as [|fuel]; [simpl in Hlt; lia |]. cbn [all_loop].
    destruct fuel as [|fuel]; [simpl in Hlt; lia |].
    erewrite bind_ok by apply Hn. cbn [head]. cbv beta iota.
    rewrite (Hp x) by by left. rewrite lift_val. cbn [negb].
    apply Hc. simpl in Hlt. lia.
Qed.

Lemma all_loop_false h c pre x post :
  feeds h c (pre ++ x :: post) →
  (∀ y, y ∈ pre → predicate y = Val true) → predicate x = Val false →
  ∃ h', (∀ fuel, length pre + 2 < fuel → all_loop fuel predicate c h = Ok false h') ∧
        agree_off (owner c) h h'.
Proof.
  revert c h. induction pre as [|y pre IH]; intros c h Hf Hp Hx.
  - destruct (next_feeds h c _ Hf) as (c' & h1 & Hn & Hf' & Ho & Ha).
    destruct (close_feeds _ _ _ Hf') as (h' & Hcl & Ha'). rewrite Ho in Ha'.
    exists h'. split.
    + intros fuel Hlt.
      destruct fuel as [|fuel]; [simpl in Hlt; lia |]. cbn [all_loop].
      destruct fuel as [|fuel]; [simpl in Hlt; lia |].
      cbn [app head tail] in Hn. erewrite bind_ok by apply Hn. cbv beta iota.
      rewrite Hx, lift_val. cbn [negb]. by erewrite bind_ok by apply Hcl.
    + by eapply agree_off_trans.
  - destruct (next_feeds h c _ Hf) as (c' & h1 & Hn & Hf' & Ho & Ha).
    destruct (IH c' h1 Hf') as (h' & Hc & Ha'); [|done|].
    { intros z Hz. apply Hp. by right. }
    rewrite Ho in Ha'. exists h'. split; [|by eapply agree_off_trans].
    intros fuel Hlt.
    destruct fuel as [|fuel]; [simpl in Hlt; lia |]. cbn [all_loop].
    destruct fuel as [|fuel]; [simpl in Hlt; lia |].
    cbn [app head tail] in Hn. erewrite bind_ok by apply Hn. cbv beta iota.
    rewrite (Hp y) by by left. rewrite lift_val. cbn [negb].
    apply Hc. simpl in Hlt. lia.
Qed.

Lemma any_loop_false h c xs :
  feeds h c xs → (∀ x, x ∈ xs → predicate x = Val false) →
  ∃ h', (∀ fuel, length xs + 1 < fuel → any_loop fuel predicate c h = Ok false h') ∧
        agree_off (owner c) h h'.
Proof.
  revert c h. induction xs as [|x xs IH]; intros c h Hf Hp.
  - destruct (next_feeds h c [] Hf) as (c' & h' & Hn & _ & _ & Ha).
    exists h'. split; [|done]. intros fuel Hlt.
    destruct fuel as [|fuel]; [simpl in Hlt; lia |]. cbn [any_loop].
    destruct fuel as [|fuel]; [simpl in Hlt; lia |].
    by erewrite bind_ok by apply Hn.
  - destruct (next_feeds h c (x :: xs) Hf) as (c' & h1 & Hn & Hf' & Ho & Ha).
    destruct (IH c' h1 Hf') as (h' & Hc & Ha').
    { intros y Hy. apply Hp. by right. }
    rewrite Ho in Ha'. exists h'. split; [|by eapply agree_off_trans].
    intros fuel Hlt.
    destruct fuel as [|fuel]; [simpl in Hlt; lia |]. cbn [any_loop].
    destruct fuel as [|fuel]; [simpl in Hlt; lia |].
    erewrite bind_ok by apply Hn. cbn [head]. cbv beta iota.
    rewrite (Hp x) by by left. rewrite lift_val.
    apply Hc. simpl in Hlt. lia.
Qed.

Lemma any_loop_true h c pre x post :
  feeds h c (pre ++ x :: post) →
  (∀ y, y ∈ pre → predicate y = Val false) → predicate x = Val true →
  ∃ h', (∀ fuel, length pre + 2 < fuel → any_loop fuel predicate c h = Ok true h') ∧
        agree_off (owner c) h h'.
Proof.
  revert c h. induction pre as [|y pre IH]; intros c h Hf Hp Hx.
  - destruct (next_feeds h c _ Hf) as (c' & h1 & Hn & Hf' & Ho & Ha).
    destruct (close_feeds _ _ _ Hf') as (h' & Hcl & Ha'). rewrite Ho in Ha'.
    exists h'. split.
    + intros fuel Hlt.
      destruct fuel as [|fuel]; [simpl in Hlt; lia |]. cbn [any_loop].
      destruct fuel as [|fuel]; [simpl in Hlt; lia |].
      cbn [app head tail] in Hn. erewrite bind_ok by apply Hn. cbv beta iota.
      rewrite Hx, lift_val. by erewrite bind_ok by apply Hcl.
    + by eapply agree_off_trans.
  - destruct (next_feeds h c _ Hf) as (c' & h1 & Hn & Hf' & Ho & Ha).
    destruct (IH c' h1 Hf') as (h' & Hc & Ha'); [|done|].
    { intros z Hz. apply Hp. by right. }
    rewrite Ho in Ha'. exists h'. split; [|by eapply agree_off_trans].
    intros fuel Hlt.
    destruct fuel as [|fuel]; [simpl in Hlt; lia |]. cbn [any_loop].
    destruct fuel as [|fuel]; [simpl in Hlt; lia |].
    cbn [app head tail] in Hn. erewrite bind_ok by apply Hn. cbv beta iota.
    rewrite (Hp y) by by left. rewrite lift_val.
    apply Hc. simpl in Hlt. lia.
Qed.

End loops.

Lemma sync_all_array fuel xs predicate h :
  FluentIterable.all fuel (FluentIterable.Wrap (VArr xs)) predicate h
  = all_loop fuel predicate (CArr xs 0) h.
Proof. done. Qed.

Lemma sync_any_array fuel xs predicate h :
  FluentIterable.any fuel (FluentIterable.Wrap (VArr xs)) predicate h
  = any_loop fuel predicate (CArr xs 0) h.
Proof. done. Qed.

Lemma async_all_gen fuel g predicate h :
  FluentAsyncIterable.all fuel (FluentAsyncIterable.Wrap (VAsyncGen g)) predicate h
  = all_loop fuel predicate (CGen g) h.
Proof. done. Qed.

Lemma async_any_gen fuel g predicate h :
  FluentAsyncIterable.any fuel (FluentAsyncIterable.Wrap (VAsyncGen g)) predicate h
  = any_loop fuel predicate (CGen g) h.
Proof. done. Qed.

Lemma feeds_array_0 h xs : feeds h (CArr xs 0) xs.
Proof. rewrite <- (drop_0 xs) at 2. constructor. Qed.

(** C8: [all] is true of the empty sequence and of a sequence whose elements
    all satisfy the predicate, and false as soon as one element fails it;
    [any] is false of the empty sequence and of a sequence no element of
    which satisfies the predicate, and true as soon as one element satisfies
    it.  In the short-circuit cases nothing is assumed of the predicate on
    the elements after the deciding one — it may throw there — and the fuel
    needed does not depend on them.  [every] and [some] are [all] and [any].
    The synchronous class is run on an array, the asynchronous one on an
    asynchronous generator object. *)
Theorem all_any_short_circuit (predicate : value → res bool) (h : heap) :
  (∀ fuel, 1 < fuel →
     FluentIterable.all fuel (FluentIterable.Wrap (VArr [])) predicate h = Ok true h ∧
     FluentIterable.any fuel (FluentIterable.Wrap (VArr [])) predicate h = Ok false h) ∧
  (∀ xs fuel, length xs + 1 < fuel →
     ((∀ x, x ∈ xs → predicate x = Val true) →
        FluentIterable.all fuel (FluentIterable.Wrap (VArr xs)) predicate h = Ok true h) ∧
     ((∀ x, x ∈ xs → predicate x = Val false) →
        FluentIterable.any fuel (FluentIterable.Wrap (VArr xs)) predicate h = Ok false h)) ∧
  (∀ pre x post fuel, length pre + 2 < fuel →
     ((∀ y, y ∈ pre → predicate y = Val true) → predicate x = Val false →
        FluentIterable.all fuel (FluentIterable.Wrap (VArr (pre ++ x :: post))) predicate h
        = Ok false h) ∧
     ((∀ y, y ∈ pre → predicate y = Val false) → predicate x = Val true →
        FluentIterable.any fuel (FluentIterable.Wrap (VArr (pre ++ x :: post))) predicate h
        = Ok true h)) ∧
  (∀ fuel this,
     FluentIterable.every fuel this predicate = FluentIterable.all fuel this predicate ∧
     FluentIterable.some fuel this predicate = FluentIterable.any fuel this predicate) ∧
  (∀ g xs fuel, gens h !! g = Some (GItems xs) → length xs + 1 < fuel →
     ((∀ x, x ∈ xs → predicate x = Val true) →
        ∃ h', FluentAsyncIterable.all fuel (FluentAsyncIterable.Wrap (VAsyncGen g))
                predicate h = Ok true h') ∧
     ((∀ x, x ∈ xs → predicate x = Val false) →
        ∃ h', FluentAsyncIterable.any fuel (FluentAsyncIterable.Wrap (VAsyncGen g))
                predicate h = Ok false h')) ∧
  (∀ g pre x post fuel,
     gens h !! g = Some (GItems (pre ++ x :: post)) → length pre + 2 < fuel →
     ((∀ y, y ∈ pre → predicate y = Val true) → predicate x = Val false →
        ∃ h', FluentAsyncIterable.all fuel (FluentAsyncIterable.Wrap (VAsyncGen g))
                predicate h = Ok false h') ∧
     ((∀ y, y ∈ pre → predicate y = Val false) → predicate x = Val true →
        ∃ h', FluentAsyncIterable.any fuel (FluentAsyncIterable.Wrap (VAsyncGen g))
                predicate h = Ok true h')) ∧
  (∀ fuel this,
     FluentAsyncIterable.every fuel this predicate
       = FluentAsyncIterable.all fuel this predicate ∧
     FluentAsyncIterable.some fuel this predicate
       = FluentAsyncIterable.any fuel this predicate).
Proof.
  assert (∀ xs fuel, length xs + 1 < fuel →
     ((∀ x, x ∈ xs → predicate x = Val true) →
        FluentIterable.all fuel (FluentIterable.Wrap (VArr xs)) predicate h = Ok true h) ∧
     ((∀ x, x ∈ xs → predicate x = Val false) →
        FluentIterable.any fuel (FluentIterable.Wrap (VArr xs)) predicate h = Ok false h))
    as Hwhole.
  { intros xs fuel Hlt. split; intros Hp.
    - destruct (all_loop_true predicate h _ xs (feeds_array_0 h xs) Hp) as (h' & Hl & Ha).
      rewrite sync_all_array, Hl by done. by rewrite (agree_off_none_eq _ _ Ha).
    - destruct (any_loop_false predicate h _ xs (feeds_array_0 h xs) Hp) as (h' & Hl & Ha).
      rewrite sync_any_array, Hl by done. by rewrite (agree_off_none_eq _ _ Ha). }
  split_and!.
  - intros fuel Hlt. destruct (Hwhole [] fuel) as [Hall Hany]; [simpl; lia |].
    split; [apply Hall | apply Hany]; intros x Hx; by apply elem_of_nil in Hx.
  - exact Hwhole.
  - intros pre x post fuel Hlt. split; intros Hp Hx.
    + destruct (all_loop_false predicate h _ pre x post (feeds_array_0 h _) Hp Hx)
        as (h' & Hl & Ha).
      rewrite sync_all_array, Hl by done. by rewrite (agree_off_none_eq _ _ Ha).
    + destruct (any_loop_true predicate h _ pre x post (feeds_array_0 h _) Hp Hx)
        as (h' & Hl & Ha).
      rewrite sync_any_array, Hl by done. by rewrite (agree_off_none_eq _ _ Ha).
  - done.
  - intros g xs fuel Hg Hlt. split; intros Hp.
    + destruct (all_loop_true predicate h _ xs (feeds_items h g xs Hg) Hp) as (h' & Hl & _).
      exists h'. rewrite async_all_gen. by apply Hl.
    + destruct (any_loop_false predicate h _ xs (feeds_items h g xs Hg) Hp) as (h' & Hl & _).
      exists h'. rewrite async_any_gen. by apply Hl.
  - intros g pre x post fuel Hg Hlt. split; intros Hp Hx.
    + destruct (all_loop_false predicate h _ pre x post (feeds_items h g _ Hg) Hp Hx)
        as (h' & Hl & _).
      exists h'. rewrite async_all_gen. by apply Hl.
    + destruct (any_loop_true predicate h _ pre x post (feeds_items h g _ Hg) Hp Hx)
        as (h' & Hl & _).
      exists h'. rewrite async_any_gen. by apply Hl.
  - done.
Qed.

Lemma all_any_short_circuit_witness :
  FluentIterable.all 5
    (FluentIterable.Wrap (VArr ([num 1; num 2] ++ num 7 :: [VStr "x"; num 3])))
    below_five empty_heap = Ok false empty_heap ∧
  FluentIterable.any 5
    (FluentIterable.Wrap (VArr ([num 1; num 2] ++ num 7 :: [VStr "x"; num 3])))
    above_five empty_heap = Ok true empty_heap.
Proof.
  destruct (all_any_short_circuit below_five empty_heap) as (_ & _ & Hall & _).
  destruct (all_any_short_circuit above_five empty_heap) as (_ & _ & Hany & _).
  split.
  - apply (Hall [num 1; num 2] (num 7) [VStr "x"; num 3] 5); [simpl; lia | | reflexivity].
    intros y Hy. apply elem_of_cons in Hy as [-> | Hy]; [reflexivity |].
    apply list_elem_of_singleton in Hy as ->. reflexivity.
  - apply (Hany [num 1; num 2] (num 7) [VStr "x"; num 3] 5); [simpl; lia | | reflexivity].
    intros y Hy. apply elem_of_cons in Hy as [-> | Hy]; [reflexivity |].
    apply list_elem_of_singleton in Hy as ->. reflexivity.
Defined.

(** ** What a generator object yields *)

Lemma gen_yields_mono g n n' h out h' :
  n ≤ n' → gen_yields g n h out h' → gen_yields g n' h out h'.
Proof.
  intros Hle Hy. induction Hy as [h h' Hr|h x h1 out h' Hr _ IH].
  - apply gen_yields_end. intros fuel Hf. apply Hr. lia.
  - eapply gen_yields_step; [|exact IH]. intros fuel Hf. apply Hr. lia.
Qed.

Lemma collect_gen_yields g n h out h' :
  gen_yields g n h out h' →
  ∀ fuel arr, n + length out < fuel → collect fuel (CGen g) arr h = Ok (arr ++ out) h'.
Proof.
  intros Hy. induction Hy as [h h' Hr|h x h1 out h' Hr _ IH]; intros fuel arr Hlt.
  - destruct fuel as [|fuel]; [lia |]. cbn [collect next_with].
    erewrite bind_ok; last first.
    { erewrite bind_ok by (apply Hr; simpl in Hlt; lia). done. }
    cbv beta iota. by rewrite app_nil_r.
  - destruct fuel as [|fuel]; [lia |]. cbn [collect next_with].
    erewrite bind_ok; last first.
    { erewrite bind_ok by (apply Hr; simpl in Hlt; lia). done. }
    cbv beta iota. rewrite IH by (simpl in Hlt; lia). by rewrite <- app_assoc.
Qed.

(** A generator object suspended at its start first runs up to its first
    loop. *)
Lemma resume_start g m st fr h h1 fuel :
  gens h !! g = Some (GStart m st) → start m st h = Ok fr h1 →
  resume (S fuel) g h = resume fuel g (Heap (funs h1) (<[g := fr]> (gens h1)) (calls h1)).
Proof.
  intros Hg Hs. cbn [resume]. munfold. by rewrite Hg, Hs.
Qed.

Lemma gen_yields_start g n m st fr h h1 out h' :
  gens h !! g = Some (GStart m st) → start m st h = Ok fr h1 →
  gen_yields g n (Heap (funs h1) (<[g := fr]> (gens h1)) (calls h1)) out h' →
  gen_yields g (S n) h out h'.
Proof.
  intros Hg Hs Hy. inversion Hy as [h2 h2' Hr|h2 x h3 out' h2' Hr Hy']; subst.
  - apply gen_yields_end. intros [|fuel] Hf; [lia |].
    erewrite resume_start by done. apply Hr. lia.
  - eapply gen_yields_step; [|eapply gen_yields_mono; [|exact Hy']; lia].
    intros [|fuel] Hf; [lia |].
    erewrite resume_start by done. apply Hr. lia.
Qed.

(** ** [zip] *)

Lemma pairs_length xs ys : length (pairs xs ys) = length xs `min` length ys.
Proof. unfold pairs. by rewrite length_fmap, length_zip. Qed.

Lemma pairs_lookup xs ys i x y :
  xs !! i = Some x → ys !! i = Some y → pairs xs ys !! i = Some (VArr [x; y]).
Proof.
  intros Hx Hy. unfold pairs. rewrite list_lookup_fmap.
  replace (zip xs ys !! i) with (Some (x, y)); [done |].
  symmetry. revert i ys Hx Hy. induction xs as [|a xs IH]; intros [|i] [|b ys]; try done.
  - simpl. by intros [= ->] [= ->].
  - simpl. apply IH.
Qed.

Ltac read_frame Hg :=
  erewrite bind_ok by (unfold read_gen; rewrite Hg; reflexivity); cbv beta iota.

Lemma zip_yields g xs :
  ∀ ys ai bi h,
    gens h !! g = Some (GZip ai bi) →
    feeds h ai xs → feeds h bi ys →
    owner ai ≠ Some g → owner bi ≠ Some g →
    (∀ a, owner ai = Some a → owner bi ≠ Some a) →
    ∃ h', gen_yields g 2 h (pairs xs ys) h' ∧ funs h' = funs h ∧ calls h' = calls h.
Proof.
  induction xs as [|x xs IH]; intros ys ai bi h Hg Hfa Hfb Hoa Hob Hab.
  - destruct (next_feeds h ai _ Hfa) as (ai' & h1 & Hn1 & _ & _ & Ha1).
    assert (feeds h1 bi ys) as Hfb1.
    { eapply feeds_agree; [done.. |]. intros b Hb E. by eapply Hab. }
    destruct (next_feeds h1 bi _ Hfb1) as (bi' & h2 & Hn2 & _ & _ & Ha2).
    eexists. split_and!.
    + apply gen_yields_end. intros fuel Hf.
      destruct fuel as [|fuel]; [lia |]. cbn [resume].
      destruct fuel as [|fuel]; [lia |].
      read_frame Hg. cbn [head] in Hn1.
      erewrite bind_ok by apply Hn1. cbv beta iota.
      erewrite bind_ok by apply Hn2. cbv beta iota.
      unfold finish. munfold. reflexivity.
    + simpl. destruct Ha1 as (F1 & _), Ha2 as (F2 & _). congruence.
    + simpl. destruct Ha1 as (_ & C1 & _), Ha2 as (_ & C2 & _). congruence.
  - destruct (next_feeds h ai _ Hfa) as (ai' & h1 & Hn1 & Hfa1 & Hoa1 & Ha1).
    assert (feeds h1 bi ys) as Hfb1.
    { eapply feeds_agree; [done.. |]. intros b Hb E. by eapply Hab. }
    destruct (next_feeds h1 bi _ Hfb1) as (bi' & h2 & Hn2 & Hfb2 & Hob2 & Ha2).
    cbn [head tail] in Hn1, Hfa1.
    destruct ys as [|y ys]; cbn [head tail] in Hn2, Hfb2.
    + eexists. split_and!.
      * apply gen_yields_end. intros fuel Hf.
        destruct fuel as [|fuel]; [lia |]. cbn [resume].
        destruct fuel as [|fuel]; [lia |].
        read_frame Hg.
        erewrite bind_ok by apply Hn1. cbv beta iota.
        erewrite bind_ok by apply Hn2. cbv beta iota.
        unfold finish. munfold. reflexivity.
      * simpl. destruct Ha1 as (F1 & _), Ha2 as (F2 & _). congruence.
      * simpl. destruct Ha1 as (_ & C1 & _), Ha2 as (_ & C2 & _). congruence.
    + set (h3 := Heap (funs h2) (<[g := GZip ai' bi']> (gens h2)) (calls h2)).
      destruct (IH ys ai' bi' h3) as (h' & Hy & F & C).
      * apply lookup_insert_eq.
      * eapply feeds_agree; [| apply (agree_off_write g) | congruence].
        eapply feeds_agree; [done.. |]. rewrite Hoa1. done.
      * eapply feeds_agree; [done | apply (agree_off_write g) | congruence].
      * congruence.
      * congruence.
      * rewrite Hoa1, Hob2. done.
      * exists h'. split_and!.
        -- eapply gen_yields_step; [|exact Hy]. intros fuel Hf.
           destruct fuel as [|fuel]; [lia |]. cbn [resume].
           destruct fuel as [|fuel]; [lia |].
           read_frame Hg.
           erewrite bind_ok by apply Hn1. cbv beta iota.
           erewrite bind_ok by apply Hn2. cbv beta iota.
           unfold yield. munfold. reflexivity.
        -- rewrite F. simpl. destruct Ha1 as (F1 & _), Ha2 as (F2 & _). congruence.
        -- rewrite C. simpl. destruct Ha1 as (_ & C1 & _), Ha2 as (_ & C2 & _). congruence.
Qed.

Lemma fresh_gen_ne (h : heap) a fr :
  gens h !! a = Some fr → a ≠ fresh (dom (gens h)).
Proof.
  intros Ha ->. apply (is_fresh (dom (gens h))). apply elem_of_dom. by eexists.
Qed.

Lemma staged_lookup_gen m st h a fr :
  gens h !! a = Some fr → gens (staged m st h) !! a = Some fr.
Proof.
  intros Ha. simpl. rewrite lookup_insert_ne; [done |].
  intros E. by eapply fresh_gen_ne.
Qed.

(** Making a stage wrapper and materialising it. *)
Lemma sync_stage_toArray st h fr h1 out h' n fuel :
  start Sync st (staged Sync st h) = Ok fr h1 →
  gen_yields (fresh (dom (gens h))) n
    (Heap (funs h1) (<[fresh (dom (gens h)) := fr]> (gens h1)) (calls h1)) out h' →
  S n + length out < fuel →
  (w ← FluentIterable.stage_wrapper st; FluentIterable.toArray fuel w) h = Ok out h'.
Proof.
  intros Hs Hy Hlt. erewrite bind_ok by apply sync_stage_wrapper.
  rewrite sync_toArray_gen.
  eapply (collect_gen_yields _ (S n) _ _ _) with (arr := []); [|done].
  eapply gen_yields_start; [apply lookup_insert_eq | exact Hs | exact Hy].
Qed.

Lemma async_stage_toArray st h fr h1 out h' n fuel :
  start Async st (staged Async st h) = Ok fr h1 →
  gen_yields (fresh (dom (gens h))) n
    (Heap (funs h1) (<[fresh (dom (gens h)) := fr]> (gens h1)) (calls h1)) out h' →
  S n + length out < fuel →
  (w ← FluentAsyncIterable.stage_wrapper st; FluentAsyncIterable.toArray fuel w) h
  = Ok out h'.
Proof.
  intros Hs Hy Hlt. erewrite bind_ok by apply async_stage_wrapper.
  rewrite async_toArray_gen.
  eapply (collect_gen_yields _ (S n) _ _ _) with (arr := []); [|done].
  eapply gen_yields_start; [apply lookup_insert_eq | exact Hs | exact Hy].
Qed.

(** C5: zipping two finite sequences gives the pairs of their elements at
    equal positions, as many as the shorter sequence has; the unpaired tail
    is dropped.  The synchronous class is run on two arrays, the
    asynchronous one on two distinct asynchronous generator objects. *)
Theorem zip_pairs_to_shorter (s o : list value) (h : heap) (fuel : nat) :
  (length s `min` length o) + 3 < fuel →
  (∃ h', (w0 ← FluentIterable.constructor (VArr s);
          w ← FluentIterable.zip w0 (VArr o);
          FluentIterable.toArray fuel w) h = Ok (pairs s o) h') ∧
  (∀ a b, gens h !! a = Some (GItems s) → gens h !! b = Some (GItems o) → a ≠ b →
     ∃ h', (w0 ← FluentAsyncIterable.constructor (VAsyncGen a);
            w ← FluentAsyncIterable.zip w0 (VAsyncGen b);
            FluentAsyncIterable.toArray fuel w) h = Ok (pairs s o) h') ∧
  length (pairs s o) = length s `min` length o ∧
  (∀ i x y, s !! i = Some x → o !! i = Some y → pairs s o !! i = Some (VArr [x; y])).
Proof.
  intros Hlt. split_and!; [| | apply pairs_length | apply pairs_lookup].
  - set (st := StZip (VArr s) (VArr o)). set (g := fresh (dom (gens h))).
    set (h1 := staged Sync st h).
    destruct (zip_yields g s o (CArr s 0) (CArr o 0)
                (Heap (funs h1) (<[g := GZip (CArr s 0) (CArr o 0)]> (gens h1)) (calls h1)))
      as (h' & Hy & _);
      [apply lookup_insert_eq | apply feeds_array_0 | apply feeds_array_0
      | done | done | done |].
    exists h'. erewrite bind_ok by reflexivity.
    eapply (sync_stage_toArray st); [reflexivity | exact Hy |].
    rewrite pairs_length. lia.
  - intros a b Ha Hb Hab.
    set (st := StZip (VAsyncGen a) (VAsyncGen b)). set (g := fresh (dom (gens h))).
    set (h1 := staged Async st h).
    assert (a ≠ g) as Hag by by eapply fresh_gen_ne.
    assert (b ≠ g) as Hbg by by eapply fresh_gen_ne.
    destruct (zip_yields g s o (CGen a) (CGen b)
                (Heap (funs h1) (<[g := GZip (CGen a) (CGen b)]> (gens h1)) (calls h1)))
      as (h' & Hy & _).
    + apply lookup_insert_eq.
    + apply feeds_items. simpl. by rewrite !lookup_insert_ne.
    + apply feeds_items. simpl. by rewrite !lookup_insert_ne.
    + simpl. congruence.
    + simpl. congruence.
    + simpl. congruence.
    + exists h'. erewrite bind_ok by reflexivity.
      eapply (async_stage_toArray st); [reflexivity | exact Hy |].
      rewrite pairs_length. lia.
Qed.

Lemma zip_pairs_to_shorter_witness :
  ∃ h', (w0 ← FluentIterable.constructor (VArr [num 1; num 2; num 7]);
         w ← FluentIterable.zip w0 (VArr [VStr "a"; VStr "b"]);
         FluentIterable.toArray 6 w) empty_heap
        = Ok [VArr [num 1; VStr "a"]; VArr [num 2; VStr "b"]] h'.
Proof.
  destruct (zip_pairs_to_shorter [num 1; num 2; num 7] [VStr "a"; VStr "b"]
              empty_heap 6) as (H & _); [simpl; lia |].
  exact H.
Defined.

(** ** [flat] *)

Lemma flat_inv_top h g c rest xs itemss :
  flat_inv h g (c :: rest) (xs :: itemss) → feeds h c xs ∧ owner c ≠ Some g.
Proof. inversion 1; subst; [done |]. split; [done | congruence]. Qed.

Lemma flat_inv_write h h' g stack itemss :
  flat_inv h g stack itemss → agree_off (Some g) h h' → flat_inv h' g stack itemss.
Proof.
  intros Hi Ha. induction Hi as [|c xs Hf Ho|c xs rest itemss Hf Ho _ IH].
  - constructor.
  - apply flat_inv_root; [|done]. eapply feeds_agree; [done.. |]. congruence.
  - apply flat_inv_push; [|done..]. eapply feeds_agree; [done.. |]. congruence.
Qed.

Lemma flat_inv_pop h h1 g c rest xs itemss :
  flat_inv h g (c :: rest) (xs :: itemss) → agree_off (owner c) h h1 →
  flat_inv h1 g rest itemss.
Proof.
  inversion 1; subst; intros Ha; [constructor |].
  replace (owner c) with (@None nat) in Ha. by rewrite (agree_off_none_eq _ _ Ha).
Qed.

Lemma flat_inv_step h h1 g c c' rest xs xs' itemss :
  flat_inv h g (c :: rest) (xs :: itemss) → agree_off (owner c) h h1 →
  feeds h1 c' xs' → owner c' = owner c →
  flat_inv h1 g (c' :: rest) (xs' :: itemss).
Proof.
  inversion 1; subst; intros Ha Hf Ho.
  - apply flat_inv_root; [done | congruence].
  - apply flat_inv_push; [done | congruence |].
    replace (owner c) with (@None nat) in Ha. by rewrite (agree_off_none_eq _ _ Ha).
Qed.

Lemma flat_inv_descend h g stack itemss ys :
  flat_inv h g stack itemss → flat_inv h g (CArr ys 0 :: stack) (ys :: itemss).
Proof. intros Hi. apply flat_inv_push; [apply feeds_array_0 | done | done]. Qed.

Lemma flat_classify_array m ys h :
  flat_classify m (VArr ys) h = Ok (Some (CArr ys 0)) h.
Proof. by destruct m. Qed.

Lemma flat_classify_leaf m v h :
  flat_leaf m v = true → flat_classify m v h = Ok None h.
Proof.
  unfold flat_leaf, flat_classify, isIterable, isAsyncIterable.
  rewrite !has_method_spec. simpl holds. destruct m.
  - intros H. apply negb_true_iff in H. by rewrite H.
  - intros H. apply andb_true_iff in H as [H1 H2].
    apply negb_true_iff in H1, H2. by rewrite H1, lift_val, H2.
Qed.

Lemma nested_cases m v :
  nested m v = true →
  (∃ ys, v = VArr ys ∧ forallb (nested m) ys = true) ∨
  (flat_leaf m v = true ∧ leaves v = [v] ∧ size v = 1).
Proof. destruct v; simpl; eauto. Qed.

Lemma leaves_are_leaves m v : nested m v = true → Forall (λ x, flat_leaf m x = true) (leaves v).
Proof.
  revert v. fix IH 1. intros v Hv. destruct v as [| |b|z|s|ys|it ait|f|b|g|g];
    try (simpl in *; by repeat constructor).
  simpl in *. induction ys as [|y ys IHys]; simpl in *; [constructor |].
  apply andb_true_iff in Hv as [Hy Hys]. apply Forall_app. split; [by apply IH | by apply IHys].
Qed.

Lemma pending_cons xs itemss :
  pending (xs :: itemss) = concat (List.map leaves xs) ++ pending itemss.
Proof. done. Qed.

Lemma weight_cons xs itemss :
  weight (xs :: itemss) = S (list_sum (List.map size xs)) + weight itemss.
Proof. done. Qed.

Lemma flat_inv_cons h g stack xs itemss :
  flat_inv h g stack (xs :: itemss) → ∃ c rest, stack = c :: rest.
Proof. inversion 1; eauto. Qed.

Lemma forallb_nested m ys :
  forallb (nested m) ys = true → Forall (λ v, nested m v = true) ys.
Proof.
  intros H. apply Forall_forall. intros v Hv.
  eapply forallb_forall in H; [done |]. by apply list_elem_of_In.
Qed.

(** One call of [next()] on the generator object of [flat]. *)
Lemma flat_resume g m n :
  ∀ stack itemss h,
    weight itemss ≤ n →
    gens h !! g = Some (GFlat m stack) →
    flat_inv h g stack itemss →
    all_nested m itemss →
    ∃ r h',
      (∀ fuel, n + 2 ≤ fuel → resume fuel g h = Ok r h') ∧
      funs h' = funs h ∧ calls h' = calls h ∧
      match r with
      | None => pending itemss = []
      | Some v =>
          ∃ stack' itemss',
            pending itemss = v :: pending itemss' ∧
            weight itemss' < weight itemss ∧
            gens h' !! g = Some (GFlat m stack') ∧
            flat_inv h' g stack' itemss' ∧
            all_nested m itemss'
      end.
Proof.
  induction n as [|n IH]; intros stack itemss h Hw Hg Hi Hnest;
    destruct itemss as [|xs ri].
  1, 3: inversion Hi; subst; exists None; eexists; split_and!; [| | | done];
    [intros fuel Hfuel; destruct fuel as [|fuel]; [lia |]; cbn [resume];
     read_frame Hg; unfold finish; munfold; reflexivity | done | done].
  { rewrite weight_cons in Hw. lia. }
  destruct (flat_inv_cons _ _ _ _ _ Hi) as (c & rest & ->).
  destruct (flat_inv_top _ _ _ _ _ _ Hi) as [Hf Ho].
  destruct (next_feeds h c xs Hf) as (c' & h1 & Hn & Hf' & Ho' & Ha).
  apply Forall_cons in Hnest as [Hxs Hri].
  rewrite weight_cons in Hw.
  destruct xs as [|v xs']; cbn [head tail] in Hn, Hf'.
  - (* the top cursor is exhausted: pop *)
    set (h2 := Heap (funs h1) (<[g := GFlat m rest]> (gens h1)) (calls h1)).
    destruct (IH rest ri h2) as (r & h' & Hr & F & C & Hm).
    + simpl in Hw. lia.
    + apply lookup_insert_eq.
    + eapply flat_inv_write; [|apply (agree_off_write g)]. by eapply flat_inv_pop.
    + done.
    + exists r, h'. split_and!.
      * intros fuel Hfuel. destruct fuel as [|fuel]; [lia |]. cbn [resume].
        destruct fuel as [|fuel]; [lia |]. read_frame Hg.
        erewrite bind_ok by apply Hn. cbv beta iota.
        erewrite bind_ok by reflexivity. apply Hr. lia.
      * rewrite F. simpl. by destruct Ha as (-> & _).
      * rewrite C. simpl. by destruct Ha as (_ & -> & _).
      * destruct r as [v|]; [|done].
        destruct Hm as (stack' & itemss' & Hp & Hlt & Hm).
        exists stack', itemss'. split_and!; [done | | apply Hm..].
        rewrite weight_cons. lia.
  - apply Forall_cons in Hxs as [Hv Hxs'].
    destruct (nested_cases m v Hv) as [(ys & -> & Hys) | (Hleaf & Hlv & Hsz)].
    + (* an array: descend *)
      set (h2 := Heap (funs h1) (<[g := GFlat m (CArr ys 0 :: c' :: rest)]> (gens h1))
                      (calls h1)).
      destruct (IH (CArr ys 0 :: c' :: rest) (ys :: xs' :: ri) h2)
        as (r & h' & Hr & F & C & Hm).
      * rewrite !weight_cons. simpl in Hw. lia.
      * apply lookup_insert_eq.
      * apply flat_inv_descend.
        eapply flat_inv_write; [|apply (agree_off_write g)]. by eapply flat_inv_step.
      * repeat apply Forall_cons_2; [by apply forallb_nested | done | done].
      * exists r, h'. split_and!.
        -- intros fuel Hfuel. destruct fuel as [|fuel]; [lia |]. cbn [resume].
           destruct fuel as [|fuel]; [lia |]. read_frame Hg.
           erewrite bind_ok by apply Hn. cbv beta iota.
           erewrite bind_ok by apply flat_classify_array. cbv beta iota.
           erewrite bind_ok by reflexivity. apply Hr. lia.
        -- rewrite F. simpl. by destruct Ha as (-> & _).
        -- rewrite C. simpl. by destruct Ha as (_ & -> & _).
        -- destruct r as [v|].
           ++ destruct Hm as (stack' & itemss' & Hp & Hlt & Hm).
              exists stack', itemss'. split_and!; [| | apply Hm..].
              ** rewrite <- Hp. rewrite !pending_cons. simpl. by rewrite <- app_assoc.
              ** rewrite !weight_cons in *. simpl. lia.
           ++ rewrite <- Hm. rewrite !pending_cons. simpl. by rewrite <- app_assoc.
    + (* a leaf: yield *)
      exists (Some v). eexists. split_and!.
      * intros fuel Hfuel. destruct fuel as [|fuel]; [lia |]. cbn [resume].
        destruct fuel as [|fuel]; [lia |]. read_frame Hg.
        erewrite bind_ok by apply Hn. cbv beta iota.
        erewrite bind_ok by by apply flat_classify_leaf. cbv beta iota.
        unfold yield. munfold. reflexivity.
      * simpl. by destruct Ha as (-> & _).
      * simpl. by destruct Ha as (_ & -> & _).
      * exists (c' :: rest), (xs' :: ri). split_and!.
        -- rewrite !pending_cons. simpl. by rewrite Hlv.
        -- rewrite !weight_cons. simpl. lia.
        -- apply lookup_insert_eq.
        -- eapply flat_inv_write; [|apply (agree_off_write g)]. by eapply flat_inv_step.
        -- by apply Forall_cons_2.
Qed.

Lemma flat_yields g m n :
  ∀ stack itemss h,
    weight itemss ≤ n →
    gens h !! g = Some (GFlat m stack) →
    flat_inv h g stack itemss →
    all_nested m itemss →
    ∃ h', gen_yields g (n + 2) h (pending itemss) h' ∧
          funs h' = funs h ∧ calls h' = calls h.
Proof.
  induction n as [|n IH]; intros stack itemss h Hw Hg Hi Hnest.
  - destruct (flat_resume g m 0 stack itemss h Hw Hg Hi Hnest)
      as (r & h1 & Hr & F & C & Hm).
    destruct r as [v|].
    + destruct Hm as (stack' & itemss' & _ & Hlt & _). lia.
    + exists h1. rewrite Hm. split_and!; [by apply gen_yields_end | done | done].
  - destruct (flat_resume g m (S n) stack itemss h Hw Hg Hi Hnest)
      as (r & h1 & Hr & F & C & Hm).
    destruct r as [v|].
    + destruct Hm as (stack' & itemss' & Hp & Hlt & Hg' & Hi' & Hnest').
      destruct (IH stack' itemss' h1) as (h' & Hy & F' & C'); [lia | done..|].
      exists h'. rewrite Hp. split_and!; [| congruence | congruence].
      eapply gen_yields_step; [exact Hr |].
      eapply gen_yields_mono; [|exact Hy]. lia.
    + exists h1. rewrite Hm. split_and!; [by apply gen_yields_end | done | done].
Qed.

Lemma length_leaves v : length (leaves v) ≤ size v.
Proof.
  revert v. fix IH 1. intros v. destruct v as [| |b|z|s|ys|it ait|f|b|g|g];
    try (simpl; lia).
  simpl. induction ys as [|y ys IHys]; simpl; [lia |].
  rewrite length_app. specialize (IH y). lia.
Qed.

Lemma length_leaves_list ys :
  length (concat (List.map leaves ys)) ≤ list_sum (List.map size ys).
Proof.
  induction ys as [|y ys IH]; simpl; [lia |].
  rewrite length_app. pose proof (length_leaves y). lia.
Qed.

Lemma leaves_array ys : leaves (VArr ys) = concat (List.map leaves ys).
Proof. done. Qed.

Lemma size_array ys : size (VArr ys) = 2 + list_sum (List.map size ys).
Proof. done. Qed.

Lemma nested_array m ys : nested m (VArr ys) = forallb (nested m) ys.
Proof. done. Qed.

(** [flat] over an array of nested arrays. *)
Lemma sync_flat_array xs h fuel :
  nested Sync (VArr xs) = true → 2 * size (VArr xs) < fuel →
  ∃ h', (w0 ← FluentIterable.constructor (VArr xs);
         w ← FluentIterable.flat w0;
         FluentIterable.toArray fuel w) h = Ok (leaves (VArr xs)) h' ∧
        calls h' = calls h ++ [fresh (dom (funs h))].
Proof.
  intros Hnest Hlt. rewrite nested_array in Hnest.
  set (st := StFlat (VArr xs)). set (g := fresh (dom (gens h))).
  set (h1 := staged Sync st h).
  destruct (flat_yields g Sync (weight [xs]) [CArr xs 0] [xs]
              (Heap (funs h1) (<[g := GFlat Sync [CArr xs 0]]> (gens h1)) (calls h1)))
    as (h' & Hy & _ & C).
  { done. }
  { apply lookup_insert_eq. }
  { apply flat_inv_root; [apply feeds_array_0 | done]. }
  { repeat constructor. by apply forallb_nested. }
  exists h'. split; [|by rewrite C].
  erewrite bind_ok by reflexivity.
  change (pending [xs]) with (concat (List.map leaves xs) ++ []) in Hy.
  rewrite app_nil_r in Hy.
  eapply (sync_stage_toArray st); [reflexivity | exact Hy |].
  pose proof (length_leaves_list xs) as Hlen.
  rewrite leaves_array, weight_cons. change (weight []) with 0.
  rewrite size_array in Hlt. lia.
Qed.

(** [flat] over an asynchronous generator object that yields nested
    arrays. *)
Lemma async_flat_gen a xs h fuel :
  gens h !! a = Some (GItems xs) →
  nested Async (VArr xs) = true → 2 * size (VArr xs) < fuel →
  ∃ h', (w0 ← FluentAsyncIterable.constructor (VAsyncGen a);
         w ← FluentAsyncIterable.flat w0;
         FluentAsyncIterable.toArray fuel w) h = Ok (leaves (VArr xs)) h' ∧
        calls h' = calls h ++ [fresh (dom (funs h))].
Proof.
  intros Ha Hnest Hlt. rewrite nested_array in Hnest.
  set (st := StFlat (VAsyncGen a)). set (g := fresh (dom (gens h))).
  set (h1 := staged Async st h).
  assert (a ≠ g) as Hag by by eapply fresh_gen_ne.
  destruct (flat_yields g Async (weight [xs]) [CGen a] [xs]
              (Heap (funs h1) (<[g := GFlat Async [CGen a]]> (gens h1)) (calls h1)))
    as (h' & Hy & _ & C).
  { done. }
  { apply lookup_insert_eq. }
  { apply flat_inv_root; [|simpl; congruence].
    apply feeds_items. simpl. by rewrite !lookup_insert_ne. }
  { repeat constructor. by apply forallb_nested. }
  exists h'. split; [|by rewrite C].
  erewrite bind_ok by reflexivity.
  change (pending [xs]) with (concat (List.map leaves xs) ++ []) in Hy.
  rewrite app_nil_r in Hy.
  eapply (async_stage_toArray st); [reflexivity | exact Hy |].
  pose proof (length_leaves_list xs) as Hlen.
  rewrite leaves_array, weight_cons. change (weight []) with 0.
  rewrite size_array in Hlt. lia.
Qed.

(** C4: [flat] over arrays nested to any finite depth yields their leaves,
    depth first and left to right, and nothing else: every value yielded is
    one that the classifier rejects, no array is yielded as a unit.  The
    traversal is the loop over an explicit stack of cursors of [resume].
    The synchronous class is run on an array, the asynchronous one on an
    asynchronous generator object. *)
Theorem flat_depth_first (xs : list value) (h : heap) (fuel : nat) :
  2 * size (VArr xs) < fuel →
  (nested Sync (VArr xs) = true →
     (∃ h', (w0 ← FluentIterable.constructor (VArr xs);
             w ← FluentIterable.flat w0;
             FluentIterable.toArray fuel w) h = Ok (leaves (VArr xs)) h') ∧
     Forall (λ v, holds (isIterable v) = false) (leaves (VArr xs))) ∧
  (nested Async (VArr xs) = true →
     (∀ a, gens h !! a = Some (GItems xs) →
        ∃ h', (w0 ← FluentAsyncIterable.constructor (VAsyncGen a);
               w ← FluentAsyncIterable.flat w0;
               FluentAsyncIterable.toArray fuel w) h = Ok (leaves (VArr xs)) h') ∧
     Forall (λ v, holds (isAsyncIterable v) = false ∧ holds (isIterable v) = false)
            (leaves (VArr xs))).
Proof.
  intros Hlt. split; intros Hnest; split.
  - destruct (sync_flat_array xs h fuel Hnest Hlt) as (h' & H & _). eauto.
  - eapply Forall_impl; [by apply (leaves_are_leaves Sync) |].
    intros v Hv. simpl in Hv. by apply negb_true_iff in Hv.
  - intros a Ha. destruct (async_flat_gen a xs h fuel Ha Hnest Hlt) as (h' & H & _). eauto.
  - eapply Forall_impl; [by apply (leaves_are_leaves Async) |].
    intros v Hv. simpl in Hv. apply andb_true_iff in Hv as [H1 H2].
    by apply negb_true_iff in H1, H2.
Qed.

Lemma flat_depth_first_witness :
  ∃ h', (w0 ← FluentIterable.constructor (VArr mixed_depths);
         w ← FluentIterable.flat w0;
         FluentIterable.toArray 23 w) empty_heap
        = Ok [num 1; num 2; num 3; num 4; num 7] h'.
Proof.
  destruct (flat_depth_first mixed_depths empty_heap 23) as [H _]; [simpl; lia |].
  destruct H as [H _]; [reflexivity |]. exact H.
Defined.

Lemma leaf_not_array m v :
  flat_leaf m v = true → nested m v = true ∧ leaves v = [v] ∧ size v = 1.
Proof. destruct v; try done. by destruct m. Qed.

Lemma leaf_list m ys :
  Forall (λ v, flat_leaf m v = true) ys →
  forallb (nested m) ys = true ∧ concat (List.map leaves ys) = ys ∧
  list_sum (List.map size ys) = length ys.
Proof.
  induction 1 as [|y ys Hy _ (IH1 & IH2 & IH3)]; [done |].
  destruct (leaf_not_array m y Hy) as (H1 & H2 & H3). simpl.
  by rewrite H1, H2, H3, IH1, IH2, IH3.
Qed.

(** C6: the asynchronous [flat] descends into an element that either
    classifier accepts, through the asynchronous iterator if it has one and
    else through the synchronous one, so that an array inside an
    asynchronous sequence is flattened; the synchronous [flat] descends into
    an element exactly when [isIterable] accepts it, so that an element
    which is only asynchronously enumerable is yielded as it is. *)
Theorem flat_capability_asymmetry (h : heap) :
  (∀ v, isAsyncIterable v = Val true →
     flat_classify Async v h = (c ← iterator_of SymAsyncIterator v; ret (Some c)) h) ∧
  (∀ v, isAsyncIterable v = Val false → isIterable v = Val true →
     flat_classify Async v h = (c ← iterator_of SymIterator v; ret (Some c)) h) ∧
  (∀ v, isIterable v = Val true →
     flat_classify Sync v h = (c ← iterator_of SymIterator v; ret (Some c)) h) ∧
  (∀ v, isIterable v = Val false → flat_classify Sync v h = Ok None h) ∧
  (∀ a ys fuel,
     gens h !! a = Some (GItems [VArr ys]) →
     Forall (λ v, flat_leaf Async v = true) ys →
     2 * length ys + 8 < fuel →
     ∃ h', (w0 ← FluentAsyncIterable.constructor (VAsyncGen a);
            w ← FluentAsyncIterable.flat w0;
            FluentAsyncIterable.toArray fuel w) h = Ok ys h') ∧
  (∀ v fuel,
     isAsyncIterable v = Val true → isIterable v = Val false → 6 < fuel →
     ∃ h', (w0 ← FluentIterable.constructor (VArr [v]);
            w ← FluentIterable.flat w0;
            FluentIterable.toArray fuel w) h = Ok [v] h').
Proof.
  split_and!.
  - intros v E. unfold flat_classify. by rewrite E.
  - intros v E1 E2. unfold flat_classify. by rewrite E1, lift_val, E2.
  - intros v E. unfold flat_classify. by rewrite E.
  - intros v E. unfold flat_classify. by rewrite E.
  - intros a ys fuel Ha Hleaf Hlt.
    destruct (leaf_list Async ys Hleaf) as (Hn & Hl & Hs).
    destruct (async_flat_gen a [VArr ys] h fuel Ha) as (h' & H & _).
    + simpl. by rewrite Hn.
    + rewrite !size_array. simpl. rewrite Hs. lia.
    + exists h'. rewrite H. simpl. by rewrite app_nil_r, Hl.
  - intros v fuel _ E Hlt.
    assert (flat_leaf Sync v = true) as Hleaf by (simpl; by rewrite E).
    destruct (leaf_not_array Sync v Hleaf) as (Hn & Hl & Hs).
    destruct (sync_flat_array [v] h fuel) as (h' & H & _).
    + simpl. by rewrite Hn.
    + rewrite size_array. simpl. rewrite Hs. lia.
    + exists h'. rewrite H. simpl. by rewrite Hl.
Qed.

Lemma flat_capability_asymmetry_witness :
  (∃ h', (w0 ← FluentAsyncIterable.constructor (VAsyncGen 0);
          w ← FluentAsyncIterable.flat w0;
          FluentAsyncIterable.toArray 13 w)
           (heap_with_gen (GItems [VArr [num 2; num 3]]))
         = Ok [num 2; num 3] h') ∧
  (∃ h', (w0 ← FluentIterable.constructor (VArr [VAsyncGen 0]);
          w ← FluentIterable.flat w0;
          FluentIterable.toArray 7 w)
           (heap_with_gen (GItems [num 2; num 3]))
         = Ok [VAsyncGen 0] h').
Proof.
  split.
  - destruct (flat_capability_asymmetry (heap_with_gen (GItems [VArr [num 2; num 3]])))
      as (_ & _ & _ & _ & H & _).
    apply (H 0 [num 2; num 3] 13);
      [vm_compute; reflexivity | repeat constructor | simpl; lia].
  - destruct (flat_capability_asymmetry (heap_with_gen (GItems [num 2; num 3])))
      as (_ & _ & _ & _ & _ & H).
    apply (H (VAsyncGen 0) 7); [reflexivity | reflexivity | lia].
Defined.

(** ** Strings under [flat]

    The iterator of a one-character string produces that same string, which
    the classifier accepts again: the stack grows at each iteration and no
    element is ever yielded. *)
Lemma flat_string_never_yields fuel m g ch :
  ∀ rest h,
    gens h !! g = Some (GFlat m (CStr (String ch "") :: rest)) →
    resume fuel g h = OutOfFuel.
Proof.
  induction fuel as [|fuel IH]; intros rest h Hg; [done |].
  cbn [resume]. read_frame Hg. cbn [next_with].
  erewrite bind_ok by reflexivity. cbv beta iota.
  erewrite bind_ok by apply flat_classify_string.
  replace (String.eqb (String ch "") "") with false by done. cbv beta iota.
  erewrite bind_ok by reflexivity.
  eapply IH. apply lookup_insert_eq.
Qed.

Lemma flat_nonempty_string_never_yields fuel m g ch s :
  ∀ rest h,
    gens h !! g = Some (GFlat m (CStr (String ch s) :: rest)) →
    resume fuel g h = OutOfFuel.
Proof.
  intros rest h Hg. destruct fuel as [|fuel]; [done |].
  cbn [resume]. read_frame Hg. cbn [next_with].
  erewrite bind_ok by reflexivity. cbv beta iota.
  erewrite bind_ok by apply flat_classify_string.
  replace (String.eqb (String ch "") "") with false by done. cbv beta iota.
  erewrite bind_ok by reflexivity.
  eapply flat_string_never_yields. apply lookup_insert_eq.
Qed.

Lemma collect_out_of_fuel g h :
  (∀ fuel, resume fuel g h = OutOfFuel) →
  ∀ fuel arr, collect fuel (CGen g) arr h = OutOfFuel.
Proof.
  intros H [|fuel] arr; [done |]. cbn [collect next_with]. munfold. by rewrite H.
Qed.

(** [new FluentIterable([s]).flat().toArray()] for a string [s] that is not
    empty: no amount of fuel gives a result. *)
Lemma flat_of_string_diverges fuel ch s h :
  (w0 ← FluentIterable.constructor (VArr [VStr (String ch s)]);
   w ← FluentIterable.flat w0;
   FluentIterable.toArray fuel w) h = OutOfFuel.
Proof.
  erewrite bind_ok by reflexivity.
  erewrite bind_ok by apply sync_stage_wrapper.
  rewrite sync_toArray_gen. apply collect_out_of_fuel. clear fuel.
  intros [|fuel]; [done |].
  erewrite resume_start; [| apply lookup_insert_eq | reflexivity].
  destruct fuel as [|fuel]; [done |].
  cbn [resume].
  erewrite bind_ok by (unfold read_gen; simpl; rewrite lookup_insert_eq; reflexivity).
  cbv beta iota. cbn [next_with]. erewrite bind_ok by reflexivity. cbv beta iota.
  erewrite bind_ok by apply flat_classify_string.
  replace (String.eqb (String ch s) "") with false by done. cbv beta iota.
  erewrite bind_ok by reflexivity.
  eapply flat_nonempty_string_never_yields. apply lookup_insert_eq.
Qed.

(** C1, as the specification states it, fails: the classifier accepts the
    string ["ab"], and [flat] does not yield it but pushes a cursor over its
    characters; materialising the flattened sequence gives no result. *)
Lemma flat_descends_into_string :
  isIterable (VStr "ab") = Val true ∧
  flat_classify Sync (VStr "ab") empty_heap = Ok (Some (CStr "ab")) empty_heap ∧
  flat_classify Async (VStr "ab") empty_heap = Ok (Some (CStr "ab")) empty_heap ∧
  flat_classify Sync (VStr "ab") empty_heap ≠ Ok None empty_heap ∧
  (w0 ← FluentIterable.constructor (VArr [VStr "ab"]);
   w ← FluentIterable.flat w0;
   FluentIterable.toArray 64 w) empty_heap = OutOfFuel.
Proof. split_and!; [done.. | apply flat_of_string_diverges]. Qed.

(** C1 (amended): the classifier does not exclude primitive strings.  It
    accepts every string but the empty one, and both variants of [flat]
    yield a string element as a leaf only when it is the empty string; any
    other string element is descended into through its string iterator. *)
Theorem flat_string_elements (s : string) :
  isIterable (VStr s) = Val (negb (String.eqb s "")) ∧
  isAsyncIterable (VStr s) = Val false ∧
  ∀ m h, flat_classify m (VStr s) h =
         Ok (if String.eqb s "" then None else Some (CStr s)) h.
Proof.
  split_and!; [apply isIterable_string | | intros; apply flat_classify_string].
  unfold isAsyncIterable. rewrite has_method_spec. simpl. by rewrite andb_false_r.
Qed.

(** * Pipelines *)

(** ** Footprints *)

Lemma same_on_refl F h : same_on F h h.
Proof. by intros a _. Qed.

Lemma same_on_trans F h1 h2 h3 :
  same_on F h1 h2 → same_on F h2 h3 → same_on F h1 h3.
Proof. intros H1 H2 a Ha. by rewrite H2, H1. Qed.

Lemma same_on_subseteq F F' h h' : F ⊆ F' → same_on F' h h' → same_on F h h'.
Proof. intros Hs H a Ha. apply H. set_solver. Qed.

Lemma same_off_refl F h : same_off F h h.
Proof. by repeat split. Qed.

Lemma same_off_trans F h1 h2 h3 :
  same_off F h1 h2 → same_off F h2 h3 → same_off F h1 h3.
Proof.
  intros (F1 & C1 & G1) (F2 & C2 & G2). repeat split; [congruence.. |].
  intros a Ha. by rewrite G2, G1.
Qed.

Lemma same_off_subseteq F F' h h' : F ⊆ F' → same_off F h h' → same_off F' h h'.
Proof.
  intros Hs (F1 & C1 & G1). repeat split; [done.. |].
  intros a Ha. apply G1. set_solver.
Qed.

Lemma same_off_on F F' h h' : F ## F' → same_off F h h' → same_on F' h h'.
Proof. intros Hd (_ & _ & G) a Ha. apply G. set_solver. Qed.

Lemma same_off_write F g fr h :
  g ∈ F → same_off F h (Heap (funs h) (<[g := fr]> (gens h)) (calls h)).
Proof.
  intros Hg. repeat split; simpl. intros a Ha.
  rewrite lookup_insert_ne; [done |]. by intros ->.
Qed.

Lemma same_on_write F g fr h :
  g ∉ F → same_on F h (Heap (funs h) (<[g := fr]> (gens h)) (calls h)).
Proof.
  intros Hg a Ha. simpl. rewrite lookup_insert_ne; [done |]. by intros ->.
Qed.

Lemma agree_off_same_off o F h h' :
  (∀ a, o = Some a → a ∈ F) → agree_off o h h' → same_off F h h'.
Proof.
  intros Ho (F1 & C1 & G1). repeat split; [done.. |].
  intros a Ha. apply G1. intros E. apply Ha. by apply Ho.
Qed.

(** ** Streams *)

Lemma stream_frame F xs h h1 c : stream F xs h c → same_on F h h1 → stream F xs h1 c.
Proof.
  intros Hs H1. destruct xs; intros h0 H0; apply Hs; by eapply same_on_trans.
Qed.

Lemma stream_subseteq F F' xs h c : F ⊆ F' → stream F xs h c → stream F' xs h c.
Proof.
  intros Hsub. revert h c. induction xs as [|x xs IH]; intros h c Hs h0 H0.
  - destruct (Hs h0) as (n & c' & h' & Hn & Ho & _); [by eapply same_on_subseteq |].
    exists n, c', h'. split_and!; [done | by eapply same_off_subseteq | done].
  - destruct (Hs h0) as (n & c' & h' & Hn & Ho & Hc); [by eapply same_on_subseteq |].
    exists n, c', h'. split_and!; [done | by eapply same_off_subseteq | by apply IH].
Qed.

Lemma feeds_stream F xs :
  ∀ h c, feeds h c xs → (∀ a, owner c = Some a → a ∈ F) → stream F xs h c.
Proof.
  induction xs as [|x xs IH]; intros h c Hf Ho h0 H0.
  - assert (feeds h0 c []) as Hf0.
    { eapply feeds_frame; [done |]. intros a Ha. apply H0. by apply Ho. }
    destruct (next_feeds h0 c [] Hf0) as (c' & h' & Hn & _ & _ & Ha).
    exists 1, c', h'. split_and!; [| by eapply agree_off_same_off | done].
    intros [|fuel] Hfuel; [lia | apply Hn].
  - assert (feeds h0 c (x :: xs)) as Hf0.
    { eapply feeds_frame; [done |]. intros a Ha. apply H0. by apply Ho. }
    destruct (next_feeds h0 c _ Hf0) as (c' & h' & Hn & Hf' & Ho' & Ha).
    exists 1, c', h'. split_and!; [| by eapply agree_off_same_off |].
    + intros [|fuel] Hfuel; [lia | apply Hn].
    + apply IH; [done |]. rewrite Ho'. done.
Qed.

Lemma next_gen_inv fuel g h r c' h' :
  next fuel (CGen g) h = Ok (r, c') h' → c' = CGen g ∧ resume fuel g h = Ok r h'.
Proof.
  cbn [next_with]. intros H. apply bind_inv in H as (r0 & h1 & Hr & H).
  cbv beta delta [ret] in H. by injection H as -> -> ->.
Qed.

Lemma next_gen fuel g h r h' :
  resume fuel g h = Ok r h' → next fuel (CGen g) h = Ok (r, CGen g) h'.
Proof. intros H. cbn [next_with]. by erewrite bind_ok by exact H. Qed.

(** Materialising a stream. *)
Lemma stream_collect F xs :
  ∀ h c, stream F xs h c →
    ∃ n h', (∀ fuel arr, n ≤ fuel → collect fuel c arr h = Ok (arr ++ xs) h') ∧
            same_off F h h'.
Proof.
  induction xs as [|x xs IH]; intros h c Hs.
  - destruct (Hs h (same_on_refl _ _)) as (n & c' & h' & Hn & Ho & _).
    exists (S n), h'. split; [|done]. intros fuel arr Hfuel.
    destruct fuel as [|fuel]; [lia |]. cbn [collect].
    erewrite bind_ok by (apply Hn; lia). cbn [head]. cbv beta iota.
    by rewrite app_nil_r.
  - destruct (Hs h (same_on_refl _ _)) as (n & c' & h1 & Hn & Ho & Hc).
    destruct (IH h1 c' Hc) as (n' & h' & Hcol & Ho').
    exists (S (n `max` n')), h'. split; [|by eapply same_off_trans].
    intros fuel arr Hfuel.
    destruct fuel as [|fuel]; [lia |]. cbn [collect].
    erewrite bind_ok by (apply Hn; lia). cbn [head]. cbv beta iota.
    rewrite Hcol by lia. by rewrite <- app_assoc.
Qed.

(** ** The stage generators over a stream *)

Lemma same_on_lookup F g h h0 fr :
  g ∈ F → same_on F h h0 → gens h !! g = Some fr → gens h0 !! g = Some fr.
Proof. intros Hg H0 E. by rewrite (H0 g Hg). Qed.

Lemma same_off_lookup F g h h1 fr :
  g ∉ F → same_off F h h1 → gens h !! g = Some fr → gens h1 !! g = Some fr.
Proof. intros Hg (_ & _ & G) E. by rewrite (G g Hg). Qed.

Lemma stream_map g fn F xs :
  ∀ ys h c,
    gens h !! g = Some (GMap fn c) → g ∉ F →
    stream F xs h c → res_map fn xs = Val ys →
    stream ({[g]} ∪ F) ys h (CGen g).
Proof.
  induction xs as [|x xs IH]; intros ys h c Hg HgF Hs Hm.
  - injection Hm as <-. intros h0 H0.
    destruct (Hs h0) as (n & c1 & h1 & Hn & Ho & _);
      [eapply same_on_subseteq; [|done]; set_solver |].
    assert (gens h0 !! g = Some (GMap fn c)) as Hg0
      by (eapply same_on_lookup; [|done..]; set_solver).
    exists (S n), (CGen g). eexists. split_and!; [| | done].
    + intros fuel Hfuel. destruct fuel as [|fuel]; [lia |].
      apply next_gen. cbn [resume]. read_frame Hg0.
      erewrite bind_ok by (apply Hn; lia). cbn [head]. cbv beta iota.
      unfold finish. munfold. reflexivity.
    + eapply same_off_trans; [eapply same_off_subseteq; [|exact Ho]; set_solver |].
      apply same_off_write. set_solver.
  - simpl in Hm. destruct (fn x) as [y|e] eqn:Hy; [|done]. simpl in Hm.
    destruct (res_map fn xs) as [ys'|e] eqn:Hys; [|done]. injection Hm as <-.
    intros h0 H0.
    destruct (Hs h0) as (n & c1 & h1 & Hn & Ho & Hc);
      [eapply same_on_subseteq; [|done]; set_solver |].
    assert (gens h0 !! g = Some (GMap fn c)) as Hg0
      by (eapply same_on_lookup; [|done..]; set_solver).
    set (h2 := Heap (funs h1) (<[g := GMap fn c1]> (gens h1)) (calls h1)).
    exists (S n), (CGen g), h2. split_and!.
    + intros fuel Hfuel. destruct fuel as [|fuel]; [lia |].
      apply next_gen. cbn [resume]. read_frame Hg0.
      erewrite bind_ok by (apply Hn; lia). cbn [head]. cbv beta iota.
      rewrite Hy, lift_val. unfold yield. munfold. reflexivity.
    + eapply same_off_trans; [eapply same_off_subseteq; [|exact Ho]; set_solver |].
      apply same_off_write. set_solver.
    + eapply IH; [apply lookup_insert_eq | done | | done].
      eapply stream_frame; [exact Hc |]. by apply same_on_write.
Qed.

(** The loop [for (const x of a) yield x], in which [concat] is after its
    first sequence has ended. *)
Lemma stream_concat2 g F xs :
  ∀ h c,
    gens h !! g = Some (GConcat2 c) → g ∉ F →
    stream F xs h c → stream ({[g]} ∪ F) xs h (CGen g).
Proof.
  induction xs as [|x xs IH]; intros h c Hg HgF Hs h0 H0.
  - destruct (Hs h0) as (n & c1 & h1 & Hn & Ho & _);
      [eapply same_on_subseteq; [|done]; set_solver |].
    assert (gens h0 !! g = Some (GConcat2 c)) as Hg0
      by (eapply same_on_lookup; [|done..]; set_solver).
    exists (S n), (CGen g). eexists. split_and!; [| | done].
    + intros fuel Hfuel. destruct fuel as [|fuel]; [lia |].
      apply next_gen. cbn [resume]. read_frame Hg0.
      erewrite bind_ok by (apply Hn; lia). cbn [head]. cbv beta iota.
      unfold finish. munfold. reflexivity.
    + eapply same_off_trans; [eapply same_off_subseteq; [|exact Ho]; set_solver |].
      apply same_off_write. set_solver.
  - destruct (Hs h0) as (n & c1 & h1 & Hn & Ho & Hc);
      [eapply same_on_subseteq; [|done]; set_solver |].
    assert (gens h0 !! g = Some (GConcat2 c)) as Hg0
      by (eapply same_on_lookup; [|done..]; set_solver).
    set (h2 := Heap (funs h1) (<[g := GConcat2 c1]> (gens h1)) (calls h1)).
    exists (S n), (CGen g), h2. split_and!.
    + intros fuel Hfuel. destruct fuel as [|fuel]; [lia |].
      apply next_gen. cbn [resume]. read_frame Hg0.
      erewrite bind_ok by (apply Hn; lia). cbn [head]. cbv beta iota.
      unfold yield. munfold. reflexivity.
    + eapply same_off_trans; [eapply same_off_subseteq; [|exact Ho]; set_solver |].
      apply same_off_write. set_solver.
    + eapply IH; [apply lookup_insert_eq | done |].
      eapply stream_frame; [exact Hc |]. by apply same_on_write.
Qed.

Lemma stream_enumerate g F xs :
  ∀ i h c,
    gens h !! g = Some (GEnumerate i c) → g ∉ F →
    stream F xs h c → stream ({[g]} ∪ F) (indexed i xs) h (CGen g).
Proof.
  induction xs as [|x xs IH]; intros i h c Hg HgF Hs h0 H0.
  - destruct (Hs h0) as (n & c1 & h1 & Hn & Ho & _);
      [eapply same_on_subseteq; [|done]; set_solver |].
    assert (gens h0 !! g = Some (GEnumerate i c)) as Hg0
      by (eapply same_on_lookup; [|done..]; set_solver).
    exists (S n), (CGen g). eexists. split_and!; [| | done].
    + intros fuel Hfuel. destruct fuel as [|fuel]; [lia |].
      apply next_gen. cbn [resume]. read_frame Hg0.
      erewrite bind_ok by (apply Hn; lia). cbn [head]. cbv beta iota.
      unfold finish. munfold. reflexivity.
    + eapply same_off_trans; [eapply same_off_subseteq; [|exact Ho]; set_solver |].
      apply same_off_write. set_solver.
  - destruct (Hs h0) as (n & c1 & h1 & Hn & Ho & Hc);
      [eapply same_on_subseteq; [|done]; set_solver |].
    assert (gens h0 !! g = Some (GEnumerate i c)) as Hg0
      by (eapply same_on_lookup; [|done..]; set_solver).
    set (h2 := Heap (funs h1) (<[g := GEnumerate (S i) c1]> (gens h1)) (calls h1)).
    exists (S n), (CGen g), h2. split_and!.
    + intros fuel Hfuel. destruct fuel as [|fuel]; [lia |].
      apply next_gen. cbn [resume]. read_frame Hg0.
      erewrite bind_ok by (apply Hn; lia). cbn [head indexed]. cbv beta iota.
      unfold yield. munfold. reflexivity.
    + eapply same_off_trans; [eapply same_off_subseteq; [|exact Ho]; set_solver |].
      apply same_off_write. set_solver.
    + eapply IH; [apply lookup_insert_eq | done |].
      eapply stream_frame; [exact Hc |]. by apply same_on_write.
Qed.

Lemma stream_unfold F xs h c :
  stream F xs h c ↔
  ∀ h0, same_on F h h0 →
    ∃ n c' h',
      (∀ fuel, n ≤ fuel → next fuel c h0 = Ok (head xs, c') h') ∧
      same_off F h0 h' ∧
      ∀ x xs', xs = x :: xs' → stream F xs' h' c'.
Proof.
  destruct xs as [|x xs]; simpl; split; intros H h0 H0;
    destruct (H h0 H0) as (n & c' & h' & Hn & Ho & Hc); exists n, c', h';
    split_and!; try done.
  - by intros ?? [= <- <-].
  - by eapply Hc.
Qed.

(** One step of a stream over a generator object, as a fact about
    [resume]. *)
Lemma stream_resume F xs h g :
  stream F xs h (CGen g) →
  ∃ n h',
    (∀ fuel, n ≤ fuel → resume fuel g h = Ok (head xs) h') ∧
    same_off F h h' ∧
    ∀ x xs', xs = x :: xs' → stream F xs' h' (CGen g).
Proof.
  intros Hs. pose proof (proj1 (stream_unfold _ _ _ _) Hs) as Hu. clear Hs.
  rename Hu into Hs.
  destruct (Hs h (same_on_refl _ _)) as (n & c' & h' & Hn & Ho & Hc).
  destruct (next_gen_inv n g h _ _ _ (Hn n (le_n n))) as [-> _].
  exists n, h'. split_and!; [| done | done].
  intros fuel Hfuel. by destruct (next_gen_inv _ _ _ _ _ _ (Hn fuel Hfuel)).
Qed.

Lemma stream_filter g predicate F xs :
  ∀ ys h c,
    gens h !! g = Some (GFilter predicate c) → g ∉ F →
    stream F xs h c → res_filter predicate xs = Val ys →
    stream ({[g]} ∪ F) ys h (CGen g).
Proof.
  induction xs as [|x xs IH]; intros ys h c Hg HgF Hs Hm.
  - injection Hm as <-. intros h0 H0.
    destruct (Hs h0) as (n & c1 & h1 & Hn & Ho & _);
      [eapply same_on_subseteq; [|done]; set_solver |].
    assert (gens h0 !! g = Some (GFilter predicate c)) as Hg0
      by (eapply same_on_lookup; [|done..]; set_solver).
    exists (S n), (CGen g). eexists. split_and!; [| | done].
    + intros fuel Hfuel. destruct fuel as [|fuel]; [lia |].
      apply next_gen. cbn [resume]. read_frame Hg0.
      erewrite bind_ok by (apply Hn; lia). cbn [head]. cbv beta iota.
      unfold finish. munfold. reflexivity.
    + eapply same_off_trans; [eapply same_off_subseteq; [|exact Ho]; set_solver |].
      apply same_off_write. set_solver.
  - simpl in Hm. destruct (predicate x) as [b|e] eqn:Hb; [|done]. simpl in Hm.
    destruct (res_filter predicate xs) as [ys'|e] eqn:Hys; [|done].
    injection Hm as <-. apply (proj2 (stream_unfold _ _ _ _)). intros h0 H0.
    destruct (Hs h0) as (n & c1 & h1 & Hn & Ho & Hc);
      [eapply same_on_subseteq; [|done]; set_solver |].
    assert (gens h0 !! g = Some (GFilter predicate c)) as Hg0
      by (eapply same_on_lookup; [|done..]; set_solver).
    set (h2 := Heap (funs h1) (<[g := GFilter predicate c1]> (gens h1)) (calls h1)).
    assert (stream ({[g]} ∪ F) ys' h2 (CGen g)) as Hrest.
    { eapply IH; [apply lookup_insert_eq | done | | done].
      eapply stream_frame; [exact Hc |]. by apply same_on_write. }
    assert (same_off ({[g]} ∪ F) h0 h2) as Ho2.
    { eapply same_off_trans; [eapply same_off_subseteq; [|exact Ho]; set_solver |].
      apply same_off_write. set_solver. }
    destruct b.
    + exists (S n), (CGen g), h2. split_and!.
      * intros fuel Hfuel. destruct fuel as [|fuel]; [lia |].
        apply next_gen. cbn [resume]. read_frame Hg0.
        erewrite bind_ok by (apply Hn; lia). cbn [head]. cbv beta iota.
        rewrite Hb, lift_val. unfold yield. munfold. reflexivity.
      * done.
      * by intros ?? [= <- <-].
    + destruct (stream_resume _ _ _ _ Hrest) as (n2 & h' & Hn2 & Ho' & Hc').
      exists (S (n `max` n2)), (CGen g), h'. split_and!.
      * intros fuel Hfuel. destruct fuel as [|fuel]; [lia |].
        apply next_gen. cbn [resume]. read_frame Hg0.
        erewrite bind_ok by (apply Hn; lia). cbn [head]. cbv beta iota.
        rewrite Hb, lift_val. erewrite bind_ok by reflexivity.
        apply Hn2. lia.
      * by eapply same_off_trans.
      * done.
Qed.

Lemma stream_concat g m other c2 F1 F2 xs ys :
  ∀ h c,
    gens h !! g = Some (GConcat1 m c other) →
    (∀ h0, loop_iterator m other h0 = Ok c2 h0) →
    g ∉ F1 → g ∉ F2 → F1 ## F2 →
    stream F1 xs h c → stream F2 ys h c2 →
    stream ({[g]} ∪ F1 ∪ F2) (xs ++ ys) h (CGen g).
Proof.
  intros h c Hg Hother Hg1 Hg2 Hd. revert h c Hg.
  induction xs as [|x xs IH]; intros h c Hg Hs1 Hs2.
  - apply (proj2 (stream_unfold _ _ _ _)). intros h0 H0.
    destruct (Hs1 h0) as (n & c1 & h1 & Hn & Ho & _);
      [eapply same_on_subseteq; [|done]; set_solver |].
    assert (gens h0 !! g = Some (GConcat1 m c other)) as Hg0
      by (eapply same_on_lookup; [|done..]; set_solver).
    set (h2 := Heap (funs h1) (<[g := GConcat2 c2]> (gens h1)) (calls h1)).
    assert (stream ({[g]} ∪ F2) ys h2 (CGen g)) as Hrest.
    { eapply stream_concat2; [apply lookup_insert_eq | done |].
      eapply stream_frame; [exact Hs2 |].
      eapply same_on_trans; [eapply same_on_subseteq; [|exact H0]; set_solver |].
      eapply same_on_trans; [eapply same_off_on; [|exact Ho]; done |].
      by apply same_on_write. }
    destruct (stream_resume _ _ _ _ Hrest) as (n2 & h' & Hn2 & Ho' & Hc').
    exists (S (n `max` n2)), (CGen g), h'. split_and!.
    + intros fuel Hfuel. destruct fuel as [|fuel]; [lia |].
      apply next_gen. cbn [resume]. read_frame Hg0.
      erewrite bind_ok by (apply Hn; lia). cbn [head]. cbv beta iota.
      erewrite bind_ok by apply Hother. erewrite bind_ok by reflexivity.
      apply Hn2. lia.
    + eapply same_off_trans; [eapply same_off_subseteq; [|exact Ho]; set_solver |].
      eapply same_off_trans; [apply (same_off_write _ g); set_solver |].
      eapply same_off_subseteq; [|exact Ho']. set_solver +.
    + intros y ys' E. eapply stream_subseteq; [|by eapply Hc']. set_solver +.
  - intros h0 H0.
    destruct (Hs1 h0) as (n & c1 & h1 & Hn & Ho & Hc);
      [eapply same_on_subseteq; [|done]; set_solver |].
    assert (gens h0 !! g = Some (GConcat1 m c other)) as Hg0
      by (eapply same_on_lookup; [|done..]; set_solver).
    set (h2 := Heap (funs h1) (<[g := GConcat1 m c1 other]> (gens h1)) (calls h1)).
    exists (S n), (CGen g), h2. split_and!.
    + intros fuel Hfuel. destruct fuel as [|fuel]; [lia |].
      apply next_gen. cbn [resume]. read_frame Hg0.
      erewrite bind_ok by (apply Hn; lia). cbn [head app]. cbv beta iota.
      unfold yield. munfold. reflexivity.
    + eapply same_off_trans; [eapply same_off_subseteq; [|exact Ho]; set_solver |].
      apply same_off_write. set_solver.
    + eapply IH; [apply lookup_insert_eq | |].
      * eapply stream_frame; [exact Hc |]. by apply same_on_write.
      * eapply stream_frame; [exact Hs2 |].
        eapply same_on_trans; [eapply same_on_subseteq; [|exact H0]; set_solver |].
        eapply same_on_trans; [eapply same_off_on; [|exact Ho]; done |].
        by apply same_on_write.
Qed.

Lemma stream_zip g F1 F2 xs :
  ∀ ys h ai bi,
    gens h !! g = Some (GZip ai bi) →
    g ∉ F1 → g ∉ F2 → F1 ## F2 →
    stream F1 xs h ai → stream F2 ys h bi →
    stream ({[g]} ∪ F1 ∪ F2) (pairs xs ys) h (CGen g).
Proof.
  induction xs as [|x xs IH]; intros ys h ai bi Hg Hg1 Hg2 Hd Hs1 Hs2;
    apply (proj2 (stream_unfold _ _ _ _)); intros h0 H0.
  - destruct (Hs1 h0) as (n1 & ai1 & h1 & Hn1 & Ho1 & _);
      [eapply same_on_subseteq; [|done]; set_solver |].
    destruct (proj1 (stream_unfold _ _ _ _) Hs2 h1) as (n2 & bi1 & h2 & Hn2 & Ho2 & _).
    { eapply same_on_trans; [eapply same_on_subseteq; [|exact H0]; set_solver |].
      eapply same_off_on; [|exact Ho1]. done. }
    assert (gens h0 !! g = Some (GZip ai bi)) as Hg0
      by (eapply same_on_lookup; [|done..]; set_solver).
    exists (S (n1 `max` n2)), (CGen g). eexists. split_and!.
    + intros fuel Hfuel. destruct fuel as [|fuel]; [lia |].
      apply next_gen. cbn [resume]. read_frame Hg0.
      erewrite bind_ok by (apply Hn1; lia). cbn [head]. cbv beta iota.
      erewrite bind_ok by (apply Hn2; lia). cbv beta iota.
      unfold finish. munfold. reflexivity.
    + eapply same_off_trans; [eapply same_off_subseteq; [|exact Ho1]; set_solver |].
      eapply same_off_trans; [eapply same_off_subseteq; [|exact Ho2]; set_solver |].
      apply same_off_write. set_solver.
    + done.
  - destruct (Hs1 h0) as (n1 & ai1 & h1 & Hn1 & Ho1 & Hc1);
      [eapply same_on_subseteq; [|done]; set_solver |].
    destruct (proj1 (stream_unfold _ _ _ _) Hs2 h1) as (n2 & bi1 & h2 & Hn2 & Ho2 & Hc2).
    { eapply same_on_trans; [eapply same_on_subseteq; [|exact H0]; set_solver |].
      eapply same_off_on; [|exact Ho1]. done. }
    assert (gens h0 !! g = Some (GZip ai bi)) as Hg0
      by (eapply same_on_lookup; [|done..]; set_solver).
    destruct ys as [|y ys].
    + exists (S (n1 `max` n2)), (CGen g). eexists. split_and!.
      * intros fuel Hfuel. destruct fuel as [|fuel]; [lia |].
        apply next_gen. cbn [resume]. read_frame Hg0.
        erewrite bind_ok by (apply Hn1; lia). cbn [head]. cbv beta iota.
        erewrite bind_ok by (apply Hn2; lia). cbv beta iota.
        unfold finish. munfold. reflexivity.
      * eapply same_off_trans; [eapply same_off_subseteq; [|exact Ho1]; set_solver |].
        eapply same_off_trans; [eapply same_off_subseteq; [|exact Ho2]; set_solver |].
        apply same_off_write. set_solver.
      * done.
    + set (h3 := Heap (funs h2) (<[g := GZip ai1 bi1]> (gens h2)) (calls h2)).
      exists (S (n1 `max` n2)), (CGen g), h3. split_and!.
      * intros fuel Hfuel. destruct fuel as [|fuel]; [lia |].
        apply next_gen. cbn [resume]. read_frame Hg0.
        erewrite bind_ok by (apply Hn1; lia). cbn [head]. cbv beta iota.
        erewrite bind_ok by (apply Hn2; lia). cbv beta iota.
        unfold yield. munfold. reflexivity.
      * eapply same_off_trans; [eapply same_off_subseteq; [|exact Ho1]; set_solver |].
        eapply same_off_trans; [eapply same_off_subseteq; [|exact Ho2]; set_solver |].
        apply same_off_write. set_solver.
      * intros p ps [= <- <-]. eapply IH; [apply lookup_insert_eq | done.. | |].
        -- eapply stream_frame; [exact Hc1 |].
           eapply same_on_trans; [eapply same_off_on; [|exact Ho2]; done |].
           by apply same_on_write.
        -- eapply stream_frame; [by eapply Hc2 |]. by apply same_on_write.
Qed.

(** A generator object suspended at its start, when the first part of its
    body gives the same frame in every heap. *)
Lemma stream_start g m st fr F ys h :
  gens h !! g = Some (GStart m st) → g ∈ F →
  (∀ h0, start m st h0 = Ok fr h0) →
  stream F ys (Heap (funs h) (<[g := fr]> (gens h)) (calls h)) (CGen g) →
  stream F ys h (CGen g).
Proof.
  intros Hg HgF Hst Hs. apply (proj2 (stream_unfold _ _ _ _)). intros h0 H0.
  set (h1 := Heap (funs h0) (<[g := fr]> (gens h0)) (calls h0)).
  assert (stream F ys h1 (CGen g)) as Hs1.
  { eapply stream_frame; [exact Hs |]. intros a Ha. simpl.
    destruct (decide (g = a)) as [->|Hne].
    - by rewrite !lookup_insert_eq.
    - rewrite !lookup_insert_ne by done. by apply H0. }
  destruct (stream_resume _ _ _ _ Hs1) as (n & h' & Hn & Ho & Hc).
  exists (S n), (CGen g), h'. split_and!; [| | done].
  - intros fuel Hfuel. destruct fuel as [|fuel]; [lia |]. apply next_gen.
    erewrite resume_start; [| by eapply same_on_lookup | apply Hst].
    apply Hn. lia.
  - eapply same_off_trans; [|exact Ho]. by apply same_off_write.
Qed.

(** ** Chains of transformations *)

Lemma chain_source_cursor m h v xs :
  chain_source m h v xs →
  ∃ F c, stream F xs h c ∧ F ⊆ dom (gens h) ∧
         (∀ h0, loop_iterator m v h0 = Ok c h0) ∧
         (∀ h0, iterator_of (mode_symbol m) v h0 = Ok c h0).
Proof.
  intros [xs' ->|g F xs' Hs HF].
  - exists ∅, (CArr xs' 0). split_and!; [| set_solver | done | done].
    apply feeds_stream; [apply feeds_array_0 | done].
  - exists F, (CGen g). split_and!; [done | done | by destruct m | by destruct m].
Qed.

Lemma array_loop_iterator m os h : loop_iterator m (VArr os) h = Ok (CArr os 0) h.
Proof. by destruct m. Qed.

Lemma fresh_gen_not_in (h : heap) F : F ⊆ dom (gens h) → fresh (dom (gens h)) ∉ F.
Proof. intros HF Hin. apply (is_fresh (dom (gens h))). by apply HF. Qed.

Lemma staged_same_on m st fr h F :
  F ⊆ dom (gens h) →
  same_on F h
    (Heap (funs (staged m st h))
          (<[fresh (dom (gens h)) := fr]> (gens (staged m st h)))
          (calls (staged m st h))).
Proof.
  intros HF a Ha. simpl.
  assert (fresh (dom (gens h)) ≠ a) as Hne.
  { intros <-. by eapply fresh_gen_not_in. }
  by rewrite !lookup_insert_ne.
Qed.

(** One more method call in a chain. *)
Lemma chain_step m h v xs tr ys :
  chain_source m h v xs → eager m tr xs = Some ys →
  chain_source m (staged m (stage_of v tr) h) (gen_value m (fresh (dom (gens h)))) ys.
Proof.
  intros Hsrc He.
  destruct (chain_source_cursor m h v xs Hsrc) as (F & c & Hs & HF & Hloop & Hdirect).
  set (g := fresh (dom (gens h))). set (st := stage_of v tr).
  assert (g ∉ F) as HgF by by apply fresh_gen_not_in.
  assert (∀ fr, stream F xs
            (Heap (funs (staged m st h)) (<[g := fr]> (gens (staged m st h)))
                  (calls (staged m st h))) c) as Hs'.
  { intros fr. eapply stream_frame; [exact Hs |]. by apply staged_same_on. }
  assert (∀ F', F' ⊆ {[g]} ∪ F → F' ⊆ dom (gens (staged m st h))) as Hdom.
  { intros F' HF'. simpl. rewrite dom_insert_L. fold g. set_solver. }
  destruct tr as [fn|predicate|other| | |other]; simpl in He.
  - destruct (res_map fn xs) as [ys'|] eqn:Hm; [|done]. injection He as <-.
    apply chain_source_gen with (F := {[g]} ∪ F); [|by apply Hdom].
    eapply (stream_start g m st (GMap fn c)); [apply lookup_insert_eq | set_solver | |].
    { intros h0. simpl. by erewrite bind_ok by apply Hloop. }
    eapply stream_map; [apply lookup_insert_eq | done | apply Hs' | done].
  - destruct (res_filter predicate xs) as [ys'|] eqn:Hm; [|done]. injection He as <-.
    apply chain_source_gen with (F := {[g]} ∪ F); [|by apply Hdom].
    eapply (stream_start g m st (GFilter predicate c));
      [apply lookup_insert_eq | set_solver | |].
    { intros h0. simpl. by erewrite bind_ok by apply Hloop. }
    eapply stream_filter; [apply lookup_insert_eq | done | apply Hs' | done].
  - destruct other as [| | | | |os| | | | |]; try done. injection He as <-.
    apply chain_source_gen with (F := {[g]} ∪ F ∪ ∅); [|apply Hdom; set_solver].
    eapply (stream_start g m st (GConcat1 m c (VArr os)));
      [apply lookup_insert_eq | set_solver | |].
    { intros h0. simpl. by erewrite bind_ok by apply Hloop. }
    eapply stream_concat;
      [apply lookup_insert_eq | apply array_loop_iterator | done | set_solver
      | set_solver | apply Hs' |].
    apply feeds_stream; [apply feeds_array_0 | done].
  - done.
  - injection He as <-.
    apply chain_source_gen with (F := {[g]} ∪ F); [|by apply Hdom].
    eapply (stream_start g m st (GEnumerate 0 c));
      [apply lookup_insert_eq | set_solver | |].
    { intros h0. simpl. by erewrite bind_ok by apply Hloop. }
    eapply stream_enumerate; [apply lookup_insert_eq | done | apply Hs'].
  - destruct other as [| | | | |os| | | | |]; try done.
    destruct m; [|done]. injection He as <-.
    apply chain_source_gen with (F := {[g]} ∪ F ∪ ∅); [|apply Hdom; set_solver].
    eapply (stream_start g Sync st (GZip c (CArr os 0)));
      [apply lookup_insert_eq | set_solver | |].
    { intros h0. simpl. erewrite bind_ok by apply Hdirect. done. }
    eapply stream_zip;
      [apply lookup_insert_eq | done | set_solver | set_solver | apply Hs' |].
    apply feeds_stream; [apply feeds_array_0 | done].
Qed.

Lemma sync_chain_source trs :
  ∀ w h xs ys,
    chain_source Sync h (FluentIterable.input w) xs →
    eager_chain Sync trs xs = Some ys →
    ∃ w' h1, sync_chain w trs h = Ok w' h1 ∧
             chain_source Sync h1 (FluentIterable.input w') ys.
Proof.
  induction trs as [|tr trs IH]; intros w h xs ys Hsrc He; simpl in He.
  - injection He as <-. by exists w, h.
  - destruct (eager Sync tr xs) as [zs|] eqn:Hz; [|done].
    pose proof (chain_step Sync h _ xs tr zs Hsrc Hz) as Hstep.
    destruct (IH (FluentIterable.Wrap (VGen (fresh (dom (gens h))))) _ zs ys Hstep He)
      as (w' & h1 & Hrun & Hsrc').
    exists w', h1. split; [|done]. cbn [sync_chain].
    by erewrite bind_ok by apply sync_transform_spec.
Qed.

Lemma async_chain_source trs :
  ∀ w h xs ys,
    chain_source Async h (FluentAsyncIterable.input w) xs →
    eager_chain Async trs xs = Some ys →
    ∃ w' h1, async_chain w trs h = Ok w' h1 ∧
             chain_source Async h1 (FluentAsyncIterable.input w') ys.
Proof.
  induction trs as [|tr trs IH]; intros w h xs ys Hsrc He; simpl in He.
  - injection He as <-. by exists w, h.
  - destruct (eager Async tr xs) as [zs|] eqn:Hz; [|done].
    pose proof (chain_step Async h _ xs tr zs Hsrc Hz) as Hstep.
    destruct (IH (FluentAsyncIterable.Wrap (VAsyncGen (fresh (dom (gens h))))) _ zs ys
                Hstep He) as (w' & h1 & Hrun & Hsrc').
    exists w', h1. split; [|done]. cbn [async_chain].
    by erewrite bind_ok by apply async_transform_spec.
Qed.

(** The terminal consumers at the end of a chain. *)
Lemma sync_toArray_source h v xs :
  chain_source Sync h v xs →
  ∃ n h', ∀ fuel, n ≤ fuel →
    FluentIterable.toArray fuel (FluentIterable.Wrap v) h = Ok xs h'.
Proof.
  intros [xs' _|g F xs' Hs HF].
  - exists (length xs' + 2), h. intros fuel Hfuel.
    unfold FluentIterable.toArray, Array_from. simpl.
    erewrite bind_ok by reflexivity. apply collect_array. lia.
  - destruct (stream_collect F xs' h _ Hs) as (n & h' & Hc & _).
    exists n, h'. intros fuel Hfuel. rewrite sync_toArray_gen. by apply (Hc fuel []).
Qed.

Lemma async_toArray_source h v xs :
  chain_source Async h v xs →
  ∃ n h', ∀ fuel, n ≤ fuel →
    FluentAsyncIterable.toArray fuel (FluentAsyncIterable.Wrap v) h = Ok xs h'.
Proof.
  intros [xs' [=]|g F xs' Hs HF].
  destruct (stream_collect F xs' h _ Hs) as (n & h' & Hc & _).
  exists n, h'. intros fuel Hfuel. rewrite async_toArray_gen. by apply (Hc fuel []).
Qed.

Lemma async_root_source h a xs :
  gens h !! a = Some (GItems xs) → chain_source Async h (VAsyncGen a) xs.
Proof.
  intros Ha. apply (chain_source_gen Async h a {[a]}).
  - apply feeds_stream; [by apply feeds_items | simpl; set_solver].
  - apply singleton_subseteq_l. apply elem_of_dom. by eexists.
Qed.

Lemma sync_transform_toArray tr xs ys h :
  eager Sync tr xs = Some ys →
  ∃ n h', ∀ fuel, n ≤ fuel →
    (w0 ← FluentIterable.constructor (VArr xs);
     w ← sync_transform w0 tr;
     FluentIterable.toArray fuel w) h = Ok ys h'.
Proof.
  intros He.
  pose proof (chain_step Sync h (VArr xs) xs tr ys
                (chain_source_array Sync h xs eq_refl) He) as Hsrc.
  destruct (sync_toArray_source _ _ _ Hsrc) as (n & h' & Hrun).
  exists n, h'. intros fuel Hfuel.
  erewrite bind_ok by reflexivity.
  erewrite bind_ok by apply sync_transform_spec. by apply Hrun.
Qed.

Lemma async_transform_toArray tr xs ys a h :
  gens h !! a = Some (GItems xs) → eager Async tr xs = Some ys →
  ∃ n h', ∀ fuel, n ≤ fuel →
    (w0 ← FluentAsyncIterable.constructor (VAsyncGen a);
     w ← async_transform w0 tr;
     FluentAsyncIterable.toArray fuel w) h = Ok ys h'.
Proof.
  intros Ha He.
  pose proof (chain_step Async h (VAsyncGen a) xs tr ys (async_root_source h a xs Ha) He)
    as Hsrc.
  destruct (async_toArray_source _ _ _ Hsrc) as (n & h' & Hrun).
  exists n, h'. intros fuel Hfuel.
  erewrite bind_ok by reflexivity.
  erewrite bind_ok by apply async_transform_spec. by apply Hrun.
Qed.

Lemma res_map_spec fn xs ys :
  res_map fn xs = Val ys →
  length ys = length xs ∧
  ∀ i x, xs !! i = Some x → ∃ y, fn x = Val y ∧ ys !! i = Some y.
Proof.
  revert ys. induction xs as [|x xs IH]; intros ys Hm; simpl in Hm.
  - injection Hm as <-. by split.
  - destruct (fn x) as [y|] eqn:Hy; [|done]. simpl in Hm.
    destruct (res_map fn xs) as [ys'|]; [|done]. injection Hm as <-.
    destruct (IH ys' eq_refl) as [Hl Hi]. split; [simpl; by rewrite Hl |].
    intros [|i] x'; simpl; [intros [= <-]; eauto | apply Hi].
Qed.

Lemma res_filter_total predicate (q : value → bool) xs :
  (∀ x, x ∈ xs → predicate x = Val (q x)) →
  res_filter predicate xs = Val (List.filter q xs).
Proof.
  induction xs as [|x xs IH]; intros Hp; [done |]. simpl.
  rewrite (Hp x) by by left. simpl. rewrite IH by (intros y Hy; apply Hp; by right).
  simpl. by destruct (q x).
Qed.

Lemma indexed_spec xs :
  ∀ i, length (indexed i xs) = length xs ∧
       ∀ k x, xs !! k = Some x →
              indexed i xs !! k = Some (VArr [VNum (Z.of_nat (i + k)); x]).
Proof.
  induction xs as [|x xs IH]; intros i; [by split |].
  destruct (IH (S i)) as [Hl Hk]. split; [simpl; by rewrite Hl |].
  intros [|k] x'; simpl.
  - intros [= <-]. by rewrite Nat.add_0_r.
  - intros Hx. rewrite (Hk k x' Hx). by rewrite Nat.add_succ_r.
Qed.

(** X1: [map(fn)], materialised, gives [fn] of each element of the source,
    in order and as many.  The callback may be any function that does not
    throw on these elements. *)
Theorem map_elementwise (fn : value → res value) (xs ys : list value) (h : heap) :
  res_map fn xs = Val ys →
  length ys = length xs ∧
  (∀ i x, xs !! i = Some x → ∃ y, fn x = Val y ∧ ys !! i = Some y) ∧
  (∃ n h', ∀ fuel, n ≤ fuel →
     (w0 ← FluentIterable.constructor (VArr xs);
      w ← FluentIterable.map w0 fn;
      FluentIterable.toArray fuel w) h = Ok ys h') ∧
  (∀ a, gens h !! a = Some (GItems xs) →
     ∃ n h', ∀ fuel, n ≤ fuel →
       (w0 ← FluentAsyncIterable.constructor (VAsyncGen a);
        w ← FluentAsyncIterable.map w0 fn;
        FluentAsyncIterable.toArray fuel w) h = Ok ys h').
Proof.
  intros Hm. destruct (res_map_spec fn xs ys Hm) as [Hl Hi]. split_and!; [done.. | |].
  - apply (sync_transform_toArray (TMap fn) xs ys h). simpl. by rewrite Hm.
  - intros a Ha. apply (async_transform_toArray (TMap fn) xs ys a h); [done |].
    simpl. by rewrite Hm.
Qed.

Lemma map_elementwise_witness :
  ∃ n h', ∀ fuel, n ≤ fuel →
    (w0 ← FluentIterable.constructor (VArr [num 1; num 2; num 7]);
     w ← FluentIterable.map w0 double;
     FluentIterable.toArray fuel w) empty_heap = Ok [num 2; num 4; num 14] h'.
Proof.
  destruct (map_elementwise double [num 1; num 2; num 7] [num 2; num 4; num 14]
              empty_heap) as (_ & _ & H & _); [reflexivity | exact H].
Defined.

(** X2: [filter(predicate)] and [where(predicate)], materialised, give the
    elements of the source that satisfy the predicate, in their order. *)
Theorem filter_keeps_matching (predicate : value → res bool) (q : value → bool)
    (xs : list value) (h : heap) :
  (∀ x, x ∈ xs → predicate x = Val (q x)) →
  (∃ n h', ∀ fuel, n ≤ fuel →
     (w0 ← FluentIterable.constructor (VArr xs);
      w ← FluentIterable.filter w0 predicate;
      FluentIterable.toArray fuel w) h = Ok (List.filter q xs) h') ∧
  (∃ n h', ∀ fuel, n ≤ fuel →
     (w0 ← FluentIterable.constructor (VArr xs);
      w ← FluentIterable.where_ w0 predicate;
      FluentIterable.toArray fuel w) h = Ok (List.filter q xs) h') ∧
  (∀ a, gens h !! a = Some (GItems xs) →
     ∃ n h', ∀ fuel, n ≤ fuel →
       (w0 ← FluentAsyncIterable.constructor (VAsyncGen a);
        w ← FluentAsyncIterable.filter w0 predicate;
        FluentAsyncIterable.toArray fuel w) h = Ok (List.filter q xs) h').
Proof.
  intros Hp. pose proof (res_filter_total predicate q xs Hp) as Hf. split_and!.
  - apply (sync_transform_toArray (TFilter predicate) xs _ h). simpl. by rewrite Hf.
  - apply (sync_transform_toArray (TFilter predicate) xs _ h). simpl. by rewrite Hf.
  - intros a Ha. apply (async_transform_toArray (TFilter predicate) xs _ a h); [done |].
    simpl. by rewrite Hf.
Qed.

Lemma filter_keeps_matching_witness :
  ∃ n h', ∀ fuel, n ≤ fuel →
    (w0 ← FluentIterable.constructor (VArr [num 1; num 7; num 2]);
     w ← FluentIterable.filter w0 below_five;
     FluentIterable.toArray fuel w) empty_heap = Ok [num 1; num 2] h'.
Proof.
  destruct (filter_keeps_matching below_five is_below_five [num 1; num 7; num 2]
              empty_heap) as (H & _); [|exact H].
  intros x Hx. repeat (apply elem_of_cons in Hx as [-> | Hx]; [reflexivity |]).
  by apply elem_of_nil in Hx.
Defined.

(** X3: [enumerate()], materialised, pairs each element with its position,
    counted from 0; behind a [filter] the positions are those in the
    filtered sequence. *)
Theorem enumerate_positions (xs : list value) (h : heap) :
  length (indexed 0 xs) = length xs ∧
  (∀ k x, xs !! k = Some x →
     indexed 0 xs !! k = Some (VArr [VNum (Z.of_nat k); x])) ∧
  (∃ n h', ∀ fuel, n ≤ fuel →
     (w0 ← FluentIterable.constructor (VArr xs);
      w ← FluentIterable.enumerate w0;
      FluentIterable.toArray fuel w) h = Ok (indexed 0 xs) h') ∧
  (∀ a, gens h !! a = Some (GItems xs) →
     ∃ n h', ∀ fuel, n ≤ fuel →
       (w0 ← FluentAsyncIterable.constructor (VAsyncGen a);
        w ← FluentAsyncIterable.enumerate w0;
        FluentAsyncIterable.toArray fuel w) h = Ok (indexed 0 xs) h') ∧
  (∀ predicate (q : value → bool),
     (∀ x, x ∈ xs → predicate x = Val (q x)) →
     ∃ n h', ∀ fuel, n ≤ fuel →
       (w0 ← FluentIterable.constructor (VArr xs);
        w1 ← FluentIterable.filter w0 predicate;
        w ← FluentIterable.enumerate w1;
        FluentIterable.toArray fuel w) h = Ok (indexed 0 (List.filter q xs)) h').
Proof.
  destruct (indexed_spec xs 0) as [Hl Hk]. split_and!; [done | exact Hk | | |].
  - by apply (sync_transform_toArray TEnumerate xs _ h).
  - intros a Ha. by apply (async_transform_toArray TEnumerate xs _ a h).
  - intros predicate q Hp.
    pose proof (chain_step Sync h (VArr xs) xs (TFilter predicate) (List.filter q xs)
                  (chain_source_array Sync h xs eq_refl)) as H1.
    specialize (H1 ltac:(simpl; by rewrite (res_filter_total predicate q xs Hp))).
    pose proof (chain_step Sync _ _ _ TEnumerate _ H1 eq_refl) as H2.
    destruct (sync_toArray_source _ _ _ H2) as (n & h' & Hrun).
    exists n, h'. intros fuel Hfuel.
    erewrite bind_ok by reflexivity.
    erewrite bind_ok by apply (sync_transform_spec _ (TFilter predicate)).
    erewrite bind_ok by apply (sync_transform_spec _ TEnumerate).
    by apply Hrun.
Qed.

(** X4: [concat(other)] with an array, materialised, gives the elements of
    the source followed by those of [other].  The asynchronous class takes a
    plain array there too: its [for await] falls back on the synchronous
    iterator. *)
Theorem concat_appends (xs os : list value) (h : heap) :
  (∃ n h', ∀ fuel, n ≤ fuel →
     (w0 ← FluentIterable.constructor (VArr xs);
      w ← FluentIterable.concat w0 (VArr os);
      FluentIterable.toArray fuel w) h = Ok (xs ++ os) h') ∧
  (∀ a, gens h !! a = Some (GItems xs) →
     ∃ n h', ∀ fuel, n ≤ fuel →
       (w0 ← FluentAsyncIterable.constructor (VAsyncGen a);
        w ← FluentAsyncIterable.concat w0 (VArr os);
        FluentAsyncIterable.toArray fuel w) h = Ok (xs ++ os) h').
Proof.
  split.
  - by apply (sync_transform_toArray (TConcat (VArr os)) xs _ h).
  - intros a Ha. by apply (async_transform_toArray (TConcat (VArr os)) xs _ a h).
Qed.

(** X5: a chain of [map], [filter], [enumerate], [concat] and [zip] calls of
    any length, materialised, gives what the corresponding list functions
    give when applied one after the other: the lazy stages compose. *)
Theorem chain_composes (trs : list transformation) (xs ys : list value) (h : heap) :
  (eager_chain Sync trs xs = Some ys →
     ∃ n h', ∀ fuel, n ≤ fuel →
       (w0 ← FluentIterable.constructor (VArr xs);
        w ← sync_chain w0 trs;
        FluentIterable.toArray fuel w) h = Ok ys h') ∧
  (eager_chain Async trs xs = Some ys →
     ∀ a, gens h !! a = Some (GItems xs) →
       ∃ n h', ∀ fuel, n ≤ fuel →
         (w0 ← FluentAsyncIterable.constructor (VAsyncGen a);
          w ← async_chain w0 trs;
          FluentAsyncIterable.toArray fuel w) h = Ok ys h').
Proof.
  split.
  - intros He.
    destruct (sync_chain_source trs (FluentIterable.Wrap (VArr xs)) h xs ys
                (chain_source_array Sync h xs eq_refl) He) as (w' & h1 & Hrun & Hsrc).
    destruct w' as [v]. destruct (sync_toArray_source _ _ _ Hsrc) as (n & h' & Hto).
    exists n, h'. intros fuel Hfuel.
    erewrite bind_ok by reflexivity. erewrite bind_ok by exact Hrun. by apply Hto.
  - intros He a Ha.
    destruct (async_chain_source trs (FluentAsyncIterable.Wrap (VAsyncGen a)) h xs ys
                (async_root_source h a xs Ha) He) as (w' & h1 & Hrun & Hsrc).
    destruct w' as [v]. destruct (async_toArray_source _ _ _ Hsrc) as (n & h' & Hto).
    exists n, h'. intros fuel Hfuel.
    erewrite bind_ok by reflexivity. erewrite bind_ok by exact Hrun. by apply Hto.
Qed.

Lemma chain_composes_witness :
  ∃ n h', ∀ fuel, n ≤ fuel →
    (w0 ← FluentIterable.constructor (VArr [num 1; num 7; num 2]);
     w ← sync_chain w0 [TFilter below_five; TMap double; TConcat (VArr [num 9]);
                        TEnumerate];
     FluentIterable.toArray fuel w) empty_heap
    = Ok [VArr [num 0; num 2]; VArr [num 1; num 4]; VArr [num 2; num 9]] h'.
Proof.
  destruct (chain_composes
              [TFilter below_five; TMap double; TConcat (VArr [num 9]); TEnumerate]
              [num 1; num 7; num 2]
              [VArr [num 0; num 2]; VArr [num 1; num 4]; VArr [num 2; num 9]]
              empty_heap) as [H _].
  apply H. reflexivity.
Defined.

(** ** [reduce] *)

Lemma stream_reduce reducer F xs :
  ∀ h c current r,
    stream F xs h c → res_fold reducer xs current = Val r →
    ∃ n h', ∀ fuel, n ≤ fuel → reduce_loop fuel reducer c current h = Ok r h'.
Proof.
  induction xs as [|x xs IH]; intros h c current r Hs Hf; simpl in Hf.
  - injection Hf as <-.
    destruct (Hs h (same_on_refl _ _)) as (n & c' & h' & Hn & _ & _).
    exists (S n), h'. intros fuel Hfuel. destruct fuel as [|fuel]; [lia |].
    cbn [reduce_loop]. by erewrite bind_ok by (apply Hn; lia).
  - destruct (reducer current x) as [current'|] eqn:Hr; [|done]. simpl in Hf.
    destruct (Hs h (same_on_refl _ _)) as (n & c' & h1 & Hn & _ & Hc).
    destruct (IH h1 c' current' r Hc Hf) as (n' & h' & Hrest).
    exists (S (n `max` n')), h'. intros fuel Hfuel. destruct fuel as [|fuel]; [lia |].
    cbn [reduce_loop]. erewrite bind_ok by (apply Hn; lia). cbn [head]. cbv beta iota.
    rewrite Hr, lift_val. apply Hrest. lia.
Qed.

Lemma stream_reduce_throws reducer F xs :
  ∀ h c current e,
    stream F xs h c → res_fold reducer xs current = Err e →
    ∃ n, ∀ fuel, n ≤ fuel → reduce_loop fuel reducer c current h = Throw e.
Proof.
  induction xs as [|x xs IH]; intros h c current e Hs Hf; simpl in Hf; [done |].
  destruct (Hs h (same_on_refl _ _)) as (n & c' & h1 & Hn & _ & Hc).
  destruct (reducer current x) as [current'|e'] eqn:Hr; simpl in Hf.
  - destruct (IH h1 c' current' e Hc Hf) as (n' & Hrest).
    exists (S (n `max` n')). intros fuel Hfuel. destruct fuel as [|fuel]; [lia |].
    cbn [reduce_loop]. erewrite bind_ok by (apply Hn; lia). cbn [head]. cbv beta iota.
    rewrite Hr, lift_val. apply Hrest. lia.
  - injection Hf as ->.
    exists (S n). intros fuel Hfuel. destruct fuel as [|fuel]; [lia |].
    cbn [reduce_loop]. erewrite bind_ok by (apply Hn; lia). cbn [head]. cbv beta iota.
    by rewrite Hr.
Qed.

Lemma res_fold_total reducer (f : value → value → value) xs :
  (∀ a x, reducer a x = Val (f a x)) →
  ∀ current, res_fold reducer xs current = Val (fold_left f xs current).
Proof.
  intros Hr. induction xs as [|x xs IH]; intros current; [done |].
  simpl. rewrite Hr. simpl. apply IH.
Qed.

Lemma array_stream h xs : stream ∅ xs h (CArr xs 0).
Proof. apply feeds_stream; [apply feeds_array_0 | done]. Qed.

Lemma items_stream h a xs :
  gens h !! a = Some (GItems xs) → stream {[a]} xs h (CGen a).
Proof. intros Ha. apply feeds_stream; [by apply feeds_items | simpl; set_solver]. Qed.

(** X6: [reduce(reducer, initial)] is the left fold of the source from
    [initial]; over an empty source it is [initial]; and when the reducer
    throws, the error is what [reduce] throws. *)
Theorem reduce_folds_left (reducer : value → value → res value) (xs : list value)
    (initial : value) (h : heap) :
  (∀ f, (∀ a x, reducer a x = Val (f a x)) →
        res_fold reducer xs initial = Val (fold_left f xs initial)) ∧
  (∀ r, res_fold reducer xs initial = Val r →
     (∃ n h', ∀ fuel, n ≤ fuel →
        FluentIterable.reduce fuel (FluentIterable.Wrap (VArr xs)) reducer initial h
        = Ok r h') ∧
     (∀ a, gens h !! a = Some (GItems xs) →
        ∃ n h', ∀ fuel, n ≤ fuel →
          FluentAsyncIterable.reduce fuel (FluentAsyncIterable.Wrap (VAsyncGen a))
            reducer initial h = Ok r h')) ∧
  (∀ e, res_fold reducer xs initial = Err e →
     (∃ n, ∀ fuel, n ≤ fuel →
        FluentIterable.reduce fuel (FluentIterable.Wrap (VArr xs)) reducer initial h
        = Throw e) ∧
     (∀ a, gens h !! a = Some (GItems xs) →
        ∃ n, ∀ fuel, n ≤ fuel →
          FluentAsyncIterable.reduce fuel (FluentAsyncIterable.Wrap (VAsyncGen a))
            reducer initial h = Throw e)) ∧
  (∀ fuel, 1 ≤ fuel →
     FluentIterable.reduce fuel (FluentIterable.Wrap (VArr [])) reducer initial h
     = Ok initial h).
Proof.
  split_and!.
  - intros f Hf. by apply res_fold_total.
  - intros r Hr. split.
    + destruct (stream_reduce reducer ∅ xs h _ initial r (array_stream h xs) Hr)
        as (n & h' & Hrun).
      exists n, h'. intros fuel Hfuel. unfold FluentIterable.reduce.
      erewrite bind_ok by reflexivity. by apply Hrun.
    + intros a Ha.
      destruct (stream_reduce reducer _ xs h _ initial r (items_stream h a xs Ha) Hr)
        as (n & h' & Hrun).
      exists n, h'. intros fuel Hfuel. unfold FluentAsyncIterable.reduce.
      erewrite bind_ok by reflexivity. by apply Hrun.
  - intros e He. split.
    + destruct (stream_reduce_throws reducer ∅ xs h _ initial e (array_stream h xs) He)
        as (n & Hrun).
      exists n. intros fuel Hfuel. unfold FluentIterable.reduce.
      erewrite bind_ok by reflexivity. by apply Hrun.
    + intros a Ha.
      destruct (stream_reduce_throws reducer _ xs h _ initial e (items_stream h a xs Ha)
                  He) as (n & Hrun).
      exists n. intros fuel Hfuel. unfold FluentAsyncIterable.reduce.
      erewrite bind_ok by reflexivity. by apply Hrun.
  - intros [|fuel] Hfuel; [lia | done].
Qed.

Lemma reduce_folds_left_witness :
  (∃ n h', ∀ fuel, n ≤ fuel →
     FluentIterable.reduce fuel (FluentIterable.Wrap (VArr [num 1; num 2; num 7]))
       add (num 0) empty_heap = Ok (num 10) h') ∧
  (∃ n, ∀ fuel, n ≤ fuel →
     FluentIterable.reduce fuel (FluentIterable.Wrap (VArr [num 1; VStr "x"; num 7]))
       add (num 0) empty_heap = Throw (TypeError "not a number")).
Proof.
  split.
  - destruct (reduce_folds_left add [num 1; num 2; num 7] (num 0) empty_heap)
      as (_ & H & _). by apply (H (num 10)).
  - destruct (reduce_folds_left add [num 1; VStr "x"; num 7] (num 0) empty_heap)
      as (_ & _ & H & _). by apply (H (TypeError "not a number")).
Defined.

(** ** [join] *)

Lemma res_map_total fn (f : value → value) xs :
  (∀ x, fn x = Val (f x)) → res_map fn xs = Val (List.map f xs).
Proof.
  intros Hf. induction xs as [|x xs IH]; [done |]. simpl. by rewrite Hf, IH.
Qed.

Lemma array_join_strings to_str sep xs :
  (∀ s, to_str (VStr s) = s) →
  array_join to_str sep (List.map (λ x, VStr (to_str x)) xs)
  = String.concat sep (List.map to_str xs).
Proof.
  intros Hs. unfold array_join. f_equal. rewrite List.map_map.
  apply List.map_ext. intros x. apply Hs.
Qed.

(** X7: [join(sep)] is the host's [String] of each element of the source, in
    order, with [sep] between two neighbours; the separator is a comma when
    none is given, and the result is the empty string for an empty source. *)
Theorem join_concatenates (to_str : value → string) (xs : list value)
    (sep : option string) (h : heap) :
  (∀ s, to_str (VStr s) = s) →
  (∃ n h', ∀ fuel, n ≤ fuel →
     FluentIterable.join to_str fuel (FluentIterable.Wrap (VArr xs)) sep h
     = Ok (String.concat (default "," sep) (List.map to_str xs)) h') ∧
  (∀ a, gens h !! a = Some (GItems xs) →
     ∃ n h', ∀ fuel, n ≤ fuel →
       FluentAsyncIterable.join to_str fuel (FluentAsyncIterable.Wrap (VAsyncGen a)) sep h
       = Ok (String.concat (default "," sep) (List.map to_str xs)) h') ∧
  String.concat (default "," sep) (List.map to_str []) = "".
Proof.
  intros Hs. split_and!; [| | done].
  - pose proof (chain_step Sync h (VArr xs) xs (TMap (λ x, Val (VStr (to_str x))))
                  (List.map (λ x, VStr (to_str x)) xs)
                  (chain_source_array Sync h xs eq_refl)) as Hsrc.
    specialize (Hsrc ltac:(simpl; by rewrite (res_map_total _ (λ x, VStr (to_str x))))).
    destruct (sync_toArray_source _ _ _ Hsrc) as (n & h' & Hrun).
    exists n, h'. intros fuel Hfuel. unfold FluentIterable.join.
    erewrite bind_ok by apply (sync_transform_spec _ (TMap _)).
    erewrite bind_ok by by apply Hrun.
    cbv beta delta [ret]. by rewrite array_join_strings.
  - intros a Ha.
    pose proof (chain_step Async h (VAsyncGen a) xs (TMap (λ x, Val (VStr (to_str x))))
                  (List.map (λ x, VStr (to_str x)) xs)
                  (async_root_source h a xs Ha)) as Hsrc.
    specialize (Hsrc ltac:(simpl; by rewrite (res_map_total _ (λ x, VStr (to_str x))))).
    destruct (async_toArray_source _ _ _ Hsrc) as (n & h' & Hrun).
    exists n, h'. intros fuel Hfuel. unfold FluentAsyncIterable.join.
    erewrite bind_ok by apply (async_transform_spec _ (TMap _)).
    erewrite bind_ok by by apply Hrun.
    cbv beta delta [ret]. by rewrite array_join_strings.
Qed.

Lemma join_concatenates_witness :
  (∃ n h', ∀ fuel, n ≤ fuel →
     FluentIterable.join show fuel (FluentIterable.Wrap (VArr [num 1; VStr "b"; num 7]))
       None empty_heap = Ok "1,b,7" h') ∧
  (∃ n h', ∀ fuel, n ≤ fuel →
     FluentIterable.join show fuel (FluentIterable.Wrap (VArr [num 1; VStr "b"; num 7]))
       (Some " - ") empty_heap = Ok "1 - b - 7" h').
Proof.
  split.
  - destruct (join_concatenates show [num 1; VStr "b"; num 7] None empty_heap)
      as (H & _); [reflexivity | exact H].
  - destruct (join_concatenates show [num 1; VStr "b"; num 7] (Some " - ") empty_heap)
      as (H & _); [reflexivity | exact H].
Defined.

(** ** Laziness *)

(** X8: a transformation method consumes nothing and runs no callback: it
    always succeeds, whatever the source and the arguments are; every
    generator object and function object that was there is as it was; and
    the only call made is that of the method's own new generator function,
    whose generator object is suspended at its start. *)
Theorem transformations_are_lazy (tr : transformation) (h : heap) :
  (∀ this, ∃ g f h1,
     sync_transform this tr h = Ok (FluentIterable.Wrap (VGen g)) h1 ∧
     gens h !! g = None ∧ funs h !! f = None ∧
     gens h1 = <[g := GStart Sync (stage_of (FluentIterable.input this) tr)]> (gens h) ∧
     funs h1 = <[f := FnStage Sync (stage_of (FluentIterable.input this) tr)]> (funs h) ∧
     calls h1 = calls h ++ [f] ∧
     (∀ a fr, gens h !! a = Some fr → gens h1 !! a = Some fr) ∧
     (∀ a cl, funs h !! a = Some cl → funs h1 !! a = Some cl)) ∧
  (∀ this, ∃ g f h1,
     async_transform this tr h = Ok (FluentAsyncIterable.Wrap (VAsyncGen g)) h1 ∧
     gens h !! g = None ∧ funs h !! f = None ∧
     gens h1
       = <[g := GStart Async (stage_of (FluentAsyncIterable.input this) tr)]> (gens h) ∧
     funs h1
       = <[f := FnStage Async (stage_of (FluentAsyncIterable.input this) tr)]> (funs h) ∧
     calls h1 = calls h ++ [f] ∧
     (∀ a fr, gens h !! a = Some fr → gens h1 !! a = Some fr) ∧
     (∀ a cl, funs h !! a = Some cl → funs h1 !! a = Some cl)).
Proof.
  assert (gens h !! fresh (dom (gens h)) = None) as Hg
    by (apply not_elem_of_dom, is_fresh).
  assert (funs h !! fresh (dom (funs h)) = None) as Hf
    by (apply not_elem_of_dom, is_fresh).
  split; intros this; eexists _, _, _;
    (split; [first [apply sync_transform_spec | apply async_transform_spec] |]);
    (split_and!; [done | done | done | done | done | |]).
  - intros a fr Ha. simpl. rewrite lookup_insert_ne; [done | congruence].
  - intros a cl Ha. simpl. rewrite lookup_insert_ne; [done | congruence].
  - intros a fr Ha. simpl. rewrite lookup_insert_ne; [done | congruence].
  - intros a cl Ha. simpl. rewrite lookup_insert_ne; [done | congruence].
Qed.

(** ** What the consumers leave of a generator object *)

Lemma next_items_cons a x xs fuel h :
  gens h !! a = Some (GItems (x :: xs)) →
  next (S fuel) (CGen a) h
  = Ok (Some x, CGen a) (Heap (funs h) (<[a := GItems xs]> (gens h)) (calls h)).
Proof. intros Ha. simpl. munfold. by rewrite Ha. Qed.

Lemma next_items_nil a fuel h :
  gens h !! a = Some (GItems []) →
  next (S fuel) (CGen a) h
  = Ok (None, CGen a) (Heap (funs h) (<[a := GDone]> (gens h)) (calls h)).
Proof. intros Ha. simpl. munfold. by rewrite Ha. Qed.

Lemma zip_items_yields g a b xs :
  ∀ ys h,
    g ≠ a → g ≠ b → a ≠ b →
    gens h !! g = Some (GZip (CGen a) (CGen b)) →
    gens h !! a = Some (GItems xs) → gens h !! b = Some (GItems ys) →
    ∃ h', gen_yields g 2 h (pairs xs ys) h' ∧
          gens h' !! a = Some (zip_rest xs (length ys)) ∧
          gens h' !! b = Some (zip_rest ys (length xs)).
Proof.
  induction xs as [|x xs IH]; intros ys h Hga Hgb Hab Hg Ha Hb.
  - destruct ys as [|y ys].
    + eexists. split_and!.
      * apply gen_yields_end. intros fuel Hfuel.
        destruct fuel as [|fuel]; [lia |]. cbn [resume].
        destruct fuel as [|fuel]; [lia |]. read_frame Hg.
        erewrite bind_ok by by apply next_items_nil. cbv beta iota.
        erewrite bind_ok
          by (apply next_items_nil; simpl; by rewrite lookup_insert_ne).
        cbv beta iota. unfold finish. munfold. reflexivity.
      * simpl. rewrite lookup_insert_ne, lookup_insert_ne, lookup_insert_eq by done. done.
      * simpl. rewrite lookup_insert_ne, lookup_insert_eq by done. done.
    + eexists. split_and!.
      * apply gen_yields_end. intros fuel Hfuel.
        destruct fuel as [|fuel]; [lia |]. cbn [resume].
        destruct fuel as [|fuel]; [lia |]. read_frame Hg.
        erewrite bind_ok by by apply next_items_nil. cbv beta iota.
        erewrite bind_ok
          by (apply next_items_cons; simpl; by rewrite lookup_insert_ne).
        cbv beta iota. unfold finish. munfold. reflexivity.
      * simpl. rewrite lookup_insert_ne, lookup_insert_ne, lookup_insert_eq by done. done.
      * simpl. rewrite lookup_insert_ne, lookup_insert_eq by done.
        unfold zip_rest. simpl. by rewrite drop_0.
  - destruct ys as [|y ys].
    + eexists. split_and!.
      * apply gen_yields_end. intros fuel Hfuel.
        destruct fuel as [|fuel]; [lia |]. cbn [resume].
        destruct fuel as [|fuel]; [lia |]. read_frame Hg.
        erewrite bind_ok by by apply next_items_cons. cbv beta iota.
        erewrite bind_ok
          by (apply next_items_nil; simpl; by rewrite lookup_insert_ne).
        cbv beta iota. unfold finish. munfold. reflexivity.
      * simpl. rewrite lookup_insert_ne, lookup_insert_ne, lookup_insert_eq by done.
        unfold zip_rest. simpl. by rewrite drop_0.
      * simpl. rewrite lookup_insert_ne, lookup_insert_eq by done. done.
    + set (h3 := Heap (funs h)
                   (<[g := GZip (CGen a) (CGen b)]>
                      (<[b := GItems ys]> (<[a := GItems xs]> (gens h))))
                   (calls h)).
      destruct (IH ys h3) as (h' & Hy & Ha' & Hb'); [done.. | | | |].
      * apply lookup_insert_eq.
      * simpl. rewrite lookup_insert_ne, lookup_insert_ne, lookup_insert_eq by done. done.
      * simpl. rewrite lookup_insert_ne, lookup_insert_eq by done. done.
      * exists h'. split_and!; [| exact Ha' | exact Hb'].
        eapply gen_yields_step; [|exact Hy]. intros fuel Hfuel.
        destruct fuel as [|fuel]; [lia |]. cbn [resume].
        destruct fuel as [|fuel]; [lia |]. read_frame Hg.
        erewrite bind_ok by by apply next_items_cons. cbv beta iota.
        erewrite bind_ok
          by (apply next_items_cons; simpl; by rewrite lookup_insert_ne).
        cbv beta iota. unfold yield. munfold. reflexivity.
Qed.

Lemma zip_rest_cases xs k :
  (length xs ≤ k → zip_rest xs k = GDone) ∧
  (k < length xs → zip_rest xs k = GItems (drop (S k) xs)).
Proof.
  unfold zip_rest. destruct (Nat.leb_spec (length xs) k); split; intros; try done; lia.
Qed.

(** X9: [zip] asks both sequences for their next element before it looks at
    either answer.  On two generator objects it therefore takes, from the
    longer one, one element more than it pairs: that element is lost, and
    the longer generator is left one element further than the pairs
    account for.  The shorter one is left ended. *)
Theorem zip_takes_one_more (xs ys : list value) (a b : nat) (h : heap) (fuel : nat) :
  a ≠ b →
  gens h !! a = Some (GItems xs) → gens h !! b = Some (GItems ys) →
  (length xs `min` length ys) + 3 < fuel →
  ∃ h',
    (w0 ← FluentIterable.constructor (VGen a);
     w ← FluentIterable.zip w0 (VGen b);
     FluentIterable.toArray fuel w) h = Ok (pairs xs ys) h' ∧
    (length xs ≤ length ys → gens h' !! a = Some GDone) ∧
    (length ys < length xs →
       gens h' !! a = Some (GItems (drop (S (length ys)) xs))) ∧
    (length ys ≤ length xs → gens h' !! b = Some GDone) ∧
    (length xs < length ys →
       gens h' !! b = Some (GItems (drop (S (length xs)) ys))).
Proof.
  intros Hab Ha Hb Hlt.
  set (st := StZip (VGen a) (VGen b)). set (g := fresh (dom (gens h))).
  set (h1 := staged Sync st h).
  assert (g ≠ a) as Hga by (intros E; by eapply (fresh_gen_ne h a)).
  assert (g ≠ b) as Hgb by (intros E; by eapply (fresh_gen_ne h b)).
  destruct (zip_items_yields g a b xs ys
              (Heap (funs h1) (<[g := GZip (CGen a) (CGen b)]> (gens h1)) (calls h1)))
    as (h' & Hy & Ha' & Hb'); [done.. | | | |].
  - apply lookup_insert_eq.
  - simpl. by rewrite !lookup_insert_ne.
  - simpl. by rewrite !lookup_insert_ne.
  - exists h'. destruct (zip_rest_cases xs (length ys)) as [Ha1 Ha2].
    destruct (zip_rest_cases ys (length xs)) as [Hb1 Hb2].
    split_and!.
    + erewrite bind_ok by reflexivity.
      eapply (sync_stage_toArray st); [reflexivity | exact Hy |].
      rewrite pairs_length. lia.
    + intros H. by rewrite Ha', Ha1.
    + intros H. by rewrite Ha', Ha2.
    + intros H. by rewrite Hb', Hb1.
    + intros H. by rewrite Hb', Hb2.
Qed.

Lemma zip_takes_one_more_witness :
  ∃ h',
    (w0 ← FluentIterable.constructor (VGen 0);
     w ← FluentIterable.zip w0 (VGen 1);
     FluentIterable.toArray 5 w)
      (Heap ∅ (<[1 := GItems [num 5]]> {[0 := GItems [num 1; num 2; num 7]]}) [])
    = Ok [VArr [num 1; num 5]] h' ∧
    gens h' !! 0 = Some (GItems [num 7]).
Proof.
  destruct (zip_takes_one_more [num 1; num 2; num 7] [num 5] 0 1
              (Heap ∅ (<[1 := GItems [num 5]]> {[0 := GItems [num 1; num 2; num 7]]}) [])
              5) as (h' & Hrun & _ & Ha & _);
    [done | vm_compute; reflexivity | vm_compute; reflexivity | simpl; lia |].
  exists h'. split; [exact Hrun |]. apply Ha. simpl. lia.
Defined.

Lemma close_items a xs fuel h :
  gens h !! a = Some (GItems xs) →
  close (S fuel) (CGen a) h = Ok tt (Heap (funs h) (<[a := GDone]> (gens h)) (calls h)).
Proof. intros Ha. simpl. munfold. by rewrite Ha. Qed.

Lemma any_loop_closes predicate a x post pre :
  ∀ h,
    gens h !! a = Some (GItems (pre ++ x :: post)) →
    (∀ y, y ∈ pre → predicate y = Val false) → predicate x = Val true →
    ∃ h', (∀ fuel, length pre + 2 < fuel →
             any_loop fuel predicate (CGen a) h = Ok true h') ∧
          gens h' !! a = Some GDone.
Proof.
  induction pre as [|y pre IH]; intros h Ha Hp Hx.
  - eexists. split.
    + intros fuel Hfuel. destruct fuel as [|fuel]; [simpl in Hfuel; lia |].
      cbn [any_loop]. destruct fuel as [|fuel]; [simpl in Hfuel; lia |].
      erewrite bind_ok by by apply next_items_cons. cbv beta iota.
      rewrite Hx, lift_val.
      erewrite bind_ok by (eapply close_items; simpl; apply lookup_insert_eq).
      reflexivity.
    + simpl. apply lookup_insert_eq.
  - destruct (IH (Heap (funs h) (<[a := GItems (pre ++ x :: post)]> (gens h)) (calls h)))
      as (h' & Hrun & Hdone); [apply lookup_insert_eq | | done |].
    { intros z Hz. apply Hp. by right. }
    exists h'. split; [|done].
    intros fuel Hfuel. destruct fuel as [|fuel]; [simpl in Hfuel; lia |].
    cbn [any_loop]. destruct fuel as [|fuel]; [simpl in Hfuel; lia |].
    erewrite bind_ok by by apply next_items_cons. cbv beta iota.
    rewrite (Hp y) by by left. rewrite lift_val. apply Hrun. simpl in Hfuel. lia.
Qed.

Lemma all_loop_closes predicate a x post pre :
  ∀ h,
    gens h !! a = Some (GItems (pre ++ x :: post)) →
    (∀ y, y ∈ pre → predicate y = Val true) → predicate x = Val false →
    ∃ h', (∀ fuel, length pre + 2 < fuel →
             all_loop fuel predicate (CGen a) h = Ok false h') ∧
          gens h' !! a = Some GDone.
Proof.
  induction pre as [|y pre IH]; intros h Ha Hp Hx.
  - eexists. split.
    + intros fuel Hfuel. destruct fuel as [|fuel]; [simpl in Hfuel; lia |].
      cbn [all_loop]. destruct fuel as [|fuel]; [simpl in Hfuel; lia |].
      erewrite bind_ok by by apply next_items_cons. cbv beta iota.
      rewrite Hx, lift_val. cbn [negb].
      erewrite bind_ok by (eapply close_items; simpl; apply lookup_insert_eq).
      reflexivity.
    + simpl. apply lookup_insert_eq.
  - destruct (IH (Heap (funs h) (<[a := GItems (pre ++ x :: post)]> (gens h)) (calls h)))
      as (h' & Hrun & Hdone); [apply lookup_insert_eq | | done |].
    { intros z Hz. apply Hp. by right. }
    exists h'. split; [|done].
    intros fuel Hfuel. destruct fuel as [|fuel]; [simpl in Hfuel; lia |].
    cbn [all_loop]. destruct fuel as [|fuel]; [simpl in Hfuel; lia |].
    erewrite bind_ok by by apply next_items_cons. cbv beta iota.
    rewrite (Hp y) by by left. rewrite lift_val. cbn [negb]. apply Hrun.
    simpl in Hfuel. lia.
Qed.

(** X10: when [any] or [all] stops early on a wrapper around a generator
    object, leaving the [for] loop ends the generator: the elements after
    the deciding one are lost, and the wrapper is empty from then on. *)
Theorem short_circuit_ends_generator (predicate : value → res bool) (a : nat)
    (pre post : list value) (x : value) (h : heap) :
  gens h !! a = Some (GItems (pre ++ x :: post)) →
  ((∀ y, y ∈ pre → predicate y = Val false) → predicate x = Val true →
     ∃ h', (∀ fuel, length pre + 2 < fuel →
              FluentIterable.any fuel (FluentIterable.Wrap (VGen a)) predicate h
              = Ok true h') ∧
           gens h' !! a = Some GDone ∧
           ∀ fuel, 2 ≤ fuel →
             FluentIterable.toArray fuel (FluentIterable.Wrap (VGen a)) h' = Ok [] h') ∧
  ((∀ y, y ∈ pre → predicate y = Val true) → predicate x = Val false →
     ∃ h', (∀ fuel, length pre + 2 < fuel →
              FluentIterable.all fuel (FluentIterable.Wrap (VGen a)) predicate h
              = Ok false h') ∧
           gens h' !! a = Some GDone ∧
           ∀ fuel, 2 ≤ fuel →
             FluentIterable.toArray fuel (FluentIterable.Wrap (VGen a)) h' = Ok [] h').
Proof.
  intros Ha. split; intros Hp Hx.
  - destruct (any_loop_closes predicate a x post pre h Ha Hp Hx) as (h' & Hrun & Hdone).
    exists h'. split_and!; [| done |].
    + intros fuel Hfuel. unfold FluentIterable.any.
      erewrite bind_ok by reflexivity. by apply Hrun.
    + intros fuel Hfuel. rewrite sync_toArray_gen. by apply collect_ended.
  - destruct (all_loop_closes predicate a x post pre h Ha Hp Hx) as (h' & Hrun & Hdone).
    exists h'. split_and!; [| done |].
    + intros fuel Hfuel. unfold FluentIterable.all.
      erewrite bind_ok by reflexivity. by apply Hrun.
    + intros fuel Hfuel. rewrite sync_toArray_gen. by apply collect_ended.
Qed.

Lemma short_circuit_ends_generator_witness :
  ∃ h', FluentIterable.any 4 (FluentIterable.Wrap (VGen 0)) above_five
          (heap_with_gen (GItems ([num 1] ++ num 7 :: [num 2; num 9]))) = Ok true h' ∧
        FluentIterable.toArray 4 (FluentIterable.Wrap (VGen 0)) h' = Ok [] h'.
Proof.
  destruct (short_circuit_ends_generator above_five 0 [num 1] [num 2; num 9] (num 7)
              (heap_with_gen (GItems ([num 1] ++ num 7 :: [num 2; num 9]))))
    as [H _]; [vm_compute; reflexivity |].
  destruct H as (h' & Hrun & _ & Hempty); [| reflexivity |].
  - intros y Hy. apply list_elem_of_singleton in Hy as ->. reflexivity.
  - exists h'. split; [apply Hrun; simpl; lia | apply Hempty; lia].
Defined.

(** ** Errors during a traversal *)

Lemma gen_throws_mono g n n' h out e :
  n ≤ n' → gen_throws g n h out e → gen_throws g n' h out e.
Proof.
  intros Hle Hy. induction Hy as [h e Hr|h x h1 out e Hr _ IH].
  - apply gen_throws_now. intros fuel Hf. apply Hr. lia.
  - eapply gen_throws_step; [|exact IH]. intros fuel Hf. apply Hr. lia.
Qed.

Lemma collect_gen_throws g n h out e :
  gen_throws g n h out e →
  ∀ fuel arr, n + length out < fuel → collect fuel (CGen g) arr h = Throw e.
Proof.
  intros Hy. induction Hy as [h e Hr|h x h1 out e Hr _ IH]; intros fuel arr Hlt.
  - destruct fuel as [|fuel]; [lia |]. cbn [collect next_with].
    apply bind_throw. apply bind_throw. apply Hr. simpl in Hlt. lia.
  - destruct fuel as [|fuel]; [lia |]. cbn [collect next_with].
    erewrite bind_ok; last first.
    { erewrite bind_ok by (apply Hr; simpl in Hlt; lia). done. }
    cbv beta iota. apply IH. simpl in Hlt. lia.
Qed.

Lemma gen_throws_start g n m st fr h h1 out e :
  gens h !! g = Some (GStart m st) → start m st h = Ok fr h1 →
  gen_throws g n (Heap (funs h1) (<[g := fr]> (gens h1)) (calls h1)) out e →
  gen_throws g (S n) h out e.
Proof.
  intros Hg Hs Hy. inversion Hy as [h2 e2 Hr|h2 x h3 out' e2 Hr Hy']; subst.
  - apply gen_throws_now. intros [|fuel] Hf; [lia |].
    erewrite resume_start by done. apply Hr. lia.
  - eapply gen_throws_step; [|eapply gen_throws_mono; [|exact Hy']; lia].
    intros [|fuel] Hf; [lia |].
    erewrite resume_start by done. apply Hr. lia.
Qed.

Lemma map_throws g fn F x post e pre :
  ∀ ys h c,
    gens h !! g = Some (GMap fn c) → g ∉ F →
    stream F (pre ++ x :: post) h c →
    res_map fn pre = Val ys → fn x = Err e →
    ∃ n, gen_throws g n h ys e.
Proof.
  induction pre as [|y pre IH]; intros ys h c Hg HgF Hs Hm Hx.
  - injection Hm as <-.
    destruct (Hs h (same_on_refl _ _)) as (n & c1 & h1 & Hn & _ & _).
    exists (S n). apply gen_throws_now. intros fuel Hfuel.
    destruct fuel as [|fuel]; [lia |]. cbn [resume]. read_frame Hg.
    erewrite bind_ok by (apply Hn; lia). cbn [app head]. cbv beta iota.
    by rewrite Hx.
  - simpl in Hm. destruct (fn y) as [y'|] eqn:Hy; [|done]. simpl in Hm.
    destruct (res_map fn pre) as [ys'|] eqn:Hys; [|done]. injection Hm as <-.
    destruct (Hs h (same_on_refl _ _)) as (n & c1 & h1 & Hn & Ho & Hc).
    set (h2 := Heap (funs h1) (<[g := GMap fn c1]> (gens h1)) (calls h1)).
    destruct (IH ys' h2 c1) as (n' & Hrest); [apply lookup_insert_eq | done | | done..|].
    { eapply stream_frame; [exact Hc |]. by apply same_on_write. }
    exists (S n `max` n'). eapply gen_throws_step.
    + intros fuel Hfuel. destruct fuel as [|fuel]; [lia |]. cbn [resume].
      read_frame Hg. erewrite bind_ok by (apply Hn; lia). cbn [app head].
      cbv beta iota. rewrite Hy, lift_val. unfold yield. munfold. reflexivity.
    + eapply gen_throws_mono; [|exact Hrest]. lia.
Qed.


Lemma stage_collect_throws m st h fr out e n :
  (∀ h0, start m st h0 = Ok fr h0) →
  gen_throws (fresh (dom (gens h))) n
    (Heap (funs (staged m st h))
          (<[fresh (dom (gens h)) := fr]> (gens (staged m st h)))
          (calls (staged m st h))) out e →
  ∀ fuel, S n + length out < fuel →
    collect fuel (CGen (fresh (dom (gens h)))) [] (staged m st h) = Throw e.
Proof.
  intros Hs Hy fuel Hlt.
  eapply (collect_gen_throws _ (S n)); [|done].
  eapply gen_throws_start; [apply lookup_insert_eq | apply Hs | exact Hy].
Qed.

(** X11: when the callback of [map] throws on an element, materialising the
    wrapper throws that error: the elements before it are mapped, nothing is
    returned, and the callback is not asked about the elements after it. *)
Theorem map_error_propagates (fn : value → res value) (pre post ys : list value)
    (x : value) (e : error) (h : heap) :
  res_map fn pre = Val ys → fn x = Err e →
  (∃ n, ∀ fuel, n ≤ fuel →
     (w0 ← FluentIterable.constructor (VArr (pre ++ x :: post));
      w ← FluentIterable.map w0 fn;
      FluentIterable.toArray fuel w) h = Throw e) ∧
  (∀ a, gens h !! a = Some (GItems (pre ++ x :: post)) →
     ∃ n, ∀ fuel, n ≤ fuel →
       (w0 ← FluentAsyncIterable.constructor (VAsyncGen a);
        w ← FluentAsyncIterable.map w0 fn;
        FluentAsyncIterable.toArray fuel w) h = Throw e).
Proof.
  intros Hm Hx. split.
  - set (xs := pre ++ x :: post). set (st := StMap fn (VArr xs)).
    set (g := fresh (dom (gens h))).
    destruct (map_throws g fn ∅ x post e pre ys
                (Heap (funs (staged Sync st h))
                      (<[g := GMap fn (CArr xs 0)]> (gens (staged Sync st h)))
                      (calls (staged Sync st h))) (CArr xs 0))
      as (n & Hy); [apply lookup_insert_eq | set_solver | apply array_stream | done..|].
    exists (S (S n) + length ys). intros fuel Hfuel.
    erewrite bind_ok by reflexivity.
    erewrite bind_ok by apply (sync_transform_spec _ (TMap fn)).
    rewrite sync_toArray_gen.
    eapply (stage_collect_throws Sync st h); [done | exact Hy | lia].
  - intros a Ha. set (xs := pre ++ x :: post). set (st := StMap fn (VAsyncGen a)).
    set (g := fresh (dom (gens h))).
    assert (a ≠ g) as Hag by by eapply fresh_gen_ne.
    destruct (map_throws g fn {[a]} x post e pre ys
                (Heap (funs (staged Async st h))
                      (<[g := GMap fn (CGen a)]> (gens (staged Async st h)))
                      (calls (staged Async st h))) (CGen a))
      as (n & Hy); [apply lookup_insert_eq | set_solver | | done..|].
    { apply items_stream. simpl. by rewrite !lookup_insert_ne. }
    exists (S (S n) + length ys). intros fuel Hfuel.
    erewrite bind_ok by reflexivity.
    erewrite bind_ok by apply (async_transform_spec _ (TMap fn)).
    rewrite async_toArray_gen.
    eapply (stage_collect_throws Async st h); [done | exact Hy | lia].
Qed.

Lemma map_error_propagates_witness :
  ∃ n, ∀ fuel, n ≤ fuel →
    (w0 ← FluentIterable.constructor (VArr ([num 1; num 2] ++ VStr "x" :: [num 7]));
     w ← FluentIterable.map w0 double_number;
     FluentIterable.toArray fuel w) empty_heap = Throw (TypeError "not a number").
Proof.
  destruct (map_error_propagates double_number [num 1; num 2] [num 7] [num 2; num 4]
              (VStr "x") (TypeError "not a number") empty_heap) as [H _];
    [reflexivity | reflexivity | exact H].
Defined.

Lemma iterator_of_not_callable_uniform k r :
  callable_member k r = false → ∃ msg, ∀ h, iterator_of k r h = Throw (TypeError msg).
Proof.
  unfold callable_member, iterator_of. destruct (get r k) as [m|[msg]] eqn:G.
  - intros Hm. destruct m; try done; eexists; intros h; rewrite lift_val; reflexivity.
  - intros _. exists msg. done.
Qed.



(** ** The asynchronous [flat] and [zip] call [Symbol.asyncIterator] directly *)

Lemma resume_start_throws g m st e h fuel :
  gens h !! g = Some (GStart m st) → start m st h = Throw e →
  resume (S fuel) g h = Throw e.
Proof.
  intros Hg Hs. cbn [resume]. munfold. by rewrite Hg, Hs.
Qed.

Lemma async_stage_start_throws st e h :
  (∀ h0, start Async st h0 = Throw e) →
  ∀ fuel, 2 ≤ fuel →
    (w ← FluentAsyncIterable.stage_wrapper st; FluentAsyncIterable.toArray fuel w) h
    = Throw e.
Proof.
  intros Hs fuel Hfuel. erewrite bind_ok by apply async_stage_wrapper.
  rewrite async_toArray_gen. apply (collect_gen_throws _ 1 _ []); [|simpl; lia].
  apply gen_throws_now. intros [|k] Hk; [lia |].
  eapply resume_start_throws; [apply lookup_insert_eq | apply Hs].
Qed.

Lemma async_supplied_array f xs h :
  funs h !! f = Some (FnConst (VArr xs)) →
  FluentAsyncIterable.constructor (VFun f) h
  = Ok (FluentAsyncIterable.Wrap (VArr xs)) (Heap (funs h) (gens h) (calls h ++ [f])).
Proof.
  intros Hf. rewrite async_constructor_callable by done.
  unfold call_value, call. munfold. by rewrite Hf.
Qed.

(** X13: the asynchronous [flat] and [zip] obtain their cursors by calling
    [Symbol.asyncIterator] themselves, where the other methods use
    [for await], which falls back to [Symbol.iterator].  So over a wrapper
    whose supplier returned a plain array, [toArray] and [map] work, while
    [flat] and [zip] throw a TypeError at the first element asked for; and
    [zip] throws as well when its argument is what has no asynchronous
    iterator method. *)
Theorem async_flat_zip_need_async_method (f : nat) (xs : list value) (h : heap) :
  funs h !! f = Some (FnConst (VArr xs)) →
  (∃ n h', ∀ fuel, n ≤ fuel →
     (w0 ← FluentAsyncIterable.constructor (VFun f);
      FluentAsyncIterable.toArray fuel w0) h = Ok xs h') ∧
  (∀ fn ys, res_map fn xs = Val ys →
     ∃ n h', ∀ fuel, n ≤ fuel →
       (w0 ← FluentAsyncIterable.constructor (VFun f);
        w ← FluentAsyncIterable.map w0 fn;
        FluentAsyncIterable.toArray fuel w) h = Ok ys h') ∧
  (∃ msg, ∀ fuel, 2 ≤ fuel →
     (w0 ← FluentAsyncIterable.constructor (VFun f);
      w ← FluentAsyncIterable.flat w0;
      FluentAsyncIterable.toArray fuel w) h = Throw (TypeError msg)) ∧
  (∀ other, ∃ msg, ∀ fuel, 2 ≤ fuel →
     (w0 ← FluentAsyncIterable.constructor (VFun f);
      w ← FluentAsyncIterable.zip w0 other;
      FluentAsyncIterable.toArray fuel w) h = Throw (TypeError msg)) ∧
  (∀ a other, callable_member SymAsyncIterator other = false →
     ∃ msg, ∀ fuel, 2 ≤ fuel →
       (w0 ← FluentAsyncIterable.constructor (VAsyncGen a);
        w ← FluentAsyncIterable.zip w0 other;
        FluentAsyncIterable.toArray fuel w) h = Throw (TypeError msg)).
Proof.
  intros Hf. set (h1 := Heap (funs h) (gens h) (calls h ++ [f])).
  destruct (iterator_of_not_callable_uniform SymAsyncIterator (VArr xs) eq_refl)
    as (msg & Hthrow).
  split_and!.
  - destruct (stream_collect ∅ xs h1 (CArr xs 0) (array_stream _ _)) as (n & h' & Hcol & _).
    exists n, h'. intros fuel Hfuel.
    erewrite bind_ok by by apply async_supplied_array.
    unfold FluentAsyncIterable.toArray.
    erewrite bind_ok by apply array_loop_iterator. by apply (Hcol fuel []).
  - intros fn ys Hm. set (st := StMap fn (VArr xs)).
    set (g := fresh (dom (gens h1))).
    assert (stream ({[g]} ∪ ∅) ys (staged Async st h1) (CGen g)) as Hs.
    { eapply (stream_start g Async st (GMap fn (CArr xs 0)));
        [apply lookup_insert_eq | set_solver | done |].
      eapply stream_map; [apply lookup_insert_eq | set_solver | apply array_stream | done]. }
    destruct (stream_collect _ _ _ _ Hs) as (n & h' & Hcol & _).
    exists n, h'. intros fuel Hfuel.
    erewrite bind_ok by by apply async_supplied_array.
    erewrite bind_ok by apply (async_transform_spec _ (TMap fn)).
    rewrite async_toArray_gen. by apply (Hcol fuel []).
  - exists msg. intros fuel Hfuel.
    erewrite bind_ok by by apply async_supplied_array.
    apply async_stage_start_throws; [|done].
    intros h0. apply bind_throw. apply Hthrow.
  - intros other. exists msg. intros fuel Hfuel.
    erewrite bind_ok by by apply async_supplied_array.
    apply async_stage_start_throws; [|done].
    intros h0. apply bind_throw. apply Hthrow.
  - intros a other Hother.
    destruct (iterator_of_not_callable_uniform _ _ Hother) as (msg' & Hthrow').
    exists msg'. intros fuel Hfuel.
    erewrite bind_ok by reflexivity.
    apply async_stage_start_throws; [|done].
    intros h0. unfold start. erewrite bind_ok by reflexivity.
    apply bind_throw. apply Hthrow'.
Qed.

Lemma async_flat_zip_need_async_method_witness :
  ∃ msg, ∀ fuel, 2 ≤ fuel →
    (w0 ← FluentAsyncIterable.constructor (VFun 0);
     w ← FluentAsyncIterable.flat w0;
     FluentAsyncIterable.toArray fuel w) (heap_with (FnConst (VArr [num 1; num 2])))
    = Throw (TypeError msg).
Proof.
  destruct (async_flat_zip_need_async_method 0 [num 1; num 2]
              (heap_with (FnConst (VArr [num 1; num 2])))) as (_ & _ & H & _);
    [vm_compute; reflexivity | exact H].
Defined.

(** ** The static constructors *)


